(** * A market-making loop for a perpetual-futures exchange (src/main.py)

    Shallow embedding of [run_trading_bot] and of the pieces it is made of:
    the symbol normalisation, the bid/ask quote computation on binary64
    floats with its decimal formatting, the per-tick cancel pass, the
    inventory-flattening step, the order placement, the retry loop and the
    shutdown sweep.

    Python [float] is IEEE-754 binary64, which is what Rocq's primitive
    [float] is, so the quote arithmetic is modelled operation for operation.
    The exchange client, [time.sleep], [input] and the authentication helpers
    are the outside world: a record of state-passing functions that may
    return or raise. *)

From Stdlib Require Import ZArith QArith Qabs Qpower List String Ascii Bool.
From Stdlib Require Import Lia Lqa Floats.
From Stdlib Require DecimalString.
Import ListNotations.

Close Scope Q_scope.

Set Warnings "-inexact-float".

Local Open Scope string_scope.

(** ** Python strings (ASCII fragment) *)

Module PyStr.

(** [str.upper], on ASCII letters; other bytes are left as they are. *)
Definition upper_ascii (c : ascii) : ascii :=
  let n := nat_of_ascii c in
  if ((97 <=? n) && (n <=? 122))%nat then ascii_of_nat (n - 32) else c.

Fixpoint upper (s : string) : string :=
  match s with
  | EmptyString => EmptyString
  | String c r => String (upper_ascii c) (upper r)
  end.

(** [s.endswith(suf)] *)
Definition endswith (s suf : string) : bool :=
  (String.length suf <=? String.length s)%nat
  && String.eqb (substring (String.length s - String.length suf)
                           (String.length suf) s) suf.

(** [str.strip()] with no argument removes white space at both ends; in
    ASCII that is the space, the controls 9 to 13 and the separators 28 to
    31. *)
Definition is_space (c : ascii) : bool :=
  let n := nat_of_ascii c in
  ((n =? 32) || ((9 <=? n) && (n <=? 13)) || ((28 <=? n) && (n <=? 31)))%nat.

Fixpoint lstrip (s : string) : string :=
  match s with
  | EmptyString => EmptyString
  | String c r => if is_space c then lstrip r else s
  end.

Fixpoint rstrip (s : string) : string :=
  match s with
  | EmptyString => EmptyString
  | String c r =>
      match rstrip r with
      | EmptyString => if is_space c then EmptyString else String c EmptyString
      | r' => String c r'
      end
  end.

Definition strip (s : string) : string := rstrip (lstrip s).

(** Truth value of a string: empty is false. *)
Definition truthy (s : string) : bool :=
  match s with EmptyString => false | _ => true end.

End PyStr.

(** ** The trading symbol (main.py, lines 232-239) *)

Module Symbol.

(** The process environment, as [os.getenv] sees it. *)
Definition environ := string -> option string.

Definition getenv (env : environ) (key default : string) : string :=
  match env key with
  | Some v => v
  | None => default
  end.

Definition normalize (env_symbol : string) : string :=
  if negb (PyStr.endswith env_symbol "-USD")
  then env_symbol ++ "-USD"
  else env_symbol.

Definition current_symbol (env : environ) : string :=
  normalize (PyStr.upper (getenv env "SYMBOL" "BTC")).

End Symbol.

(** ** Binary64 quotes (main.py, lines 265-288) *)

Module Quote.

Local Open Scope float_scope.

Definition SPREAD_BPS : float := 8.

Definition spread_factor (spread_bps : float) : float := spread_bps / 10000.

Definition bid_price (spread_bps mark_price : float) : float :=
  mark_price * (1 - spread_factor spread_bps).

Definition ask_price (spread_bps mark_price : float) : float :=
  mark_price * (1 + spread_factor spread_bps).

(** *** [format(x, ".Nf")]

    Python prints the decimal expansion of the exact binary value, correctly
    rounded to [N] fractional digits with ties to even, and keeps the sign
    of a negative zero. *)

Local Open Scope Z_scope.

Definition round_half_even (n d : Z) : Z :=
  let q := n / d in
  match (2 * (n mod d)) ?= d with
  | Lt => q
  | Gt => q + 1
  | Eq => if Z.even q then q else q + 1
  end.

(** [m * 2^e * 10^digits], rounded to an integer. *)
Definition scaled (digits : nat) (m : positive) (e : Z) : Z :=
  if 0 <=? e
  then Zpos m * 2 ^ e * 10 ^ Z.of_nat digits
  else round_half_even (Zpos m * 10 ^ Z.of_nat digits) (2 ^ (- e)).

Definition digit_char (n : Z) : ascii := ascii_of_nat (48 + Z.to_nat (n mod 10)).

(** The last [w] decimal digits of [n], zero padded. *)
Fixpoint frac_digits (w : nat) (n : Z) : string :=
  match w with
  | O => EmptyString
  | S w' => (frac_digits w' (n / 10) ++ String (digit_char n) EmptyString)%string
  end.

Definition int_digits (n : Z) : string :=
  DecimalString.NilZero.string_of_uint (N.to_uint (Z.to_N n)).

Definition fixed (digits : nat) (q : Z) : string :=
  let p := 10 ^ Z.of_nat digits in
  match digits with
  | O => int_digits q
  | _ => (int_digits (q / p) ++ "." ++ frac_digits digits (q mod p))%string
  end.

Definition sign_str (s : bool) : string := if s then "-"%string else ""%string.

Definition format_f (digits : nat) (x : float) : string :=
  match Prim2SF x with
  | S754_nan => "nan"%string
  | S754_infinity s => (sign_str s ++ "inf")%string
  | S754_zero s => (sign_str s ++ fixed digits 0)%string
  | S754_finite s m e => (sign_str s ++ fixed digits (scaled digits m e))%string
  end.

(** The branch of lines 276-288: four decimals below 100, two otherwise. *)
Definition quote_strings (spread_bps mark_price : float) : string * string :=
  let bid := bid_price spread_bps mark_price in
  let ask := ask_price spread_bps mark_price in
  if (mark_price <? 100)%float
  then (format_f 4 bid, format_f 4 ask)
  else (format_f 2 bid, format_f 2 ask).

(** What follows the decimal point of a printed number, and how long it is. *)
Fixpoint after_point (s : string) : option string :=
  match s with
  | EmptyString => None
  | String c r => if Ascii.eqb c "." then Some r else after_point r
  end.

Definition fraction_length (s : string) : option nat :=
  option_map String.length (after_point s).

(** The rational number that a finite binary64 value stands for. *)
Definition value (x : float) : Q :=
  match Prim2SF x with
  | S754_finite s m e =>
      Qmult (inject_Z (if s then Zneg m else Zpos m)) (Qpower (2 # 1) e)
  | _ => 0%Q
  end.

(** What binary64 multiplication returns for a positive product whose
    mantissa, cut to 53 bits, is [q] at exponent [e], [1 <= q <= 2^53]:
    a carry into the 54th bit moves the exponent up, and an exponent above
    971 overflows. *)
Definition rounded (q e : Z) : spec_float :=
  if q <? 2 ^ 53
  then (if e <=? 971 then S754_finite false (Z.to_pos q) e
        else S754_infinity false)
  else (if e + 1 <=? 971 then S754_finite false (2 ^ 52)%positive (e + 1)
        else S754_infinity false).

(** Finite values: everything but the infinities and NaN. *)
Definition finite (x : float) : bool :=
  match Prim2SF x with
  | S754_zero _ | S754_finite _ _ _ => true
  | _ => false
  end.

End Quote.

(** ** The outside world and the effects of the bot *)

Module Bot.

Local Open Scope list_scope.

(** Python exceptions, by what the handlers of main.py tell apart:
    [except Exception] catches the first, [except KeyboardInterrupt] the
    second, and a bare [except:] all three. *)
Inductive exn :=
| Exception (msg : string)
| KeyboardInterrupt
| BaseException (msg : string).

Definition outcome (A : Type) : Type := (exn + A)%type.

Definition order_id := Z.

(** The request-signing capability ([StandXAuth]), by its key material. *)
Inductive signer := Ed25519 (key : string).

(** The authentication context built in lines 133-138 and 191-196. The
    [client] entry is the runtime itself. *)
Record context := { auth : signer; token : string; address : string }.

(** Values read out of the decoded JSON answers. [Number f] is any value
    that [float()] converts to [f]; [NotNumber raw] one it rejects. *)
Inductive scalar := Number (f : float) | NotNumber (raw : string).

Record price_data := { mark_price : option scalar }.
Record order_rec := { id : option order_id }.
Record open_orders := { result : option (list order_rec) }.
Record position := { symbol : option string; qty : option scalar }.

Inductive side := buy | sell.
Inductive order_type := limit | market.
Inductive time_in_force := gtc | ioc.

(** The [qty] argument of [place_order]: the configured size string, or
    [str(x)] of a float, kept as the float it prints. *)
Inductive qty_arg := QtyStr (s : string) | QtyFloat (x : float).

Record order := {
  o_symbol : string;
  o_side : side;
  o_type : order_type;
  o_qty : qty_arg;
  o_price : option string;
  o_tif : time_in_force;
  o_reduce_only : bool
}.

Inductive call :=
| QuerySymbolPrice (sym : string)
| QueryOpenOrders (tok sym : string)
| CancelOrders (tok : string) (order_id_list : list order_id) (a : signer)
| QueryPositions (tok sym : string)
| PlaceOrder (tok : string) (o : order) (a : signer)
| Sleep (seconds : Z)
| Input (prompt : string)
| GetAuthContextPrivateKey
| GetAuthContextApiToken.

Inductive level := INFO | WARNING | ERROR | CRITICAL.

(** One constructor per [logger] line of [run_trading_bot], with the values
    its f-string interpolates. *)
Inductive log_msg :=
| FailedContext
| Starting (sym user_label : string)
| SpreadTarget (bps : float) (size base : string)
| MarkLine (mark : float) (bid ask : string)
| FoundOpen (n : nat)
| BatchCancelled (n : nat)
| BatchFailed (batch_error : string)
| CancelledOrder (oid : order_id)
| FailedCancel (oid : order_id) (single_error : string)
| CancelStepError (e : string)
| OpenPosition (q : float) (sym : string)
| AttemptingClose
| CloseSent
| CloseFailed (close_error : string)
| PositionStepError (e : string)
| OrdersPlaced
| LoopError (loop_error : string)
| StoppedByUser
| FatalError (e : string)
| EmergencyExit
| ShutdownStart
| Retrieved (n : nat)
| ShutdownCancelled (n : nat)
| ShutdownFallback
| ShutdownNoOrders
| CleanupFailed (cleanup_error : string).

(** What a run leaves behind, in order: calls to the outside with the
    exception they raised if any, exceptions raised by the bot's own
    conversions, log lines, and what is printed. *)
Inductive event :=
| ECall (c : call) (raised : option exn)
| ERaise (e : exn)
| ELog (l : level) (m : log_msg)
| EPrint (s : string)
| ETraceback.

Definition trace := list event.

(** The collaborators, as state-passing functions over a world [W]. *)
Record Runtime (W : Type) := {
  query_symbol_price : string -> W -> outcome price_data * W;
  query_open_orders : string -> string -> W -> outcome open_orders * W;
  cancel_orders : string -> list order_id -> signer -> W -> outcome unit * W;
  query_positions : string -> string -> W -> outcome (list position) * W;
  place_order : string -> order -> signer -> W -> outcome unit * W;
  time_sleep : Z -> W -> outcome unit * W;
  input : string -> W -> outcome string * W;
  get_auth_context_private_key : W -> outcome (option context) * W;
  get_auth_context_api_token : W -> outcome (option context) * W;
  environ : Symbol.environ
}.

Arguments query_symbol_price {W}.
Arguments query_open_orders {W}.
Arguments cancel_orders {W}.
Arguments query_positions {W}.
Arguments place_order {W}.
Arguments time_sleep {W}.
Arguments input {W}.
Arguments get_auth_context_private_key {W}.
Arguments get_auth_context_api_token {W}.
Arguments environ {W}.

(** *** The monad: world passing, exceptions, and a trace *)

Section Monad.
Context {W : Type}.

Definition M (A : Type) : Type := W -> outcome A * W * trace.

Definition ret {A} (a : A) : M A := fun w => (inr a, w, []).

Definition bind {A B} (m : M A) (f : A -> M B) : M B := fun w =>
  match m w with
  | (inl e, w1, t1) => (inl e, w1, t1)
  | (inr a, w1, t1) =>
      match f a w1 with
      | (r, w2, t2) => (r, w2, t1 ++ t2)
      end
  end.

Definition raise {A} (e : exn) : M A := fun w => (inl e, w, [ERaise e]).

Definition emit (ev : event) : M unit := fun w => (inr tt, w, [ev]).

Definition log (l : level) (m : log_msg) : M unit := emit (ELog l m).

Definition raised_by {A} (r : outcome A) : option exn :=
  match r with inl e => Some e | inr _ => None end.

Definition invoke {A} (c : call) (f : W -> outcome A * W) : M A := fun w =>
  match f w with
  | (r, w1) => (r, w1, [ECall c (raised_by r)])
  end.

(** [try: body / except Exception as e: handler e] *)
Definition try_except {A} (body : M A) (handler : string -> M A) : M A := fun w =>
  match body w with
  | (inl (Exception msg), w1, t1) =>
      match handler msg w1 with
      | (r, w2, t2) => (r, w2, t1 ++ t2)
      end
  | other => other
  end.

(** [try: body / except: handler] *)
Definition try_except_any {A} (body : M A) (handler : M A) : M A := fun w =>
  match body w with
  | (inl _, w1, t1) =>
      match handler w1 with
      | (r, w2, t2) => (r, w2, t1 ++ t2)
      end
  | other => other
  end.

End Monad.

Declare Scope bot_scope.
Delimit Scope bot_scope with bot.
Notation "x <- m ;; k" := (bind m (fun x => k))
  (at level 61, m at next level, right associativity) : bot_scope.
Notation "m ;; k" := (bind m (fun _ => k))
  (at level 61, right associativity) : bot_scope.
Local Open Scope bot_scope.

Section MonadLoops.
Context {W : Type}.

(** [for x in l: f x] *)
Fixpoint for_each {A} (f : A -> M (W := W) unit) (l : list A) : M unit :=
  match l with
  | [] => ret tt
  | x :: r => f x ;; for_each f r
  end.

(** [[f x for x in l]] *)
Fixpoint comprehension {A B} (f : A -> M (W := W) B) (l : list A) : M (list B) :=
  match l with
  | [] => ret []
  | x :: r => y <- f x ;; ys <- comprehension f r ;; ret (y :: ys)
  end.

End MonadLoops.

(** *** Conversions and lookups that may raise *)

Section Conversions.
Context {W : Type}.

(** [float(v)] *)
Definition to_float (v : scalar) : M (W := W) float :=
  match v with
  | Number f => ret f
  | NotNumber raw =>
      raise (Exception ("could not convert string to float: '" ++ raw ++ "'")%string)
  end.

(** [d[key]] on a dict that may lack the key; the message is what
    [str(KeyError(key))] gives. *)
Definition subscript {A} (key : string) (v : option A) : M (W := W) A :=
  match v with
  | Some a => ret a
  | None => raise (Exception ("'" ++ key ++ "'")%string)
  end.

(** [d.get(key, default)] *)
Definition get {A} (v : option A) (default : A) : A :=
  match v with
  | Some a => a
  | None => default
  end.

Definition nonempty {A} (l : list A) : bool :=
  match l with [] => false | _ => true end.

(** [pos.get('symbol') == current_symbol] *)
Definition symbol_is (pos : position) (sym : string) : bool :=
  match symbol pos with
  | Some s => String.eqb s sym
  | None => false
  end.

End Conversions.

(** *** One tick and the loop (main.py, lines 253-394) *)

Definition ORDER_SIZE : string := "0.0015".
Definition REFRESH_RATE : Z := 30.

Section Trading.
Context {W : Type} (rt : Runtime W).
Variable ctx : context.
Variable current_symbol : string.
Variable current_order_size : string.

Local Abbreviation Mw := (M (W := W)).

Definition cancel_call (ids : list order_id) : Mw unit :=
  invoke (CancelOrders (token ctx) ids (auth ctx))
         (cancel_orders rt (token ctx) ids (auth ctx)).

Definition place_call (o : order) : Mw unit :=
  invoke (PlaceOrder (token ctx) o (auth ctx))
         (place_order rt (token ctx) o (auth ctx)).

Definition open_orders_call : Mw open_orders :=
  invoke (QueryOpenOrders (token ctx) current_symbol)
         (query_open_orders rt (token ctx) current_symbol).

Definition sleep (seconds : Z) : Mw unit :=
  invoke (Sleep seconds) (time_sleep rt seconds).

Definition order_ids (result_list : list order_rec) : Mw (list order_id) :=
  comprehension (fun o => subscript "id" (id o)) result_list.

(** Lines 311-316: the fallback, one id at a time. *)
Definition cancel_one (oid : order_id) : Mw unit :=
  try_except
    (cancel_call [oid] ;; log INFO (CancelledOrder oid))
    (fun single_error => log ERROR (FailedCancel oid single_error)).

(** Lines 305-316. *)
Definition cancel_batch (ids_to_cancel : list order_id) : Mw unit :=
  try_except
    (cancel_call ids_to_cancel ;;
     log INFO (BatchCancelled (List.length ids_to_cancel)))
    (fun batch_error =>
       log WARNING (BatchFailed batch_error) ;;
       for_each cancel_one ids_to_cancel).

(** Step 3, lines 292-319. *)
Definition cancel_open_orders : Mw unit :=
  try_except
    (oo <- open_orders_call ;;
     let result_list := get (result oo) [] in
     let total_open := List.length result_list in
     if (0 <? total_open)%nat then
       log INFO (FoundOpen total_open) ;;
       ids_to_cancel <- order_ids result_list ;;
       if nonempty ids_to_cancel then cancel_batch ids_to_cancel else ret tt
     else ret tt)
    (fun e => log ERROR (CancelStepError e)).

(** Lines 335-347: the order that closes a position of [q]. *)
Definition close_order (q : float) : order :=
  {| o_symbol := current_symbol;
     o_side := if (0 <? q)%float then sell else buy;
     o_type := market;
     o_qty := QtyFloat (abs q);
     o_price := None;
     o_tif := ioc;
     o_reduce_only := true |}.

(** Lines 328-350: the body of the loop over the positions; the state is
    the [has_position] flag. *)
Definition check_position (has_position : bool) (pos : position) : Mw bool :=
  if symbol_is pos current_symbol then
    q <- to_float (get (qty pos) (Number 0)) ;;
    if negb (q =? 0)%float then
      log WARNING (OpenPosition q current_symbol) ;;
      log INFO AttemptingClose ;;
      try_except
        (place_call (close_order q) ;; log INFO CloseSent)
        (fun close_error => log ERROR (CloseFailed close_error)) ;;
      ret true
    else ret has_position
  else ret has_position.

Fixpoint check_positions (has_position : bool) (positions : list position)
  : Mw bool :=
  match positions with
  | [] => ret has_position
  | pos :: rest =>
      h <- check_position has_position pos ;; check_positions h rest
  end.

(** Step 4, lines 321-358. *)
Definition flatten_positions : Mw unit :=
  try_except
    (positions <- invoke (QueryPositions (token ctx) current_symbol)
                         (query_positions rt (token ctx) current_symbol) ;;
     _ <- check_positions false positions ;;
     ret tt)
    (fun e => log ERROR (PositionStepError e)).

Definition quote_order (s : side) (price_str : string) : order :=
  {| o_symbol := current_symbol;
     o_side := s;
     o_type := limit;
     o_qty := QtyStr current_order_size;
     o_price := Some price_str;
     o_tif := gtc;
     o_reduce_only := false |}.

(** Step 5, lines 360-387. *)
Definition place_new_orders (bid_price_str ask_price_str : string) : Mw unit :=
  place_call (quote_order buy bid_price_str) ;;
  place_call (quote_order sell ask_price_str) ;;
  log INFO OrdersPlaced.

(** Steps 1 and 2, lines 256-290: the mark price and the two quotes. *)
Definition fetch_quotes : Mw (string * string) :=
  pd <- invoke (QuerySymbolPrice current_symbol)
               (query_symbol_price rt current_symbol) ;;
  v <- subscript "mark_price" (mark_price pd) ;;
  mark <- to_float v ;;
  let (bid_price_str, ask_price_str) :=
    Quote.quote_strings Quote.SPREAD_BPS mark in
  log INFO (MarkLine mark bid_price_str ask_price_str) ;;
  ret (bid_price_str, ask_price_str).

(** Steps 1 to 4. *)
Definition prepare : Mw (string * string) :=
  quotes <- fetch_quotes ;;
  cancel_open_orders ;;
  flatten_positions ;;
  ret quotes.

(** The body of the inner [try], lines 256-390. *)
Definition tick : Mw unit :=
  quotes <- prepare ;;
  place_new_orders (fst quotes) (snd quotes) ;;
  sleep REFRESH_RATE.

(** One turn of [while True], lines 255-394. *)
Definition iteration : Mw unit :=
  try_except tick
    (fun loop_error => log ERROR (LoopError loop_error) ;; sleep 5).

(** [while True] never leaves normally: [inr tt] means the fuel ran out
    with the loop still turning. *)
Fixpoint trading_loop (fuel : nat) : Mw unit :=
  match fuel with
  | O => ret tt
  | S n => iteration ;; trading_loop n
  end.

(** *** Shutdown (main.py, lines 396-428) *)

(** Lines 419-423: the bare [except: pass]. *)
Definition shutdown_cancel_one (oid : order_id) : Mw unit :=
  try_except_any (cancel_call [oid]) (ret tt).

(** Lines 406-428. *)
Definition shutdown_sweep : Mw unit :=
  try_except
    (log INFO ShutdownStart ;;
     oo <- open_orders_call ;;
     let result_list := get (result oo) [] in
     if nonempty result_list then
       ids_to_cancel <- order_ids result_list ;;
       log INFO (Retrieved (List.length ids_to_cancel)) ;;
       try_except
         (cancel_call ids_to_cancel ;;
          log INFO (ShutdownCancelled (List.length ids_to_cancel)))
         (fun _ =>
            for_each shutdown_cancel_one ids_to_cancel ;;
            log INFO ShutdownFallback)
     else log INFO ShutdownNoOrders)
    (fun cleanup_error => log ERROR (CleanupFailed cleanup_error)).

(** Line 405: [if context and client and token]; a context dict and a
    client object are always true, the token is when it is not empty. *)
Definition established : bool := PyStr.truthy (token ctx).

(** The [finally] clause. *)
Definition cleanup : Mw unit :=
  if established then shutdown_sweep else ret tt.

(** The two [except] clauses of the outer [try], lines 396-402; any other
    exception stays pending. *)
Definition on_exit (e : exn) : Mw unit :=
  match e with
  | KeyboardInterrupt => log INFO StoppedByUser
  | Exception msg =>
      log CRITICAL (FatalError msg) ;; emit ETraceback ;; log INFO EmergencyExit
  | BaseException _ => fun w => (inl e, w, [])
  end.

(** [try: ... finally: fin], after the [try] part ended with [r]. *)
Definition finally (r : outcome unit) (fin : Mw unit) : Mw unit := fun w =>
  match fin w with
  | (inl e, w1, t1) => (inl e, w1, t1)
  | (inr _, w1, t1) => (r, w1, t1)
  end.

(** Lines 253-428. [None]: the loop is still running when the fuel ends. *)
Definition trading_session (fuel : nat) (w : W)
  : option (outcome unit * W * trace) :=
  match trading_loop fuel w with
  | (inr _, _, _) => None
  | (inl e, w1, t1) =>
      match on_exit e w1 with
      | (r, w2, t2) =>
          match finally r cleanup w2 with
          | (r', w3, t3) => Some (r', w3, t1 ++ t2 ++ t3)
          end
      end
  end.

(** What the outer [try] and its [except] clauses leave behind, before the
    [finally] clause runs. *)
Definition before_cleanup (fuel : nat) (w : W) : trace :=
  match trading_loop fuel w with
  | (inl e, w1, t1) => t1 ++ snd (on_exit e w1)
  | (inr _, _, t1) => t1
  end.

End Trading.

(** *** Start-up (main.py, lines 207-251) *)

Section Startup.
Context {W : Type} (rt : Runtime W).

Local Abbreviation Mw := (M (W := W)).

(** [current_symbol.split('-')[0]] *)
Fixpoint before_dash (s : string) : string :=
  match s with
  | EmptyString => EmptyString
  | String c r => if Ascii.eqb c "-" then EmptyString else String c (before_dash r)
  end.

Definition size_prompt (sym : string) : string :=
  ("Enter Order Size for " ++ sym ++ " [Default: " ++ ORDER_SIZE ++ "]: ")%string.

(** Lines 223-251, once the mode's helper has answered. [None] is the
    early [return] of line 225. *)
Definition configure (c : option context)
  : Mw (option (context * string * string)) :=
  match c with
  | None => log ERROR FailedContext ;; ret None
  | Some ctx =>
      let current_symbol := Symbol.current_symbol (environ rt) in
      raw <- invoke (Input (size_prompt current_symbol))
                    (input rt (size_prompt current_symbol)) ;;
      let size_input := PyStr.strip raw in
      let current_order_size :=
        if negb (PyStr.truthy size_input) then ORDER_SIZE else size_input in
      log INFO (Starting current_symbol (address ctx)) ;;
      log INFO (SpreadTarget Quote.SPREAD_BPS current_order_size
                             (before_dash current_symbol)) ;;
      ret (Some (ctx, current_symbol, current_order_size))
  end.

Definition banner : string :=
  String (ascii_of_nat 10) "--- STANDX TRADING BOT ---".
Definition mode_1 : string :=
  "1. Private Key Wallet (requires WALLET_PRIVATE_KEY) : rabby, metamask, etc.".
Definition mode_2 : string :=
  "2. Keyless Wallet (requires STANDX_API_TOKEN & STANDX_API_KEY) : Binance wallet".

(** Lines 207-221. *)
Definition startup : Mw (option (context * string * string)) :=
  emit (EPrint banner) ;;
  emit (EPrint "Select Authentication Mode:") ;;
  emit (EPrint mode_1) ;;
  emit (EPrint mode_2) ;;
  raw <- invoke (Input "Enter choice (1 or 2): ")
                (input rt "Enter choice (1 or 2): ") ;;
  let choice := PyStr.strip raw in
  if String.eqb choice "1" then
    c <- invoke GetAuthContextPrivateKey (get_auth_context_private_key rt) ;;
    configure c
  else if String.eqb choice "2" then
    c <- invoke GetAuthContextApiToken (get_auth_context_api_token rt) ;;
    configure c
  else
    emit (EPrint "Invalid choice. Exiting.") ;; ret None.

(** [run_trading_bot], lines 198-428. *)
Definition run_trading_bot (fuel : nat) (w : W)
  : option (outcome unit * W * trace) :=
  match startup w with
  | (inl e, w1, t1) => Some (inl e, w1, t1)
  | (inr None, w1, t1) => Some (inr tt, w1, t1)
  | (inr (Some (ctx, current_symbol, current_order_size)), w1, t1) =>
      match trading_session rt ctx current_symbol current_order_size fuel w1 with
      | None => None
      | Some (r, w2, t2) => Some (r, w2, t1 ++ t2)
      end
  end.

End Startup.

(** *** Reading traces *)

Definition is_shutdown_start (ev : event) : bool :=
  match ev with
  | ELog INFO ShutdownStart => true
  | _ => false
  end.

(** The orders handed to [place_order], in order. *)
Fixpoint placed (t : trace) : list order :=
  match t with
  | [] => []
  | ECall (PlaceOrder _ o _) _ :: r => o :: placed r
  | _ :: r => placed r
  end.

(** The id lists handed to [cancel_orders], in order. *)
Fixpoint cancelled (t : trace) : list (list order_id) :=
  match t with
  | [] => []
  | ECall (CancelOrders _ ids _) _ :: r => ids :: cancelled r
  | _ :: r => cancelled r
  end.

(** Calls to the outside, without the log lines. *)
Fixpoint calls (t : trace) : list call :=
  match t with
  | [] => []
  | ECall c _ :: r => c :: calls r
  | _ :: r => calls r
  end.

(** The message of an [Exception] that an event raises. *)
Definition error_of (ev : event) : option string :=
  match ev with
  | ECall _ (Some (Exception msg)) => Some msg
  | ERaise (Exception msg) => Some msg
  | _ => None
  end.

(** The error message that a log line reports, with the step it names. *)
Definition reported (ev : event) : option string :=
  match ev with
  | ELog WARNING (BatchFailed e) => Some e
  | ELog ERROR (FailedCancel _ e) => Some e
  | ELog ERROR (CancelStepError e) => Some e
  | ELog ERROR (CloseFailed e) => Some e
  | ELog ERROR (PositionStepError e) => Some e
  | ELog ERROR (LoopError e) => Some e
  | ELog CRITICAL (FatalError e) => Some e
  | ELog ERROR (CleanupFailed e) => Some e
  | _ => None
  end.

Definition reports (ev : event) (msg : string) : bool :=
  match reported ev with
  | Some m => String.eqb m msg
  | None => false
  end.

(** Every [Exception] raised in the trace is followed at once by the log
    line that reports it. *)
Fixpoint errors_logged (t : trace) : bool :=
  match t with
  | [] => true
  | ev :: r =>
      match error_of ev with
      | None => true
      | Some msg =>
          match r with
          | [] => false
          | next :: _ => reports next msg
          end
      end && errors_logged r
  end.

(** The quantity of a position entry, when [float()] accepts it. *)
Definition quantity (pos : position) : option float :=
  match get (qty pos) (Number 0) with
  | Number q => Some q
  | NotNumber _ => None
  end.

(** The quantities to flatten in a listing: those of the entries for the
    symbol that are not zero. *)
Definition to_close (sym : string) (positions : list position) : list float :=
  flat_map
    (fun pos =>
       if symbol_is pos sym then
         match quantity pos with
         | Some q => if (q =? 0)%float then [] else [q]
         | None => []
         end
       else [])
    positions.

(** Every entry for the symbol carries a quantity that [float()] accepts. *)
Definition convertible (sym : string) (positions : list position) : bool :=
  forallb
    (fun pos =>
       negb (symbol_is pos sym)
       || match quantity pos with Some _ => true | None => false end)
    positions.

(** Events other than the start of the shutdown sweep. *)
Definition not_shutdown (ev : event) : bool := negb (is_shutdown_start ev).

(** How many times the shutdown sweep was started. *)
Definition sweeps (t : trace) : nat :=
  List.length (List.filter is_shutdown_start t).

(** *** What a list of requests leaves behind *)

Section Requests.
Context {W : Type} (rt : Runtime W).
Variable ctx : context.

(** The world after the orders [os] have been handed to [place_order], one
    after the other, whatever it answered. *)
Definition after_orders (os : list order) (w : W) : W :=
  fold_left (fun w o => snd (place_order rt (token ctx) o (auth ctx) w)) os w.

(** Each id handed to [cancel_orders] on its own, with nothing logged: the
    calls with their answers, and the world after them. *)
Fixpoint single_cancels (ids : list order_id) (w : W) : trace * W :=
  match ids with
  | [] => ([], w)
  | oid :: rest =>
      let (r, w1) := cancel_orders rt (token ctx) [oid] (auth ctx) w in
      let (t, w2) := single_cancels rest w1 in
      (ECall (CancelOrders (token ctx) [oid] (auth ctx)) (raised_by r) :: t,
       w2)
  end.

End Requests.

(** *** Which handler reports which error

    The line by which the handler that catches an [Exception] with message
    [msg], raised by the event [ev], reports it in the trading loop. It
    names the step, and for a single cancel the order id. [prev] is the
    event before [ev]; [None] is an event that raises nowhere in the loop.
    - The price query, and the [KeyError] or [ValueError] of line 258 right
      after it: the handler of the loop (line 392).
    - The query of the open orders, and the [KeyError] of line 301 right
      after the line that counts them: the handler of the cancel step
      (line 318).
    - The cancel call right after the line that counts the open orders is
      the batch (line 308); any other cancel call is for one id (line 315).
    - The query of the positions, and the [ValueError] of line 329 right
      after it or after the outcome of an earlier close: the handler of
      the position step (line 357).
    - A market order: the handler of the close (line 349); a limit order:
      the handler of the loop.
    - The sleep of the refresh interval: the handler of the loop; the
      sleep of 5 seconds in that handler: the fatal-error handler
      (line 398). *)
Definition handler_line (prev : option event) (ev : event) (msg : string)
  : option event :=
  match ev with
  | ECall (QuerySymbolPrice _) _ => Some (ELog ERROR (LoopError msg))
  | ECall (QueryOpenOrders _ _) _ => Some (ELog ERROR (CancelStepError msg))
  | ECall (CancelOrders _ ids _) _ =>
      match prev with
      | Some (ELog INFO (FoundOpen _)) =>
          Some (ELog WARNING (BatchFailed msg))
      | _ =>
          match ids with
          | [oid] => Some (ELog ERROR (FailedCancel oid msg))
          | _ => None
          end
      end
  | ECall (QueryPositions _ _) _ => Some (ELog ERROR (PositionStepError msg))
  | ECall (PlaceOrder _ o _) _ =>
      match o_type o with
      | market => Some (ELog ERROR (CloseFailed msg))
      | limit => Some (ELog ERROR (LoopError msg))
      end
  | ECall (Sleep seconds) _ =>
      if (seconds =? REFRESH_RATE)%Z then Some (ELog ERROR (LoopError msg))
      else if (seconds =? 5)%Z then Some (ELog CRITICAL (FatalError msg))
      else None
  | ERaise _ =>
      match prev with
      | Some (ECall (QuerySymbolPrice _) _) =>
          Some (ELog ERROR (LoopError msg))
      | Some (ELog INFO (FoundOpen _)) =>
          Some (ELog ERROR (CancelStepError msg))
      | Some (ECall (QueryPositions _ _) _) =>
          Some (ELog ERROR (PositionStepError msg))
      | Some (ELog INFO CloseSent) =>
          Some (ELog ERROR (PositionStepError msg))
      | Some (ELog ERROR (CloseFailed _)) =>
          Some (ELog ERROR (PositionStepError msg))
      | _ => None
      end
  | _ => None
  end.

(** After the event [prev], every [Exception] raised in the trace is
    followed at once by the line of the handler that catches it. *)
Fixpoint errors_named (prev : option event) (t : trace) : Prop :=
  match t with
  | [] => True
  | ev :: r =>
      match error_of ev with
      | None => True
      | Some msg =>
          match r with
          | [] => False
          | next :: _ => handler_line prev ev msg = Some next
          end
      end
      /\ errors_named (Some ev) r
  end.

(** The last event, once the trace [t] has followed [prev]. *)
Fixpoint last_event (prev : option event) (t : trace) : option event :=
  match t with
  | [] => prev
  | ev :: r => last_event (Some ev) r
  end.

(** Where an event stands, by the event before it. *)
Definition anywhere (prev : option event) : Prop := True.

Definition after_price (prev : option event) : Prop :=
  exists sym r, prev = Some (ECall (QuerySymbolPrice sym) r).

Definition after_count (prev : option event) : Prop :=
  exists n, prev = Some (ELog INFO (FoundOpen n)).

Definition past_count (prev : option event) : Prop :=
  forall n, prev <> Some (ELog INFO (FoundOpen n)).

Definition in_positions (prev : option event) : Prop :=
  (exists tok sym r, prev = Some (ECall (QueryPositions tok sym) r))
  \/ prev = Some (ELog INFO CloseSent)
  \/ exists e, prev = Some (ELog ERROR (CloseFailed e)).

(** *** Properties of computations *)

Section Properties.
Context {W : Type}.

(** A computation that never ends with an [Exception]. *)
Definition contained {A} (m : M (W := W) A) : Prop :=
  forall w msg, fst (fst (m w)) <> inl (Exception msg).

(** A computation all of whose events pass a test. *)
Definition only {A} (P : event -> bool) (m : M (W := W) A) : Prop :=
  forall w, forallb P (snd (m w)) = true.

(** A result and its trace agree on errors: every [Exception] in the trace
    has been logged, but for the one the computation ends with, which is
    the last event and still to be handled. *)
Definition settled {A} (r : outcome A) (t : trace) : Prop :=
  match r with
  | inl (Exception msg) =>
      exists t0 ev,
        t = t0 ++ [ev] /\ error_of ev = Some msg /\ errors_logged t0 = true
  | _ => errors_logged t = true
  end.

Definition tidy {A} (m : M (W := W) A) : Prop :=
  forall w, settled (fst (fst (m w))) (snd (m w)).

(** A handler that starts by logging the error it is given. *)
Definition reporting {A} (msg : string) (h : M (W := W) A) : Prop :=
  forall w, exists next rest,
    snd (h w) = next :: rest /\ reports next msg = true.

(** A result and its trace, after [prev], agree on the handlers: every
    [Exception] in the trace is followed by the line of its handler, but
    for the one the computation ends with, whose handler will write
    [line msg]. *)
Definition accounted {A} (line : string -> event) (prev : option event)
  (r : outcome A) (t : trace) : Prop :=
  match r with
  | inl (Exception msg) =>
      exists t0 ev,
        t = t0 ++ [ev] /\ error_of ev = Some msg
        /\ errors_named prev t0
        /\ handler_line (last_event prev t0) ev msg = Some (line msg)
  | _ => errors_named prev t
  end.

(** Started where [pre] holds, the computation accounts for its errors,
    hands those it does not catch to a handler that writes [line], and
    returns where [post] holds. *)
Definition reports_to {A} (pre : option event -> Prop) (m : M (W := W) A)
  (line : string -> event) (post : option event -> Prop) : Prop :=
  forall w prev, pre prev ->
    accounted line prev (fst (fst (m w))) (snd (m w))
    /\ (forall a, fst (fst (m w)) = inr a ->
                  post (last_event prev (snd (m w)))).

End Properties.

End Bot.

(** ** Scripted worlds

    A world that is a clock: it counts the calls made so far, and each
    collaborator answers from the count and its arguments. *)

Module Scripted.
Import Bot.

Record script := {
  on_price : nat -> outcome price_data;
  on_open_orders : nat -> outcome open_orders;
  on_cancel : nat -> list order_id -> outcome unit;
  on_positions : nat -> outcome (list position);
  on_place : nat -> order -> outcome unit;
  on_sleep : nat -> Z -> outcome unit;
  on_input : nat -> string -> outcome string;
  on_auth : nat -> outcome (option context);
  env : Symbol.environ
}.

Definition runtime (s : script) : Runtime nat :=
  {| query_symbol_price := fun _ n => (on_price s n, S n);
     query_open_orders := fun _ _ n => (on_open_orders s n, S n);
     cancel_orders := fun _ ids _ n => (on_cancel s n ids, S n);
     query_positions := fun _ _ n => (on_positions s n, S n);
     place_order := fun _ o _ n => (on_place s n o, S n);
     time_sleep := fun secs n => (on_sleep s n secs, S n);
     input := fun prompt n => (on_input s n prompt, S n);
     get_auth_context_private_key := fun n => (on_auth s n, S n);
     get_auth_context_api_token := fun n => (on_auth s n, S n);
     environ := env s |}.

Definition alice : context :=
  {| auth := Ed25519 "k1"; token := "tok"; address := "0xA11CE" |}.

Definition orders (ids : list order_id) : open_orders :=
  {| result := Some (map (fun i => {| id := Some i |}) ids) |}.

(** A calm exchange: mark price 30000, no resting orders, no position,
    every call succeeds. *)
Definition calm : script :=
  {| on_price := fun _ => inr {| mark_price := Some (Number 30000) |};
     on_open_orders := fun _ => inr (orders []);
     on_cancel := fun _ _ => inr tt;
     on_positions := fun _ => inr [];
     on_place := fun _ _ => inr tt;
     on_sleep := fun _ _ => inr tt;
     on_input := fun n _ => inr (if (n =? 0)%nat then "1" else "");
     on_auth := fun _ => inr (Some alice);
     env := fun _ => None |}.

(** A short position of 0.01 BTC, a position in another market, and a
    flat entry. *)
Definition short_position : script :=
  {| on_price := on_price calm;
     on_open_orders := on_open_orders calm;
     on_cancel := on_cancel calm;
     on_positions := fun _ =>
       inr [ {| symbol := Some "BTC-USD"; qty := Some (Number (-0.01)) |};
             {| symbol := Some "ETH-USD"; qty := Some (Number 5) |};
             {| symbol := Some "BTC-USD"; qty := Some (Number 0) |} ];
     on_place := on_place calm;
     on_sleep := on_sleep calm;
     on_input := on_input calm;
     on_auth := on_auth calm;
     env := env calm |}.

(** A calm exchange whose mark price is [mark]. *)
Definition priced (mark : float) : script :=
  {| on_price := fun _ => inr {| mark_price := Some (Number mark) |};
     on_open_orders := on_open_orders calm;
     on_cancel := on_cancel calm;
     on_positions := on_positions calm;
     on_place := on_place calm;
     on_sleep := on_sleep calm;
     on_input := on_input calm;
     on_auth := on_auth calm;
     env := env calm |}.

(** The exchange refuses every buy limit order. *)
Definition buy_refused : script :=
  {| on_price := on_price calm;
     on_open_orders := on_open_orders calm;
     on_cancel := on_cancel calm;
     on_positions := on_positions calm;
     on_place := fun _ o =>
       match o_side o, o_type o with
       | buy, limit => inl (Exception "insufficient margin")
       | _, _ => inr tt
       end;
     on_sleep := on_sleep calm;
     on_input := on_input calm;
     on_auth := on_auth calm;
     env := env calm |}.

(** The user interrupts whatever call is made when the clock shows [n];
    from then on two orders are resting. *)
Definition interrupted_at (n : nat) : script :=
  let stop {A} (c : nat) (r : outcome A) : outcome A :=
    if (c =? n)%nat then inl KeyboardInterrupt else r in
  {| on_price := fun c => stop c (on_price calm c);
     on_open_orders := fun c =>
       stop c (inr (orders (if (n <? c)%nat then [21; 22]%Z else [])));
     on_cancel := fun c ids => stop c (inr tt);
     on_positions := fun c => stop c (on_positions calm c);
     on_place := fun c o => stop c (inr tt);
     on_sleep := fun c secs => stop c (inr tt);
     on_input := fun c prompt => stop c (on_input calm c prompt);
     on_auth := fun c => stop c (on_auth calm c);
     env := env calm |}.

(** The open orders cannot be listed. *)
Definition orders_unavailable : script :=
  {| on_price := on_price calm;
     on_open_orders := fun _ => inl (Exception "503");
     on_cancel := on_cancel calm;
     on_positions := on_positions calm;
     on_place := on_place calm;
     on_sleep := on_sleep calm;
     on_input := on_input calm;
     on_auth := on_auth calm;
     env := env calm |}.

(** The two quotes of a tick on BTC-USD with the default size. *)
Definition buy_at (price : string) : order :=
  quote_order "BTC-USD" "0.0015" buy price.
Definition sell_at (price : string) : order :=
  quote_order "BTC-USD" "0.0015" sell price.

Definition same_ids (a b : list order_id) : bool :=
  if list_eq_dec Z.eq_dec a b then true else false.

(** Three resting orders; the exchange refuses any batch cancel and the
    single cancel of order 12. *)
Definition batch_refused : script :=
  {| on_price := on_price calm;
     on_open_orders := fun _ => inr (orders [11; 12; 13]%Z);
     on_cancel := fun _ ids =>
       if (1 <? List.length ids)%nat then inl (Exception "batch rejected")
       else if same_ids ids [12%Z] then inl (Exception "order 12 not found")
       else inr tt;
     on_positions := on_positions calm;
     on_place := on_place calm;
     on_sleep := on_sleep calm;
     on_input := on_input calm;
     on_auth := on_auth calm;
     env := env calm |}.

End Scripted.

(** ** The authentication helpers (main.py, lines 28-46 and 115-196)

    The wallet library, the exchange's login, the client constructor of
    the token mode and the three decoders are collaborators: they are the
    parameters of the sections below. The helpers log through the same
    [logger]; what they log is returned beside their result. *)

Module Auth.
Import Bot.
Local Open Scope list_scope.

Inductive auth_log :=
| MissingPrivateKey
| Mode1
| WalletAddress (address : string)
| LoginSuccessful
| AuthenticationFailed (e : string)
| MissingApiCredentials
| Mode2
| SigningKeyLoaded
| SigningKeyFailed (e : string).

Definition log_lines := list (level * auth_log).

(** [s.startswith(p)] *)
Definition startswith (s p : string) : bool := String.prefix p s.

(** Truth value of a variable read with [os.getenv]: unset and empty are
    both false. *)
Definition set_value (v : option string) : option string :=
  match v with
  | Some s => if PyStr.truthy s then Some s else None
  | None => None
  end.

(** Lines 33-34 and 162: drop one leading [0x]. *)
Definition strip_0x (k : string) : string :=
  if startswith k "0x" then substring 2 (String.length k - 2) k else k.

(** The closure [sign_message] of lines 38-44, by the key of the account
    it signs with. *)
Inductive sign_func := PersonalSign (key : string).

Section PrivateKey.

(** [Account.from_key(k).address], which raises on a malformed key. *)
Variable from_key : string -> outcome string.
(** [StandXAuth()], with its fresh session key. *)
Variable session_auth : signer.
(** [auth.authenticate(chain, wallet_address, sign_message).token] *)
Variable authenticate :
  signer -> string -> string -> sign_func -> outcome string.
(** [os.getenv("WALLET_PRIVATE_KEY")] *)
Variable PRIVATE_KEY_HEX : option string.

(** Lines 28-46. *)
Definition get_signer (private_key_hex : string)
  : outcome (string * sign_func) :=
  let k := strip_0x private_key_hex in
  match from_key k with
  | inl e => inl e
  | inr address => inr (address, PersonalSign k)
  end.

(** Lines 115-141. *)
Definition get_auth_context_private_key
  : outcome (option context) * log_lines :=
  match set_value PRIVATE_KEY_HEX with
  | None => (inr None, [(ERROR, MissingPrivateKey)])
  | Some key =>
      match get_signer key with
      | inl e => (inl e, [(INFO, Mode1)])
      | inr (address, sign) =>
          let said := [(INFO, Mode1); (INFO, WalletAddress address)] in
          match authenticate session_auth "bsc" address sign with
          | inr tok =>
              (inr (Some {| auth := session_auth; token := tok;
                            address := address |}),
               said ++ [(INFO, LoginSuccessful)])
          | inl (Exception e) =>
              (inr None, said ++ [(ERROR, AuthenticationFailed e)])
          | inl e => (inl e, said)
          end
      end
  end.

End PrivateKey.

Section ApiToken.

(** [bytes.fromhex], [base64.b64decode] and [base58.b58decode]; [None]
    when the decoder raises. *)
Variables fromhex b64decode b58decode : string -> option string.
(** [StandXAuth(private_key=...)] *)
Variable standx_auth : string -> outcome signer.
(** [os.getenv("STANDX_API_TOKEN")] and [os.getenv("STANDX_API_KEY")] *)
Variables API_TOKEN API_KEY : option string.
(** [StandXPerpHTTP(base_url=..., geo_url=...)] of line 152, which stands
    before the [try] of line 155: what it raises leaves the helper. *)
Variable new_client : outcome unit.

(** [not private_key_bytes or len(private_key_bytes) != 32] *)
Definition unusable (private_key_bytes : option string) : bool :=
  match private_key_bytes with
  | None => true
  | Some b => negb (PyStr.truthy b) || negb (String.length b =? 32)%nat
  end.

(** One further try, lines 168-172 and 175-179: the decoder's answer
    replaces what was there, unless the decoder raises. *)
Definition retry (decode : string -> option string) (raw_key : string)
  (private_key_bytes : option string) : option string :=
  if unusable private_key_bytes then
    match decode raw_key with
    | Some b => Some b
    | None => private_key_bytes
    end
  else private_key_bytes.

(** Lines 157-179: [private_key_bytes] after the three tries. *)
Definition decode_key (raw_key : string) : option string :=
  retry b58decode raw_key
    (retry b64decode raw_key (fromhex (strip_0x raw_key))).

Definition decode_error (private_key_bytes : option string) : string :=
  ("Could not decode API Key to 32 bytes (Length: "
   ++ Quote.int_digits
        (Z.of_nat (match private_key_bytes with
                   | Some b => String.length b
                   | None => O
                   end))
   ++ "). Check format (Hex, Base64, or Base58).")%string.

(** Lines 145-196. *)
Definition get_auth_context_api_token
  : outcome (option context) * log_lines :=
  match set_value API_TOKEN, set_value API_KEY with
  | Some tok, Some key =>
      match new_client with
      | inl e => (inl e, [(INFO, Mode2)])
      | inr _ =>
          let private_key_bytes := decode_key (PyStr.strip key) in
          if unusable private_key_bytes then
            (inr None,
             [(INFO, Mode2);
              (ERROR, SigningKeyFailed (decode_error private_key_bytes))])
          else
            match standx_auth (Bot.get private_key_bytes ""%string) with
            | inr a =>
                (inr (Some {| auth := a; token := tok;
                              address := "API_TOKEN_USER" |}),
                 [(INFO, Mode2); (INFO, SigningKeyLoaded)])
            | inl (Exception e) =>
                (inr None, [(INFO, Mode2); (ERROR, SigningKeyFailed e)])
            | inl e => (inl e, [(INFO, Mode2)])
            end
      end
  | _, _ => (inr None, [(ERROR, MissingApiCredentials)])
  end.

(** A line logged at [ERROR], and whether a helper logged one. *)
Definition is_error (l : level * auth_log) : bool :=
  match fst l with ERROR => true | _ => false end.

Definition error_logged (said : log_lines) : bool := existsb is_error said.

(** The first answer of a list of tries that has exactly 32 bytes. *)
Fixpoint first_32 (tries : list (option string)) : option string :=
  match tries with
  | [] => None
  | Some b :: rest =>
      if (String.length b =? 32)%nat then Some b else first_32 rest
  | None :: rest => first_32 rest
  end.

End ApiToken.

End Auth.

(** ** Reading the orders and calls of a run *)

Module Watch.
Import Bot.

Definition is_limit (o : order) : bool :=
  match o_type o with limit => true | market => false end.

Definition limit_orders (os : list order) : list order :=
  List.filter is_limit os.

(** The two shapes of order that the bot builds: a resting quote, and the
    order that closes a position. *)
Definition order_ok (sym size : string) (o : order) : bool :=
  String.eqb (o_symbol o) sym
  && match o_type o with
     | limit =>
         match o_qty o, o_price o, o_tif o, o_reduce_only o with
         | QtyStr s, Some _, gtc, false => String.eqb s size
         | _, _, _, _ => false
         end
     | market =>
         match o_qty o, o_price o, o_tif o, o_reduce_only o with
         | QtyFloat _, None, ioc, true => true
         | _, _, _, _ => false
         end
     end.

(** Events other than a call to one of the five methods of the exchange
    client. The call of an authentication helper is such an event: what
    the helper itself sends (the login of mode 1) is not in the trace. *)
Definition offline (ev : event) : bool :=
  match ev with
  | ECall (Input _) _ => true
  | ECall GetAuthContextPrivateKey _ => true
  | ECall GetAuthContextApiToken _ => true
  | ECall (Sleep _) _ => true
  | ECall _ _ => false
  | _ => true
  end.

(** Events that place no order. *)
Definition places_nothing (ev : event) : bool :=
  match ev with
  | ECall (PlaceOrder _ _ _) _ => false
  | _ => true
  end.

(** Events that place no limit order. *)
Definition no_limit (ev : event) : bool :=
  match ev with
  | ECall (PlaceOrder _ o _) _ => negb (is_limit o)
  | _ => true
  end.

(** Events that cancel and place nothing. *)
Definition passive (ev : event) : bool :=
  match ev with
  | ECall (PlaceOrder _ _ _) _ => false
  | ECall (CancelOrders _ _ _) _ => false
  | _ => true
  end.

(** Events other than a log line above [INFO]. *)
Definition quiet (ev : event) : bool :=
  match ev with
  | ELog INFO _ => true
  | ELog _ _ => false
  | _ => true
  end.

(** Events whose orders all have one of the two shapes. *)
Definition well_formed (sym size : string) (ev : event) : bool :=
  match ev with
  | ECall (PlaceOrder _ o _) _ => order_ok sym size o
  | _ => true
  end.

(** An answer that is a value or an [Exception]. *)
Definition exception_only {A} (r : outcome A) : Prop :=
  match r with
  | inr _ => True
  | inl (Exception _) => True
  | inl _ => False
  end.

(** A world in which nobody interrupts: the client answers or raises an
    [Exception], and [time.sleep] returns. *)
Definition uninterrupted {W} (rt : Runtime W) : Prop :=
  (forall s w, exception_only (fst (query_symbol_price rt s w)))
  /\ (forall k s w, exception_only (fst (query_open_orders rt k s w)))
  /\ (forall k ids a w, exception_only (fst (cancel_orders rt k ids a w)))
  /\ (forall k s w, exception_only (fst (query_positions rt k s w)))
  /\ (forall k o a w, exception_only (fst (place_order rt k o a w)))
  /\ (forall secs w, fst (time_sleep rt secs w) = inr tt).

(** A computation that ends with a value or an [Exception]. *)
Definition mild {W A} (m : M (W := W) A) : Prop :=
  forall w, exception_only (fst (fst (m w))).

End Watch.

(** ** More scripted worlds *)

Module MoreScripts.
Import Bot Scripted.
Local Open Scope list_scope.

(** Every call to the exchange fails. *)
Definition all_failing : script :=
  {| on_price := fun _ => inl (Exception "timeout");
     on_open_orders := fun _ => inl (Exception "timeout");
     on_cancel := fun _ _ => inl (Exception "timeout");
     on_positions := fun _ => inl (Exception "timeout");
     on_place := fun _ _ => inl (Exception "timeout");
     on_sleep := on_sleep calm;
     on_input := on_input calm;
     on_auth := on_auth calm;
     env := env calm |}.

(** The price query fails. *)
Definition price_unavailable : script :=
  {| on_price := fun _ => inl (Exception "timeout");
     on_open_orders := fun _ => inr (orders [11; 12]%Z);
     on_cancel := on_cancel calm;
     on_positions := on_positions short_position;
     on_place := on_place calm;
     on_sleep := on_sleep calm;
     on_input := on_input calm;
     on_auth := on_auth calm;
     env := env calm |}.

(** Two resting orders, and a user who interrupts every cancel call. *)
Definition cancel_interrupted : script :=
  {| on_price := on_price calm;
     on_open_orders := fun _ => inr (orders [11; 12]%Z);
     on_cancel := fun _ ids =>
       if (1 <? List.length ids)%nat then inl (Exception "batch rejected")
       else inl KeyboardInterrupt;
     on_positions := on_positions calm;
     on_place := on_place calm;
     on_sleep := on_sleep calm;
     on_input := on_input calm;
     on_auth := on_auth calm;
     env := env calm |}.

(** The user interrupts the first call; from then on two orders are
    resting, and the exchange refuses any batch cancel. *)
Definition interrupted_refused : script :=
  {| on_price := on_price (interrupted_at 0);
     on_open_orders := on_open_orders (interrupted_at 0);
     on_cancel := fun _ ids =>
       if (1 <? List.length ids)%nat then inl (Exception "batch rejected")
       else inr tt;
     on_positions := on_positions (interrupted_at 0);
     on_place := on_place (interrupted_at 0);
     on_sleep := on_sleep (interrupted_at 0);
     on_input := on_input (interrupted_at 0);
     on_auth := on_auth (interrupted_at 0);
     env := env calm |}.

(** A short position, and an exchange that refuses every market order. *)
Definition close_refused : script :=
  {| on_price := on_price calm;
     on_open_orders := on_open_orders calm;
     on_cancel := on_cancel calm;
     on_positions := on_positions short_position;
     on_place := fun _ o =>
       match o_type o with
       | market => inl (Exception "reduce-only rejected")
       | limit => inr tt
       end;
     on_sleep := on_sleep calm;
     on_input := on_input calm;
     on_auth := on_auth calm;
     env := env calm |}.

(** The second of three open orders comes without an id. *)
Definition id_missing : script :=
  {| on_price := on_price calm;
     on_open_orders := fun _ =>
       inr {| result := Some [ {| id := Some 11%Z |}; {| id := None |};
                               {| id := Some 13%Z |} ] |};
     on_cancel := on_cancel calm;
     on_positions := on_positions calm;
     on_place := on_place calm;
     on_sleep := on_sleep calm;
     on_input := on_input calm;
     on_auth := on_auth calm;
     env := env calm |}.

(** A long position, an entry whose quantity is no number, and a short
    position that comes after it. *)
Definition bad_quantity : script :=
  {| on_price := on_price calm;
     on_open_orders := on_open_orders calm;
     on_cancel := on_cancel calm;
     on_positions := fun _ =>
       inr [ {| symbol := Some "BTC-USD"; qty := Some (Number 0.5) |};
             {| symbol := Some "BTC-USD"; qty := Some (NotNumber "n/a") |};
             {| symbol := Some "BTC-USD"; qty := Some (Number (-2)) |} ];
     on_place := on_place calm;
     on_sleep := on_sleep calm;
     on_input := on_input calm;
     on_auth := on_auth calm;
     env := env calm |}.

(** A decoder of hexadecimal text without white space. *)
Definition hex_digit (c : ascii) : option nat :=
  let n := nat_of_ascii c in
  if ((48 <=? n) && (n <=? 57))%nat then Some (n - 48)%nat
  else if ((97 <=? n) && (n <=? 102))%nat then Some (n - 87)%nat
  else if ((65 <=? n) && (n <=? 70))%nat then Some (n - 55)%nat
  else None.

Fixpoint hex_decode (s : string) : option string :=
  match s with
  | EmptyString => Some EmptyString
  | String a EmptyString => None
  | String a (String b r) =>
      match hex_digit a, hex_digit b, hex_decode r with
      | Some h, Some l, Some bytes =>
          Some (String (ascii_of_nat (16 * h + l)) bytes)
      | _, _, _ => None
      end
  end.

Definition no_decoder (s : string) : option string := None.

(** A 32-byte key, written in hexadecimal. *)
Definition key_hex : string :=
  "000102030405060708090a0b0c0d0e0f101112131415161718191a1b1c1d1e1f".

Definition accept_key (key : string) : outcome signer := inr (Ed25519 key).

(** A wallet library that knows one key, and a login that succeeds. *)
Definition one_wallet (k : string) : outcome string :=
  if String.eqb k "ab12" then inr "0xA11CE"
  else inl (Exception "invalid private key").

Definition login_ok (a : signer) (chain address : string)
  (sign : Auth.sign_func) : outcome string := inr "tok".

Definition login_refused (a : signer) (chain address : string)
  (sign : Auth.sign_func) : outcome string := inl (Exception "401").

(** The user chooses mode 1; the helper is the one of main.py, run on the
    wallet key [key] with the wallet library [one_wallet]. *)
Definition wallet_mode
  (login : signer -> string -> string -> Auth.sign_func -> outcome string)
  (key : option string) : script :=
  {| on_price := on_price calm;
     on_open_orders := on_open_orders calm;
     on_cancel := on_cancel calm;
     on_positions := on_positions calm;
     on_place := on_place calm;
     on_sleep := on_sleep calm;
     on_input := on_input calm;
     on_auth := fun _ =>
       fst (Auth.get_auth_context_private_key one_wallet (Ed25519 "session")
              login key);
     env := env calm |}.

End MoreScripts.

(** * Theorems *)

(** ** Strings and the trading symbol *)

Module SymbolFacts.
Import PyStr Symbol.

Lemma substring_whole (s : string) : substring 0 (String.length s) s = s.
Proof.
  induction s as [|c s IH]; simpl; [reflexivity | now rewrite IH].
Qed.

Lemma substring_skip (p s : string) (n : nat) :
  substring (String.length p) n (p ++ s) = substring 0 n s.
Proof.
  induction p as [|c p IH]; simpl; [reflexivity | exact IH].
Qed.

Lemma string_length_app (p s : string) :
  String.length (p ++ s) = (String.length p + String.length s)%nat.
Proof.
  induction p as [|c p IH]; simpl; [reflexivity | now rewrite IH].
Qed.

Lemma split_at (s : string) : forall n m,
  (n + m = String.length s)%nat ->
  s = substring 0 n s ++ substring n m s.
Proof.
  induction s as [|c s IH]; intros n m H; simpl in H.
  - destruct n, m; simpl; try reflexivity; lia.
  - destruct n as [|n]; simpl.
    + destruct m as [|m]; [lia|]. simpl.
      injection H as H. subst m. now rewrite substring_whole.
    + f_equal. apply IH. lia.
Qed.

Lemma endswith_iff (s suf : string) :
  endswith s suf = true <-> exists p, s = p ++ suf.
Proof.
  unfold endswith. rewrite andb_true_iff, Nat.leb_le, String.eqb_eq. split.
  - intros [Hle Hsub].
    exists (substring 0 (String.length s - String.length suf) s).
    etransitivity; [apply (split_at s (String.length s - String.length suf)
                                     (String.length suf)); lia|].
    now rewrite Hsub.
  - intros [p ->]. rewrite string_length_app. split; [lia|].
    replace (String.length p + String.length suf - String.length suf)%nat
      with (String.length p) by lia.
    rewrite substring_skip. apply substring_whole.
Qed.

Lemma normalize_ends (v : string) : endswith (normalize v) "-USD" = true.
Proof.
  unfold normalize. destruct (endswith v "-USD") eqn:E; simpl.
  - exact E.
  - apply endswith_iff. now exists v.
Qed.

(** C10. The symbol is the upper-cased SYMBOL variable (default BTC): kept
    as it is when it ends in -USD, with -USD appended otherwise; the default
    gives BTC-USD. *)
Theorem current_symbol_spec (env : environ) :
  let v := upper (getenv env "SYMBOL" "BTC") in
  ((exists p, v = p ++ "-USD") -> current_symbol env = v)
  /\ ((~ exists p, v = p ++ "-USD") -> current_symbol env = v ++ "-USD")
  /\ (env "SYMBOL" = None -> current_symbol env = "BTC-USD").
Proof.
  intros v. unfold current_symbol, normalize. fold v. split; [|split].
  - intros H. apply endswith_iff in H. now rewrite H.
  - intros H. destruct (endswith v "-USD") eqn:E; [|reflexivity].
    apply endswith_iff in E. contradiction.
  - intros H. subst v. unfold getenv. now rewrite H.
Qed.

Lemma current_symbol_examples :
  current_symbol (fun _ => Some "eth-usd") = "ETH-USD"
  /\ current_symbol (fun _ => Some "sol") = "SOL-USD"
  /\ current_symbol (fun _ => None) = "BTC-USD".
Proof.
  destruct (current_symbol_spec (fun _ => Some "eth-usd")) as (A & _ & _).
  destruct (current_symbol_spec (fun _ => Some "sol")) as (_ & B & _).
  destruct (current_symbol_spec (fun _ => None)) as (_ & _ & C).
  split; [|split].
  - apply A. now exists "ETH".
  - apply B. intros Hp. apply endswith_iff in Hp. discriminate Hp.
  - now apply C.
Defined.

End SymbolFacts.

(** ** Quotes *)

Module QuoteFacts.
Import Quote.
Local Open Scope float_scope.

(** *** Comparisons of binary64 values *)

Lemma SFcompare_antisym (x y : spec_float) :
  SFcompare y x = option_map CompOpp (SFcompare x y).
Proof.
  destruct x as [sx|sx| |sx mx ex], y as [sy|sy| |sy my ey]; simpl;
    try reflexivity;
    try (destruct sx; reflexivity);
    try (destruct sy; reflexivity);
    try (destruct sx, sy; reflexivity).
  destruct sx, sy; simpl; try reflexivity;
    rewrite (Z.compare_antisym ex ey);
    destruct (ex ?= ey)%Z; simpl; try reflexivity;
    rewrite Pos.compare_cont_antisym; simpl;
    rewrite ?CompOpp_involutive; reflexivity.
Qed.

Lemma leb_not_gt (x y : float) : (x <=? y) = true -> (y <? x) = false.
Proof.
  rewrite leb_spec, ltb_spec. unfold SFleb, SFltb.
  rewrite (SFcompare_antisym (Prim2SF x) (Prim2SF y)).
  destruct (SFcompare (Prim2SF x) (Prim2SF y)) as [[| |]|]; simpl; congruence.
Qed.

Lemma ltb_not_gt (x y : float) : (x <? y) = true -> (y <? x) = false.
Proof.
  rewrite !ltb_spec. unfold SFltb.
  rewrite (SFcompare_antisym (Prim2SF x) (Prim2SF y)).
  destruct (SFcompare (Prim2SF x) (Prim2SF y)) as [[| |]|]; simpl; congruence.
Qed.

(** *** The shape of [format_f] *)

Lemma after_point_app (a b : string) :
  after_point a = None -> after_point (a ++ b) = after_point b.
Proof.
  induction a as [|c a IH]; simpl; [reflexivity|].
  destruct (Ascii.eqb c "."); [discriminate | exact IH].
Qed.

Lemma after_point_uint (d : Decimal.uint) :
  after_point (DecimalString.NilEmpty.string_of_uint d) = None.
Proof.
  induction d; simpl; assumption || reflexivity.
Qed.

Lemma after_point_int_digits (n : Z) : after_point (int_digits n) = None.
Proof.
  unfold int_digits, DecimalString.NilZero.string_of_uint.
  destruct (N.to_uint (Z.to_N n)) eqn:E; try reflexivity;
    rewrite <- E; apply after_point_uint.
Qed.

Lemma length_frac_digits (w : nat) : forall n,
  String.length (frac_digits w n) = w.
Proof.
  induction w as [|w IH]; intros n; simpl; [reflexivity|].
  rewrite SymbolFacts.string_length_app, IH. simpl. lia.
Qed.

Lemma fraction_length_fixed (w : nat) (q : Z) (s : bool) :
  fraction_length (sign_str s ++ fixed (S w) q) = Some (S w).
Proof.
  unfold fraction_length, fixed.
  rewrite after_point_app by (destruct s; reflexivity).
  rewrite after_point_app by apply after_point_int_digits.
  cbn [append after_point Ascii.eqb Bool.eqb option_map].
  now rewrite length_frac_digits.
Qed.

(** A finite value printed with [.Nf], [N > 0], shows exactly [N] digits
    after the point. *)
Lemma fraction_length_format_f (w : nat) (x : float) :
  finite x = true -> fraction_length (format_f (S w) x) = Some (S w).
Proof.
  unfold finite, format_f.
  destruct (Prim2SF x); try discriminate; intros _;
    apply fraction_length_fixed.
Qed.

(** *** Precision and the two scenarios *)

(** C8. The precision is chosen by the mark price alone: below 100 both
    quotes are printed with [.4f], from 100 on with [.2f], and a finite
    quote then shows that many fractional digits; 99.9999 falls on the
    four-digit side and 100.0 on the two-digit side. *)
Theorem precision_by_mark_price (spread_bps mark_price : float) :
  let bid := bid_price spread_bps mark_price in
  let ask := ask_price spread_bps mark_price in
  ((mark_price <? 100) = true ->
     quote_strings spread_bps mark_price = (format_f 4 bid, format_f 4 ask)
     /\ (finite bid = true -> fraction_length (format_f 4 bid) = Some 4%nat)
     /\ (finite ask = true -> fraction_length (format_f 4 ask) = Some 4%nat))
  /\ ((100 <=? mark_price) = true ->
     quote_strings spread_bps mark_price = (format_f 2 bid, format_f 2 ask)
     /\ (finite bid = true -> fraction_length (format_f 2 bid) = Some 2%nat)
     /\ (finite ask = true -> fraction_length (format_f 2 ask) = Some 2%nat))
  /\ quote_strings SPREAD_BPS 99.9999 = ("99.9199", "100.0799")%string
  /\ quote_strings SPREAD_BPS 100 = ("99.92", "100.08")%string.
Proof.
  intros bid ask. split; [|split; [|split]].
  - intros H. unfold quote_strings. rewrite H. fold bid ask.
    split; [reflexivity|]. split; apply fraction_length_format_f.
  - intros H. apply leb_not_gt in H. unfold quote_strings. rewrite H.
    fold bid ask.
    split; [reflexivity|]. split; apply fraction_length_format_f.
  - vm_compute. reflexivity.
  - vm_compute. reflexivity.
Qed.

Lemma precision_examples :
  (quote_strings SPREAD_BPS 0.95
     = (format_f 4 (bid_price SPREAD_BPS 0.95),
        format_f 4 (ask_price SPREAD_BPS 0.95))
   /\ fraction_length (format_f 4 (bid_price SPREAD_BPS 0.95)) = Some 4%nat)
  /\ (quote_strings SPREAD_BPS 30000
     = (format_f 2 (bid_price SPREAD_BPS 30000),
        format_f 2 (ask_price SPREAD_BPS 30000))
   /\ fraction_length (format_f 2 (ask_price SPREAD_BPS 30000)) = Some 2%nat).
Proof.
  destruct (precision_by_mark_price SPREAD_BPS 0.95) as (A & _).
  destruct (precision_by_mark_price SPREAD_BPS 30000) as (_ & B & _).
  split.
  - destruct (A eq_refl) as (A1 & A2 & _). split; [exact A1|].
    apply A2. reflexivity.
  - destruct (B eq_refl) as (B1 & _ & B3). split; [exact B1|].
    apply B3. reflexivity.
Defined.

(** C9. At mark price 30000 and 8 bps the quotes print as 29976.00 and
    30024.00; at 0.95 they print as 0.9492 and 0.9508. *)
Theorem quote_scenarios :
  quote_strings SPREAD_BPS 30000 = ("29976.00", "30024.00")%string
  /\ quote_strings SPREAD_BPS 0.95 = ("0.9492", "0.9508")%string.
Proof.
  split; vm_compute; reflexivity.
Qed.

End QuoteFacts.

(** ** Binary64 rounding of the two quotes *)

Module RoundingFacts.
Import Quote.
Local Open Scope Z_scope.

(** *** The number of bits of a mantissa *)

Lemma digits2_bounds (p : positive) :
  2 ^ (Zpos (digits2_pos p) - 1) <= Zpos p < 2 ^ Zpos (digits2_pos p).
Proof.
  induction p as [p IH|p IH|]; simpl digits2_pos.
  - rewrite Pos2Z.inj_succ.
    replace (Z.succ (Zpos (digits2_pos p)) - 1)
      with (Z.succ (Zpos (digits2_pos p) - 1)) by lia.
    rewrite !Z.pow_succ_r by lia. lia.
  - rewrite Pos2Z.inj_succ.
    replace (Z.succ (Zpos (digits2_pos p)) - 1)
      with (Z.succ (Zpos (digits2_pos p) - 1)) by lia.
    rewrite !Z.pow_succ_r by lia. lia.
  - simpl. lia.
Qed.

Lemma digits2_unique (p : positive) (d : Z) :
  2 ^ (d - 1) <= Zpos p < 2 ^ d -> Zpos (digits2_pos p) = d.
Proof.
  intros [Hlo Hhi]. destruct (digits2_bounds p) as [Blo Bhi].
  assert (0 < d).
  { destruct (Z_lt_le_dec 0 d) as [|Hd]; [assumption|].
    assert (2 ^ d <= 2 ^ 0) by (apply Z.pow_le_mono_r; lia). simpl in *. lia. }
  destruct (Z.lt_trichotomy (Zpos (digits2_pos p)) d) as [L|[E|G]]; [|exact E|].
  - assert (2 ^ Zpos (digits2_pos p) <= 2 ^ (d - 1))
      by (apply Z.pow_le_mono_r; lia).
    lia.
  - assert (2 ^ d <= 2 ^ (Zpos (digits2_pos p) - 1))
      by (apply Z.pow_le_mono_r; lia).
    lia.
Qed.

(** *** Shifting right divides by a power of two *)

Lemma shr_1_m (x : shr_record) : 0 <= shr_m x -> shr_m (shr_1 x) = shr_m x / 2.
Proof.
  destruct x as [m r s]. cbn [shr_m shr_1].
  destruct m as [|[p|p|]|p]; intros H; cbn [shr_m].
  - reflexivity.
  - apply Z.div_unique with (r := 1); lia.
  - apply Z.div_unique with (r := 0); lia.
  - reflexivity.
  - lia.
Qed.

Lemma pow2_xO (p : positive) : 2 ^ Zpos p~0 = 2 ^ Zpos p * 2 ^ Zpos p.
Proof. rewrite <- Z.pow_add_r by lia. f_equal. lia. Qed.

Lemma pow2_xI (p : positive) : 2 ^ Zpos p~1 = 2 * (2 ^ Zpos p * 2 ^ Zpos p).
Proof.
  rewrite <- Z.pow_add_r, <- Z.pow_succ_r by lia. f_equal. lia.
Qed.

Lemma shr_iter_m (p : positive) : forall x,
  0 <= shr_m x -> shr_m (iter_pos shr_1 p x) = shr_m x / 2 ^ Zpos p.
Proof.
  assert (P2 : forall q, 0 < 2 ^ Zpos q) by (intros; apply Z.pow_pos_nonneg; lia).
  induction p as [p IH|p IH|]; intros x H; simpl iter_pos.
  - assert (H1 : 0 <= shr_m (shr_1 x))
      by (rewrite shr_1_m by assumption; apply Z.div_pos; lia).
    assert (H2 : 0 <= shr_m (iter_pos shr_1 p (shr_1 x)))
      by (rewrite IH by assumption; apply Z.div_pos; [lia | apply P2]).
    rewrite IH, IH, shr_1_m by assumption.
    rewrite !Z.div_div by (pose proof (P2 p); lia).
    now rewrite pow2_xI.
  - assert (H2 : 0 <= shr_m (iter_pos shr_1 p x))
      by (rewrite IH by assumption; apply Z.div_pos; [lia | apply P2]).
    rewrite IH, IH by assumption.
    rewrite !Z.div_div by (pose proof (P2 p); lia).
    now rewrite pow2_xO.
  - now rewrite shr_1_m.
Qed.

Lemma round_nearest_even_bounds q l :
  q <= round_nearest_even q l <= q + 1.
Proof.
  destruct l as [|[]]; simpl; try lia. destruct (Z.even q); lia.
Qed.

(** *** Rounding a positive product to 53 bits *)

Lemma fexp_eq (z : Z) : fexp prec emax z = Z.max (z - 53) (-1074).
Proof. reflexivity. Qed.

Lemma shr_fexp_noop (p : positive) (e : Z) :
  Zpos p < 2 ^ 53 -> -1074 <= e ->
  shr_fexp prec emax (Zpos p) e loc_Exact
  = ({| shr_m := Zpos p; shr_r := false; shr_s := false |}, e).
Proof.
  intros Hp He. unfold shr_fexp. rewrite fexp_eq. cbn [Zdigits2 shr_record_of_loc].
  assert (Zpos (digits2_pos p) <= 53).
  { destruct (digits2_bounds p) as [Blo _].
    destruct (Z_le_gt_dec (Zpos (digits2_pos p)) 53) as [|G]; [assumption|].
    assert (2 ^ 53 <= 2 ^ (Zpos (digits2_pos p) - 1))
      by (apply Z.pow_le_mono_r; lia). lia. }
  unfold shr.
  destruct (Z.max (Zpos (digits2_pos p) + e - 53) (-1074) - e) eqn:E;
    try reflexivity. lia.
Qed.

Lemma div_pow2_bounds (a : Z) (k : positive) :
  2 ^ Zpos k * (a / 2 ^ Zpos k) <= a < 2 ^ Zpos k * (a / 2 ^ Zpos k + 1).
Proof.
  assert (0 < 2 ^ Zpos k) by (apply Z.pow_pos_nonneg; lia).
  split; [apply Z.mul_div_le; assumption|].
  apply Z.mul_succ_div_gt. assumption.
Qed.

Lemma round_product (P k : positive) (e : Z) :
  fexp prec emax (Zpos (digits2_pos P) + e) = e + Zpos k ->
  Zpos (digits2_pos P) - 53 <= Zpos k ->
  2 ^ Zpos k <= Zpos P ->
  exists q',
    2 ^ Zpos k * (q' - 1) <= Zpos P < 2 ^ Zpos k * (q' + 1)
    /\ 1 <= q' <= 2 ^ 53
    /\ binary_round_aux prec emax false (Zpos P) e loc_Exact
       = rounded q' (e + Zpos k).
Proof.
  intros Hf Hd Hk.
  assert (P2 : 0 < 2 ^ Zpos k) by (apply Z.pow_pos_nonneg; lia).
  assert (He1 : -1074 <= e + Zpos k) by (rewrite <- Hf, fexp_eq; lia).
  unfold binary_round_aux.
  assert (S1 : shr_fexp prec emax (Zpos P) e loc_Exact
               = (iter_pos shr_1 k {| shr_m := Zpos P; shr_r := false; shr_s := false |},
                  e + Zpos k)).
  { unfold shr_fexp. cbn [Zdigits2]. rewrite Hf.
    replace (e + Zpos k - e) with (Zpos k) by lia. reflexivity. }
  rewrite S1.
  set (x := iter_pos shr_1 k _).
  assert (Hx : shr_m x = Zpos P / 2 ^ Zpos k)
    by (unfold x; rewrite shr_iter_m; [reflexivity | simpl; lia]).
  set (q' := round_nearest_even (shr_m x) (loc_of_shr_record x)).
  assert (Hq' : Zpos P / 2 ^ Zpos k <= q' <= Zpos P / 2 ^ Zpos k + 1)
    by (rewrite <- Hx; apply round_nearest_even_bounds).
  assert (Hlo : 1 <= Zpos P / 2 ^ Zpos k)
    by (apply Z.div_le_lower_bound; lia).
  assert (Hhi : Zpos P / 2 ^ Zpos k < 2 ^ 53).
  { apply Z.div_lt_upper_bound; [exact P2|].
    rewrite <- Z.pow_add_r by lia.
    destruct (digits2_bounds P) as [_ Bhi].
    eapply Z.lt_le_trans; [exact Bhi|]. apply Z.pow_le_mono_r; lia. }
  exists q'. split; [|split; [lia|]].
  { pose proof (div_pow2_bounds (Zpos P) k) as B. nia. }
  unfold rounded. destruct (q' <? 2 ^ 53) eqn:C.
  - apply Z.ltb_lt in C. destruct q' as [|p'|p'] eqn:Eq'; try lia.
    rewrite shr_fexp_noop by assumption. cbn [shr_m].
    reflexivity.
  - apply Z.ltb_ge in C. assert (Eq' : q' = 2 ^ 53) by lia. rewrite Eq'.
    unfold shr_fexp. rewrite fexp_eq.
    replace (Z.max (Zdigits2 (2 ^ 53) + (e + Zpos k) - 53) (-1074) - (e + Zpos k))
      with 1 by (change (Zdigits2 (2 ^ 53)) with 54; lia).
    reflexivity.
Qed.

Local Open Scope float_scope.

(** *** Mark prices in the normal range *)

Lemma normal_shape (x : float) :
  (0x1p-1022 <=? x) = true -> (x <? infinity) = true ->
  exists mx ex,
    Prim2SF x = S754_finite false mx ex
    /\ (2 ^ 52 <= Zpos mx < 2 ^ 53)%Z /\ (-1074 <= ex <= 971)%Z.
Proof.
  rewrite leb_spec, ltb_spec. pose proof (Prim2SF_valid x) as V.
  change (Prim2SF 0x1p-1022)
    with (S754_finite false 4503599627370496 (-1074)).
  change (Prim2SF infinity) with (S754_infinity false).
  destruct (Prim2SF x) as [s|s| |s mx ex].
  1-3: intros H1 H2; try destruct s; try discriminate H1; discriminate H2.
  destruct s; [intros H; discriminate H|].
  unfold SFleb. cbn [SFcompare]. intros Hle _. exists mx, ex.
  split; [reflexivity|].
  cbn [valid_binary] in V. unfold bounded, canonical_mantissa in V.
  apply andb_true_iff in V as [Vc Ve].
  apply Z.eqb_eq in Vc. apply Z.leb_le in Ve.
  rewrite fexp_eq in Vc. change (emax - prec)%Z with 971%Z in Ve.
  destruct (digits2_bounds mx) as [Blo Bhi].
  assert (Hd : Zpos (digits2_pos mx) = 53%Z /\ (-1074 <= ex)%Z).
  { destruct (Z.compare_spec (-1074) ex) as [E|L|G];
      [| lia | discriminate Hle].
    subst ex. split; [|lia].
    assert (H52 : (4503599627370496 <= Zpos mx)%Z).
    { change (Pos.compare_cont Eq 4503599627370496 mx)
        with (Pos.compare 4503599627370496 mx) in Hle.
      destruct (Pos.compare_spec 4503599627370496 mx) as [E|L|G];
        [lia | lia | discriminate Hle]. }
    assert (52 < Zpos (digits2_pos mx))%Z.
    { destruct (Z_lt_le_dec 52 (Zpos (digits2_pos mx))) as [|L];
        [assumption|].
      assert (2 ^ Zpos (digits2_pos mx) <= 2 ^ 52)%Z
        by (apply Z.pow_le_mono_r; lia).
      change (2 ^ 52)%Z with 4503599627370496%Z in *. lia. }
    lia. }
  destruct Hd as [Hd Hex]. rewrite Hd in Blo, Bhi.
  change (53 - 1)%Z with 52%Z in Blo. lia.
Qed.

Ltac pow2 :=
  change (2 ^ 50)%Z with 1125899906842624%Z in *;
  change (2 ^ 54)%Z with 18014398509481984%Z in *;
  change (2 ^ 52)%Z with 4503599627370496%Z in *;
  change (2 ^ 53)%Z with 9007199254740992%Z in *;
  change (2 ^ 104)%Z with 20282409603651670423947251286016%Z in *;
  change (2 ^ 105)%Z with 40564819207303340847894502572032%Z in *;
  change (2 ^ 106)%Z with 81129638414606681695789005144064%Z in *.

(** *** Comparing positive values *)

Lemma SFltb_finite (m1 m2 : positive) (e1 e2 : Z) :
  (e1 < e2 \/ (e1 = e2 /\ Zpos m1 < Zpos m2))%Z ->
  SFltb (S754_finite false m1 e1) (S754_finite false m2 e2) = true.
Proof.
  intros H. unfold SFltb. cbn [SFcompare].
  destruct (Z.compare_spec e1 e2) as [E|L|G]; try reflexivity; try lia.
  destruct H as [H|[_ H]]; [lia|].
  change (Pos.compare_cont Eq m1 m2) with (Pos.compare m1 m2).
  destruct (Pos.compare_spec m1 m2); try reflexivity; lia.
Qed.

Lemma product_digits (mx mc : positive) :
  (2 ^ 52 <= Zpos mx < 2 ^ 53)%Z -> (2 ^ 52 <= Zpos mc < 2 ^ 53)%Z ->
  (Zpos (digits2_pos (mx * mc)) = 105
     /\ 2 ^ 104 <= Zpos (mx * mc) < 2 ^ 105)%Z
  \/ (Zpos (digits2_pos (mx * mc)) = 106
     /\ 2 ^ 105 <= Zpos (mx * mc) < 2 ^ 106)%Z.
Proof.
  intros Hx Hc. pose proof (Pos2Z.inj_mul mx mc) as E.
  assert (2 ^ 104 <= Zpos (mx * mc) < 2 ^ 106)%Z by (pow2; nia).
  destruct (Z_lt_le_dec (Zpos (mx * mc)) (2 ^ 105)) as [L|G];
    [left|right]; (split; [|lia]); apply digits2_unique;
    [change (105 - 1)%Z with 104%Z | change (106 - 1)%Z with 105%Z]; lia.
Qed.



Lemma SFltb_infinity (m : positive) (e : Z) :
  SFltb (S754_finite false m e) (S754_infinity false) = true.
Proof. reflexivity. Qed.

Local Open Scope Z_scope.

(** The bid: the product with [1 - 0.0008], cut at 52 or 53 bits. *)
Lemma bid_rounding (mx : positive) (ex : Z) :
  2 ^ 52 <= Zpos mx < 2 ^ 53 -> -1074 <= ex <= 971 ->
  exists q k,
    ((k = 52 /\ -1074 < ex) \/ (k = 53 /\ q < Zpos mx))
    /\ 2 ^ k * (q - 1) <= Zpos mx * 8999993495337199 < 2 ^ k * (q + 1)
    /\ 1 <= q <= 2 ^ 53
    /\ SF64mul (S754_finite false mx ex)
               (S754_finite false 8999993495337199 (-53))
       = rounded q (ex + -53 + k).
Proof.
  intros Hm He. unfold SF64mul, SFmul. cbn [xorb].
  set (P := (mx * 8999993495337199)%positive).
  assert (HP : Zpos P = Zpos mx * 8999993495337199) by apply Pos2Z.inj_mul.
  assert (Hd := product_digits mx 8999993495337199 Hm ltac:(pow2; lia)).
  fold P in Hd. rewrite <- HP.
  assert (K : (Zpos (digits2_pos P) = 105 /\ -1074 < ex)
              \/ fexp prec emax (Zpos (digits2_pos P) + (ex + -53))
                 = ex + -53 + 53).
  { rewrite fexp_eq. destruct Hd as [[Hd ?]|[Hd ?]]; rewrite Hd; lia. }
  destruct K as [(Hd5 & Hex)|K].
  - destruct (round_product P 52 (ex + -53)) as (q & Hq & Hb & ->).
    + rewrite fexp_eq, Hd5. lia.
    + lia.
    + destruct Hd as [[_ ?]|[_ ?]]; pow2; lia.
    + exists q, 52. split; [left; split; [reflexivity | exact Hex]|].
      split; [exact Hq|]. split; [exact Hb | reflexivity].
  - destruct (round_product P 53 (ex + -53)) as (q & Hq & Hb & ->).
    + exact K.
    + destruct Hd as [[-> ?]|[-> ?]]; lia.
    + destruct Hd as [[_ ?]|[_ ?]]; pow2; lia.
    + exists q, 53. change (Zpos 53) with 53 in *.
      split; [right; split; [reflexivity | pow2; lia]|].
      split; [exact Hq|]. split; [exact Hb | reflexivity].
Qed.

(** The ask: the product with [1 + 0.0008], cut at 52 or 53 bits. *)
Lemma ask_rounding (mx : positive) (ex : Z) :
  2 ^ 52 <= Zpos mx < 2 ^ 53 -> -1074 <= ex <= 971 ->
  exists q k,
    ((k = 52 /\ Zpos mx < q) \/ k = 53)
    /\ 2 ^ k * (q - 1) <= Zpos mx * 4507202507072392 < 2 ^ k * (q + 1)
    /\ 1 <= q <= 2 ^ 53
    /\ SF64mul (S754_finite false mx ex)
               (S754_finite false 4507202507072392 (-52))
       = rounded q (ex + -52 + k).
Proof.
  intros Hm He. unfold SF64mul, SFmul. cbn [xorb].
  set (P := (mx * 4507202507072392)%positive).
  assert (HP : Zpos P = Zpos mx * 4507202507072392) by apply Pos2Z.inj_mul.
  assert (Hd := product_digits mx 4507202507072392 Hm ltac:(pow2; lia)).
  fold P in Hd. rewrite <- HP. destruct Hd as [[Hd HPb]|[Hd HPb]].
  - destruct (round_product P 52 (ex + -52)) as (q & Hq & Hb & ->).
    + rewrite fexp_eq, Hd. lia.
    + lia.
    + pow2; lia.
    + exists q, 52. change (Zpos 52) with 52 in *.
      split; [left; split; [reflexivity | pow2; lia]|].
      split; [exact Hq|]. split; [exact Hb | reflexivity].
  - destruct (round_product P 53 (ex + -52)) as (q & Hq & Hb & ->).
    + rewrite fexp_eq, Hd. lia.
    + lia.
    + pow2; lia.
    + exists q, 53. split; [now right|].
      split; [exact Hq|]. split; [exact Hb | reflexivity].
Qed.

Lemma bid_below (mx : positive) (ex : Z) :
  2 ^ 52 <= Zpos mx < 2 ^ 53 -> -1074 <= ex <= 971 ->
  SFltb (SF64mul (S754_finite false mx ex)
                 (S754_finite false 8999993495337199 (-53)))
        (S754_finite false mx ex) = true.
Proof.
  intros Hm He.
  destruct (bid_rounding mx ex Hm He) as (q & k & Hk & Hq & Hb & ->).
  unfold rounded. destruct Hk as [[-> Hex]|[-> Hlt]].
  - destruct (q <? 2 ^ 53) eqn:C.
    + replace (ex + -53 + 52 <=? 971) with true
        by (symmetry; apply Z.leb_le; lia).
      apply SFltb_finite. lia.
    + apply Z.ltb_ge in C.
      replace (ex + -53 + 52 + 1 <=? 971) with true
        by (symmetry; apply Z.leb_le; lia).
      apply SFltb_finite. right. split; [lia|].
      change (Zpos (2 ^ 52)) with 4503599627370496. pow2. lia.
  - replace (q <? 2 ^ 53) with true by (symmetry; apply Z.ltb_lt; lia).
    replace (ex + -53 + 53 <=? 971) with true
      by (symmetry; apply Z.leb_le; lia).
    apply SFltb_finite. right. split; [lia|]. rewrite Z2Pos.id; lia.
Qed.

Lemma ask_above (mx : positive) (ex : Z) :
  2 ^ 52 <= Zpos mx < 2 ^ 53 -> -1074 <= ex <= 971 ->
  SFltb (S754_finite false mx ex)
        (SF64mul (S754_finite false mx ex)
                 (S754_finite false 4507202507072392 (-52))) = true.
Proof.
  intros Hm He.
  destruct (ask_rounding mx ex Hm He) as (q & k & Hk & Hq & Hb & ->).
  unfold rounded. destruct Hk as [[-> Hlt]| ->].
  - destruct (q <? 2 ^ 53) eqn:C;
      [replace (ex + -52 + 52 <=? 971) with true
         by (symmetry; apply Z.leb_le; lia)
      |destruct (ex + -52 + 52 + 1 <=? 971);
         [|apply SFltb_infinity]];
      apply SFltb_finite; [right|left; lia].
    split; [lia|]. rewrite Z2Pos.id; lia.
  - destruct (q <? 2 ^ 53);
      match goal with
      | |- context [?a <=? 971] => destruct (a <=? 971)
      end;
      try apply SFltb_infinity; apply SFltb_finite; left; lia.
Qed.

(** *** Exact values *)

Local Open Scope Q_scope.

Lemma rounded_value (q e : Z) (m : positive) (e' : Z) :
  (1 <= q <= 2 ^ 53)%Z -> rounded q e = S754_finite false m e' ->
  inject_Z (Zpos m) * (2 # 1) ^ e' == inject_Z q * (2 # 1) ^ e.
Proof.
  intros Hq. unfold rounded. destruct (q <? 2 ^ 53)%Z eqn:C.
  - destruct (e <=? 971)%Z; [|discriminate]. intros [= <- <-].
    rewrite Z2Pos.id by lia. reflexivity.
  - destruct (e + 1 <=? 971)%Z; [|discriminate]. intros [= <- <-].
    apply Z.ltb_ge in C. assert (E : q = (2 ^ 53)%Z) by lia. subst q.
    rewrite Qpower_plus by discriminate.
    change (inject_Z (Zpos (2 ^ 52))) with (4503599627370496 # 1).
    change (inject_Z (2 ^ 53)) with (9007199254740992 # 1).
    change ((2 # 1) ^ 1) with (2 # 1). ring.
Qed.

Lemma rounded_cases (q e : Z) :
  rounded q e = S754_infinity false
  \/ exists m e', rounded q e = S754_finite false m e'.
Proof.
  unfold rounded. destruct (q <? 2 ^ 53)%Z.
  - destruct (e <=? 971)%Z; [right; eauto | now left].
  - destruct (e + 1 <=? 971)%Z; [right; eauto | now left].
Qed.

Lemma scale_pow (q n e : Z) :
  (0 <= n)%Z -> inject_Z q * (2 # 1) ^ (e + n) == inject_Z (q * 2 ^ n) * (2 # 1) ^ e.
Proof.
  intros Hn. rewrite Qpower_plus by discriminate.
  rewrite inject_Z_mult, (Zpower_Qpower 2 n Hn).
  change (inject_Z 2) with (2 # 1). ring.
Qed.

Lemma relative_width (a b m : Z) :
  (0 < m)%Z ->
  (- (10000 * m) <= 2 ^ 50 * (10000 * (a - b) - 16 * m) <= 10000 * m)%Z ->
  Qabs ((inject_Z a - inject_Z b) / inject_Z m - (16 # 10000)) <= 1 # 2 ^ 50.
Proof.
  intros Hm [Hlo Hhi].
  assert (Mpos : 0 < inject_Z m)
    by (change (inject_Z 0 < inject_Z m); rewrite <- Zlt_Qlt; exact Hm).
  rewrite Zle_Qle in Hlo, Hhi.
  unfold Z.sub in Hlo, Hhi.
  repeat first [ rewrite inject_Z_mult in Hlo | rewrite inject_Z_plus in Hlo
               | rewrite inject_Z_opp in Hlo ].
  repeat first [ rewrite inject_Z_mult in Hhi | rewrite inject_Z_plus in Hhi
               | rewrite inject_Z_opp in Hhi ].
  change (inject_Z (2 ^ 50)) with (1125899906842624 # 1) in *.
  change (inject_Z 10000) with (10000 # 1) in *.
  change (inject_Z 16) with (16 # 1) in *.
  change (1 # 2 ^ 50) with (1 # 1125899906842624).
  set (A := inject_Z a) in *. set (B := inject_Z b) in *. set (M := inject_Z m) in *.
  assert (E : (A - B) / M - (16 # 10000) == (A - B - (16 # 10000) * M) / M)
    by (field; lra).
  rewrite E. apply Qabs_Qle_condition. split.
  - apply Qle_shift_div_l; [exact Mpos|]. lra.
  - apply Qle_shift_div_r; [exact Mpos|]. lra.
Qed.

Lemma cancel_unit (a b m u : Q) :
  0 < u -> 0 < m -> (a * u - b * u) / (m * u) == (a - b) / m.
Proof. intros Hu Hm. field. split; lra. Qed.

Local Open Scope float_scope.

(** C7, as the code has it. With the configured 8 bps, for every finite
    mark price in the normal binary64 range the quotes bracket it,
    [bid < mark < ask], where [ask] is infinite if the product overflows;
    and when [ask] is finite the relative width of the exact values is
    within [2^-50] of [0.0016]. *)
Theorem quotes_bracket_mark_price (mark_price : float) :
  (0x1p-1022 <=? mark_price) = true -> (mark_price <? infinity) = true ->
  let bid := bid_price SPREAD_BPS mark_price in
  let ask := ask_price SPREAD_BPS mark_price in
  (bid <? mark_price) = true
  /\ (mark_price <? ask) = true
  /\ ((ask <? infinity) = true ->
      (Qabs ((value ask - value bid) / value mark_price - (16 # 10000))
       <= 1 # 2 ^ 50)%Q).
Proof.
  intros Hlo Hhi bid ask.
  destruct (normal_shape mark_price Hlo Hhi) as (mx & ex & E & Hm & He).
  assert (Eb : Prim2SF bid
               = SF64mul (S754_finite false mx ex)
                         (S754_finite false 8999993495337199 (-53)))
    by (unfold bid, bid_price; rewrite mul_spec, E; reflexivity).
  assert (Ea : Prim2SF ask
               = SF64mul (S754_finite false mx ex)
                         (S754_finite false 4507202507072392 (-52)))
    by (unfold ask, ask_price; rewrite mul_spec, E; reflexivity).
  assert (Hb : (bid <? mark_price) = true)
    by (rewrite ltb_spec, Eb, E; now apply bid_below).
  assert (Ha : (mark_price <? ask) = true)
    by (rewrite ltb_spec, Ea, E; now apply ask_above).
  split; [exact Hb|]. split; [exact Ha|]. intros Hfin.
  destruct (bid_rounding mx ex Hm He) as (qb & kb & Hkb & Hqb & Hbb & Rb).
  destruct (ask_rounding mx ex Hm He) as (qa & ka & Hka & Hqa & Hba & Ra).
  assert (Vb : (value bid == inject_Z qb * (2 # 1) ^ (ex + -53 + kb))%Q).
  { unfold value. rewrite Eb, Rb.
    destruct (rounded_cases qb (ex + -53 + kb)) as [I|(m & e' & F)].
    - exfalso. rewrite ltb_spec, Eb, Rb, I, E in Hb. discriminate Hb.
    - rewrite F. now apply rounded_value. }
  assert (Va : (value ask == inject_Z qa * (2 # 1) ^ (ex + -52 + ka))%Q).
  { unfold value. rewrite Ea, Ra.
    destruct (rounded_cases qa (ex + -52 + ka)) as [I|(m & e' & F)].
    - exfalso. rewrite ltb_spec, Ea, Ra, I in Hfin. discriminate Hfin.
    - rewrite F. now apply rounded_value. }
  assert (Vm : (value mark_price == inject_Z (Zpos mx) * (2 # 1) ^ ex)%Q)
    by (unfold value; rewrite E; reflexivity).
  assert (Kb : (0 <= kb)%Z) by (destruct Hkb as [[-> _]|[-> _]]; lia).
  assert (Ka : (0 <= ka)%Z) by (destruct Hka as [[-> _]| ->]; lia).
  pose proof (scale_pow qb kb (ex + -53) Kb) as Sb.
  pose proof (scale_pow qa (ka + 1) (ex + -53) ltac:(lia)) as Sa.
  pose proof (scale_pow (Zpos mx) 53 (ex + -53) ltac:(lia)) as Sm.
  replace (ex + -53 + (ka + 1))%Z with (ex + -52 + ka)%Z in Sa by lia.
  replace (ex + -53 + 53)%Z with ex in Sm by lia.
  rewrite Va, Vb, Vm, Sa, Sb, Sm.
  assert (Mpos : (0 < Zpos mx * 2 ^ 53)%Z) by (pow2; lia).
  rewrite cancel_unit.
  - apply relative_width; [exact Mpos|].
    destruct Hkb as [[-> _]|[-> _]], Hka as [[-> _]| ->];
      change (52 + 1)%Z with 53%Z; change (53 + 1)%Z with 54%Z;
      pow2; lia.
  - apply Qpower_0_lt. reflexivity.
  - change (inject_Z 0 < inject_Z (Zpos mx * 2 ^ 53))%Q.
    rewrite <- Zlt_Qlt. exact Mpos.
Qed.

Lemma bracket_example :
  (bid_price SPREAD_BPS 30000 <? 30000) = true
  /\ (30000 <? ask_price SPREAD_BPS 30000) = true
  /\ (Qabs ((value (ask_price SPREAD_BPS 30000)
             - value (bid_price SPREAD_BPS 30000)) / value 30000
            - (16 # 10000))
      <= 1 # 2 ^ 50)%Q.
Proof.
  destruct (quotes_bracket_mark_price 30000 eq_refl eq_refl) as (A & B & C).
  split; [exact A|]. split; [exact B|]. exact (C eq_refl).
Defined.

(** C7 fails as stated: the smallest positive mark price is its own bid,
    an infinite one has infinite quotes, and a spread too small to change
    [1 - factor] leaves the bid at the mark price. *)
Lemma positive_mark_price_not_bracketed :
  ((0 <? 0x1p-1074) = true
   /\ bid_price SPREAD_BPS 0x1p-1074 = 0x1p-1074
   /\ (bid_price SPREAD_BPS 0x1p-1074 <? 0x1p-1074) = false)
  /\ ((0 <? infinity) = true
      /\ (bid_price SPREAD_BPS infinity <? infinity) = false
      /\ (infinity <? ask_price SPREAD_BPS infinity) = false)
  /\ ((0 <? 0x1p-60) = true
      /\ (bid_price 0x1p-60 1 <? 1) = false).
Proof.
  repeat split; vm_compute; reflexivity.
Qed.

End RoundingFacts.

(** ** The bot *)

Module BotFacts.
Import Bot.
Local Open Scope list_scope.
Local Open Scope bot_scope.

(** *** Running the combinators *)

Section Combinators.
Context {W : Type}.
Implicit Types w : W.
Local Abbreviation Mw := (M (W := W)).

Lemma bind_inv {A B} (m : Mw A) (f : A -> Mw B) w r w' t :
  bind m f w = (r, w', t) ->
  (exists e, m w = (inl e, w', t) /\ r = inl e)
  \/ (exists a w1 t1 t2,
        m w = (inr a, w1, t1) /\ f a w1 = (r, w', t2) /\ t = t1 ++ t2).
Proof.
  unfold bind. destruct (m w) as [[[e|a] w1] t1].
  - intros [= <- <- <-]. left. now exists e.
  - destruct (f a w1) as [[r2 w2] t2] eqn:E. intros [= <- <- <-].
    right. now exists a, w1, t1, t2.
Qed.

Lemma contained_log l m : contained (W := W) (log l m).
Proof. intros w msg. discriminate. Qed.

Lemma contained_try_except {A} (body : Mw A) (h : string -> Mw A) :
  (forall msg, contained (h msg)) -> contained (try_except body h).
Proof.
  intros H w msg. unfold try_except.
  destruct (body w) as [[[[m| |m]|a] w1] t1]; simpl; try discriminate.
  specialize (H m w1 msg). destruct (h m w1) as [[r2 w2] t2]. exact H.
Qed.

Lemma contained_ret {A} (a : A) : contained (W := W) (ret a).
Proof. intros w msg. discriminate. Qed.

Lemma contained_bind {A B} (m : Mw A) (f : A -> Mw B) :
  contained m -> (forall a, contained (f a)) -> contained (bind m f).
Proof.
  intros Hm Hf w msg. unfold bind. specialize (Hm w msg).
  destruct (m w) as [[[e|a] w1] t1]; simpl in *; [congruence|].
  specialize (Hf a w1 msg). destruct (f a w1) as [[r2 w2] t2]. exact Hf.
Qed.

Lemma contained_for_each {A} (f : A -> Mw unit) (l : list A) :
  (forall x, contained (f x)) -> contained (for_each f l).
Proof.
  intros H. induction l as [|x l IH]; simpl.
  - apply contained_ret.
  - apply contained_bind; [apply H | intros _; exact IH].
Qed.

(** **** Traces whose events all satisfy a test *)

Lemma only_ret {A} P (a : A) : only (W := W) P (ret a).
Proof. intros w. reflexivity. Qed.

Lemma only_emit P ev : P ev = true -> only (W := W) P (emit ev).
Proof. intros H w. simpl. now rewrite H. Qed.

Lemma only_log P l m : P (ELog l m) = true -> only (W := W) P (log l m).
Proof. apply only_emit. Qed.

Lemma only_raise {A} P e :
  P (ERaise e) = true -> only (W := W) P (raise (A := A) e).
Proof. intros H w. simpl. now rewrite H. Qed.

Lemma only_invoke {A} P c (f : W -> outcome A * W) :
  (forall r, P (ECall c r) = true) -> only P (invoke c f).
Proof.
  intros H w. unfold invoke. destruct (f w) as [r w1]. simpl. now rewrite H.
Qed.

Lemma only_bind {A B} P (m : Mw A) (f : A -> Mw B) :
  only P m -> (forall a, only P (f a)) -> only P (bind m f).
Proof.
  intros Hm Hf w. unfold bind. specialize (Hm w).
  destruct (m w) as [[[e|a] w1] t1]; simpl in *; [exact Hm|].
  specialize (Hf a w1). destruct (f a w1) as [[r2 w2] t2]; simpl in *.
  rewrite forallb_app, Hm, Hf. reflexivity.
Qed.

Lemma only_try_except {A} P (body : Mw A) (h : string -> Mw A) :
  only P body -> (forall msg, only P (h msg)) -> only P (try_except body h).
Proof.
  intros Hb Hh w. unfold try_except. specialize (Hb w).
  destruct (body w) as [[[[m| |m]|a] w1] t1]; simpl in *; try exact Hb.
  specialize (Hh m w1). destruct (h m w1) as [[r2 w2] t2]; simpl in *.
  rewrite forallb_app, Hb, Hh. reflexivity.
Qed.

Lemma only_for_each {A} P (f : A -> Mw unit) (l : list A) :
  (forall x, only P (f x)) -> only P (for_each f l).
Proof.
  intros H. induction l as [|x l IH]; simpl.
  - apply only_ret.
  - apply only_bind; [apply H | intros _; exact IH].
Qed.

Lemma only_comprehension {A B} P (f : A -> Mw B) (l : list A) :
  (forall x, only P (f x)) -> only P (comprehension f l).
Proof.
  intros H. induction l as [|x l IH]; simpl.
  - apply only_ret.
  - apply only_bind; [apply H | intros y].
    apply only_bind; [exact IH | intros ys; apply only_ret].
Qed.

Lemma only_subscript {A} P key (v : option A) :
  (forall e, P (ERaise e) = true) -> only (W := W) P (subscript key v).
Proof.
  intros H. destruct v; simpl; [apply only_ret | apply only_raise, H].
Qed.

Lemma only_to_float P v :
  (forall e, P (ERaise e) = true) -> only (W := W) P (to_float v).
Proof.
  intros H. destruct v; simpl; [apply only_ret | apply only_raise, H].
Qed.

(** **** Errors and the log lines that report them *)

Lemma reported_not_error ev msg : reports ev msg = true -> error_of ev = None.
Proof.
  unfold reports. destruct ev as [c [e|]|e|l m| |]; simpl; try discriminate.
  reflexivity.
Qed.

Lemma errors_logged_app (t1 t2 : trace) :
  errors_logged t1 = true -> errors_logged t2 = true ->
  errors_logged (t1 ++ t2) = true.
Proof.
  intros H1 H2. induction t1 as [|ev t1 IH]; simpl in *; [exact H2|].
  apply andb_true_iff in H1 as [Hev Ht1].
  rewrite (IH Ht1), andb_true_r.
  destruct (error_of ev); [|reflexivity].
  destruct t1 as [|next t1]; [discriminate | exact Hev].
Qed.

Lemma errors_logged_pending (t0 : trace) ev msg next rest :
  errors_logged t0 = true -> error_of ev = Some msg ->
  reports next msg = true -> errors_logged (next :: rest) = true ->
  errors_logged ((t0 ++ [ev]) ++ next :: rest) = true.
Proof.
  intros H0 Hev Hnext Hrest. rewrite <- app_assoc.
  apply errors_logged_app; [exact H0|].
  change ([ev] ++ next :: rest) with (ev :: next :: rest).
  cbn [errors_logged] in *. rewrite Hev, Hnext. exact Hrest.
Qed.

Lemma tidy_ret {A} (a : A) : tidy (W := W) (ret a).
Proof. intros w. reflexivity. Qed.

Lemma tidy_emit ev : error_of ev = None -> tidy (W := W) (emit ev).
Proof. intros H w. simpl. now rewrite H. Qed.

Lemma tidy_log l m : tidy (W := W) (log l m).
Proof. now apply tidy_emit. Qed.

Lemma tidy_raise {A} e : tidy (W := W) (raise (A := A) e).
Proof.
  intros w. destruct e as [msg| |msg]; simpl; try reflexivity.
  now exists [], (ERaise (Exception msg)).
Qed.

Lemma tidy_invoke {A} c (f : W -> outcome A * W) : tidy (invoke c f).
Proof.
  intros w. unfold invoke. destruct (f w) as [[[msg| |msg]|a] w1]; simpl;
    try reflexivity.
  now exists [], (ECall c (Some (Exception msg))).
Qed.

Lemma settled_app {A} (r : outcome A) (t1 t2 : trace) :
  errors_logged t1 = true -> settled r t2 -> settled r (t1 ++ t2).
Proof.
  intros H1 H2. destruct r as [[msg| |msg]|a]; simpl in *;
    try (now apply errors_logged_app).
  destruct H2 as (t0 & ev & -> & Hev & H0).
  exists (t1 ++ t0), ev. rewrite app_assoc.
  repeat split; [exact Hev | now apply errors_logged_app].
Qed.

Lemma tidy_bind {A B} (m : Mw A) (f : A -> Mw B) :
  tidy m -> (forall a, tidy (f a)) -> tidy (bind m f).
Proof.
  intros Hm Hf w. unfold bind. specialize (Hm w).
  destruct (m w) as [[[e|a] w1] t1]; simpl in *; [exact Hm|].
  specialize (Hf a w1). destruct (f a w1) as [[r2 w2] t2]; simpl in *.
  now apply settled_app.
Qed.

Lemma settled_handled {A} (r : outcome A) (t0 : trace) ev msg next rest :
  errors_logged t0 = true -> error_of ev = Some msg ->
  reports next msg = true -> settled r (next :: rest) ->
  settled r ((t0 ++ [ev]) ++ next :: rest).
Proof.
  intros H0 Hev Hnext Hr.
  assert (Hn : error_of next = None) by now apply reported_not_error in Hnext.
  destruct r as [[msg'| |msg']|a]; simpl in *;
    try (now apply (errors_logged_pending t0 ev msg)).
  destruct Hr as (t0' & ev' & E & Hev' & H0').
  destruct t0' as [|x t0']; simpl in E.
  - injection E as -> _. congruence.
  - injection E as <- ->.
    exists ((t0 ++ [ev]) ++ next :: t0'), ev'. repeat split.
    + now rewrite <- !app_assoc.
    + exact Hev'.
    + now apply (errors_logged_pending t0 ev msg).
Qed.

Lemma tidy_try_except {A} (body : Mw A) (h : string -> Mw A) :
  tidy body -> (forall msg, reporting msg (h msg) /\ tidy (h msg)) ->
  tidy (try_except body h).
Proof.
  intros Hb Hh w. unfold try_except. specialize (Hb w).
  destruct (body w) as [[[[m| |m]|a] w1] t1]; simpl in *; try exact Hb.
  destruct Hb as (t0 & ev & -> & Hev & H0).
  destruct (Hh m) as [Hrep Htidy].
  specialize (Hrep w1). specialize (Htidy w1).
  destruct (h m w1) as [[r2 w2] t2]; simpl in *.
  destruct Hrep as (next & rest & -> & Hnext).
  now apply (settled_handled r2 t0 ev m).
Qed.

Lemma reporting_log {A} msg l m (k : Mw A) :
  reports (ELog l m) msg = true -> reporting msg (log l m ;; k).
Proof.
  intros H w. unfold bind, log, emit.
  destruct (k w) as [[r2 w2] t2]. simpl. now exists (ELog l m), t2.
Qed.

Lemma reporting_log_only msg l m :
  reports (ELog l m) msg = true -> reporting (W := W) msg (log l m).
Proof.
  intros H w. now exists (ELog l m), [].
Qed.

Lemma tidy_for_each {A} (f : A -> Mw unit) (l : list A) :
  (forall x, tidy (f x)) -> tidy (for_each f l).
Proof.
  intros H. induction l as [|x l IH]; simpl.
  - apply tidy_ret.
  - apply tidy_bind; [apply H | intros _; exact IH].
Qed.

Lemma tidy_comprehension {A B} (f : A -> Mw B) (l : list A) :
  (forall x, tidy (f x)) -> tidy (comprehension f l).
Proof.
  intros H. induction l as [|x l IH]; simpl.
  - apply tidy_ret.
  - apply tidy_bind; [apply H | intros y].
    apply tidy_bind; [exact IH | intros ys; apply tidy_ret].
Qed.

Lemma tidy_subscript {A} key (v : option A) : tidy (W := W) (subscript key v).
Proof. destruct v; simpl; [apply tidy_ret | apply tidy_raise]. Qed.

Lemma tidy_to_float v : tidy (W := W) (to_float v).
Proof. destruct v; simpl; [apply tidy_ret | apply tidy_raise]. Qed.

End Combinators.

(** *** Invariants of the steps *)

Create HintDb tidy.
Create HintDb only.

Ltac tidy_step :=
  first
    [ apply tidy_ret | apply tidy_log | apply tidy_invoke | apply tidy_raise
    | apply tidy_subscript | apply tidy_to_float
    | solve [auto with tidy]
    | apply tidy_bind; [|intros ?]
    | apply tidy_try_except;
      [|intros ?; split;
        [first [apply reporting_log | apply reporting_log_only];
         apply String.eqb_refl|]]
    | apply tidy_for_each; intros ?
    | apply tidy_comprehension; intros ?
    | match goal with
      | |- tidy (if ?b then _ else _) => destruct b
      | |- tidy (let (_, _) := ?p in _) => destruct p
      end ].

Ltac only_step :=
  first
    [ apply only_ret | apply only_log; reflexivity
    | apply only_emit; reflexivity
    | apply only_invoke; intros ?; reflexivity
    | apply only_raise; reflexivity
    | apply only_subscript; intros ?; reflexivity
    | apply only_to_float; intros ?; reflexivity
    | solve [auto with only]
    | apply only_bind; [|intros ?]
    | apply only_try_except; [|intros ?]
    | apply only_for_each; intros ?
    | apply only_comprehension; intros ?
    | match goal with
      | |- only _ (if ?b then _ else _) => destruct b
      | |- only _ (let (_, _) := ?p in _) => destruct p
      end ].

Section Steps.
Context {W : Type} (rt : Runtime W).
Variable ctx : context.
Variable current_symbol current_order_size : string.

Lemma tidy_cancel_one oid : tidy (cancel_one rt ctx oid).
Proof. unfold cancel_one, cancel_call. repeat tidy_step. Qed.
#[local] Hint Resolve tidy_cancel_one : tidy.

Lemma tidy_cancel_batch ids : tidy (cancel_batch rt ctx ids).
Proof. unfold cancel_batch, cancel_call. repeat tidy_step. Qed.
#[local] Hint Resolve tidy_cancel_batch : tidy.

Lemma tidy_cancel_open_orders : tidy (cancel_open_orders rt ctx current_symbol).
Proof.
  unfold cancel_open_orders, open_orders_call, order_ids. repeat tidy_step.
Qed.
#[local] Hint Resolve tidy_cancel_open_orders : tidy.

Lemma contained_cancel_open_orders :
  contained (cancel_open_orders rt ctx current_symbol).
Proof.
  apply contained_try_except. intros msg. apply contained_log.
Qed.

Lemma tidy_check_position h pos :
  tidy (check_position rt ctx current_symbol h pos).
Proof. unfold check_position, place_call. repeat tidy_step. Qed.
#[local] Hint Resolve tidy_check_position : tidy.

Lemma tidy_check_positions ps :
  forall h, tidy (check_positions rt ctx current_symbol h ps).
Proof.
  induction ps as [|pos ps IH]; intros h; simpl; repeat tidy_step.
Qed.
#[local] Hint Resolve tidy_check_positions : tidy.

Lemma tidy_flatten_positions : tidy (flatten_positions rt ctx current_symbol).
Proof. unfold flatten_positions. repeat tidy_step. Qed.
#[local] Hint Resolve tidy_flatten_positions : tidy.

Lemma contained_flatten_positions :
  contained (flatten_positions rt ctx current_symbol).
Proof.
  apply contained_try_except. intros msg. apply contained_log.
Qed.

Lemma tidy_fetch_quotes : tidy (fetch_quotes rt current_symbol).
Proof. unfold fetch_quotes. repeat tidy_step. Qed.
#[local] Hint Resolve tidy_fetch_quotes : tidy.

Lemma tidy_prepare : tidy (prepare rt ctx current_symbol).
Proof. unfold prepare. repeat tidy_step. Qed.
#[local] Hint Resolve tidy_prepare : tidy.

Lemma tidy_place_new_orders bid ask :
  tidy (place_new_orders rt ctx current_symbol current_order_size bid ask).
Proof. unfold place_new_orders, place_call. repeat tidy_step. Qed.
#[local] Hint Resolve tidy_place_new_orders : tidy.

Lemma tidy_tick : tidy (tick rt ctx current_symbol current_order_size).
Proof. unfold tick, sleep. repeat tidy_step. Qed.
#[local] Hint Resolve tidy_tick : tidy.

Lemma tidy_iteration :
  tidy (iteration rt ctx current_symbol current_order_size).
Proof. unfold iteration, sleep. repeat tidy_step. Qed.
#[local] Hint Resolve tidy_iteration : tidy.

Lemma tidy_trading_loop fuel :
  tidy (trading_loop rt ctx current_symbol current_order_size fuel).
Proof.
  induction fuel as [|n IH]; simpl; repeat tidy_step.
Qed.

(** *** The cancel pass (step 3) *)

Lemma cancelled_app (t1 t2 : trace) :
  cancelled (t1 ++ t2) = cancelled t1 ++ cancelled t2.
Proof.
  induction t1 as [|ev t1 IH]; simpl; [reflexivity|].
  destruct ev as [[] ?| | | |]; simpl; now rewrite IH.
Qed.

Lemma order_ids_all (rl : list order_rec) : forall (ids : list order_id) (w : W),
  map id rl = map Some ids -> order_ids rl w = (inr ids, w, []).
Proof.
  unfold order_ids.
  induction rl as [|o rl IH]; intros [|i ids] w H; simpl in H; try discriminate.
  - reflexivity.
  - injection H as Ho Hrl. simpl. unfold bind at 1. rewrite Ho. simpl.
    unfold bind at 1. rewrite (IH ids w Hrl). reflexivity.
Qed.

Lemma cancel_one_cancelled oid (w : W) :
  cancelled (snd (cancel_one rt ctx oid w)) = [[oid]].
Proof.
  unfold cancel_one, try_except, bind, cancel_call, invoke, log, emit.
  destruct (cancel_orders rt (token ctx) [oid] (auth ctx) w)
    as [[[m| |m]|[]] w1]; reflexivity.
Qed.

Lemma for_each_cancel_one_cancelled ids : forall (w w' : W) t,
  for_each (cancel_one rt ctx) ids w = (inr tt, w', t) ->
  cancelled t = map (fun oid => [oid]) ids.
Proof.
  induction ids as [|oid ids IH]; intros w w' t H; simpl in H.
  - injection H as _ <-. reflexivity.
  - apply bind_inv in H.
    destruct H as [(e & _ & He)|(a & w1 & t1 & t2 & H1 & H2 & ->)];
      [discriminate|].
    rewrite cancelled_app, (IH _ _ _ H2).
    pose proof (cancel_one_cancelled oid w) as C. rewrite H1 in C.
    simpl in C. now rewrite C.
Qed.

(** C6. The cancel pass never hands an error to its caller, every error
    inside it is logged, and when the batch cancel fails each id is
    cancelled on its own: a pass that returns has tried every id, whatever
    the single cancels answered. *)
Theorem cancel_pass_never_raises (w : W) r w' t :
  cancel_open_orders rt ctx current_symbol w = (r, w', t) ->
  (forall msg, r <> inl (Exception msg))
  /\ errors_logged t = true
  /\ (forall oo w1 rl ids msg w2,
        query_open_orders rt (token ctx) current_symbol w = (inr oo, w1) ->
        result oo = Some rl -> map id rl = map Some ids -> ids <> [] ->
        cancel_orders rt (token ctx) ids (auth ctx) w1
          = (inl (Exception msg), w2) ->
        r = inr tt ->
        cancelled t = ids :: map (fun oid => [oid]) ids).
Proof.
  intros H.
  assert (Hc : forall msg, r <> inl (Exception msg)).
  { intros msg. pose proof (contained_cancel_open_orders w msg) as C.
    now rewrite H in C. }
  split; [exact Hc|]. split.
  - pose proof (tidy_cancel_open_orders w) as T. rewrite H in T. simpl in T.
    destruct r as [[msg| |msg]|a]; try exact T. now destruct (Hc msg).
  - intros oo w1 rl ids msg w2 Hq Hres Hids Hne Hbatch ->.
    revert H. unfold cancel_open_orders, try_except, open_orders_call.
    unfold bind at 1. unfold invoke at 1. rewrite Hq, Hres. simpl.
    assert (Hlen : (0 <? List.length rl)%nat = true).
    { apply Nat.ltb_lt. destruct rl; [destruct ids; [easy|discriminate]|].
      simpl. lia. }
    rewrite Hlen. unfold bind at 1. unfold log at 1, emit at 1.
    unfold bind at 1. rewrite (order_ids_all rl ids w1 Hids).
    assert (Hn : nonempty ids = true) by (destruct ids; easy).
    rewrite Hn. unfold cancel_batch, try_except, cancel_call.
    unfold bind at 1. unfold invoke at 1. rewrite Hbatch.
    unfold bind at 1. unfold log at 1, emit at 1.
    destruct (for_each (cancel_one rt ctx) ids w2) as [[r3 w3] t3] eqn:E.
    assert (C : contained (for_each (cancel_one rt ctx) ids)).
    { apply contained_for_each. intros oid.
      apply contained_try_except. intros e. apply contained_log. }
    destruct r3 as [[m| |m]|[]]; simpl; intros E'; try discriminate E'.
    + specialize (C w2 m). rewrite E in C. now destruct C.
    + injection E' as <- <-.
      apply for_each_cancel_one_cancelled in E. simpl. now rewrite E.
Qed.

(** *** Flattening the inventory (step 4) *)

Lemma placed_app (t1 t2 : trace) : placed (t1 ++ t2) = placed t1 ++ placed t2.
Proof.
  induction t1 as [|ev t1 IH]; simpl; [reflexivity|].
  destruct ev as [[] ?| | | |]; simpl; now rewrite IH.
Qed.

Lemma check_position_placed h pos (w : W) r w' t :
  convertible current_symbol [pos] = true ->
  check_position rt ctx current_symbol h pos w = (r, w', t) ->
  (forall msg, r <> inl (Exception msg))
  /\ (forall h', r = inr h' ->
        placed t = map (close_order current_symbol)
                       (to_close current_symbol [pos])).
Proof.
  unfold convertible, to_close, check_position, quantity. simpl.
  destruct (symbol_is pos current_symbol); simpl.
  2:{ intros _ [= <- _ <-]. split; [discriminate | reflexivity]. }
  destruct (get (qty pos) (Number 0)) as [q|raw]; [intros _ | discriminate].
  unfold bind at 1. simpl.
  destruct (q =? 0)%float; simpl.
  { intros [= <- _ <-]. split; [discriminate | reflexivity]. }
  unfold bind, log, emit, try_except, place_call, invoke. simpl.
  destruct (place_order rt (token ctx) (close_order current_symbol q)
              (auth ctx) w) as [[[m| |m]|[]] w1]; simpl;
    intros [= <- _ <-]; (split; [discriminate|]); intros h' E;
    try discriminate E; reflexivity.
Qed.

Lemma check_positions_placed ps : forall h (w : W) r w' t,
  convertible current_symbol ps = true ->
  check_positions rt ctx current_symbol h ps w = (r, w', t) ->
  (forall msg, r <> inl (Exception msg))
  /\ (forall h', r = inr h' ->
        placed t = map (close_order current_symbol)
                       (to_close current_symbol ps)).
Proof.
  induction ps as [|pos ps IH]; intros h w r w' t Hc H; simpl in H.
  - injection H as <- _ <-. split; [discriminate | reflexivity].
  - assert (Hp' : convertible current_symbol [pos] = true
                   /\ convertible current_symbol ps = true).
    { unfold convertible in *. simpl in *.
      apply andb_true_iff in Hc as [Hp Hps]. now rewrite Hp, Hps. }
    destruct Hp' as [Hp' Hps].
    apply bind_inv in H.
    destruct H as [(e & H1 & ->)|(a & w1 & t1 & t2 & H1 & H2 & ->)].
    + destruct (check_position_placed _ _ _ _ _ _ Hp' H1) as [Hn _].
      split; [exact Hn | discriminate].
    + destruct (check_position_placed _ _ _ _ _ _ Hp' H1) as [_ Hpl].
      destruct (IH _ _ _ _ _ Hps H2) as [Hn Hrest].
      split; [exact Hn|]. intros h' ->.
      rewrite placed_app, (Hpl a eq_refl), (Hrest h' eq_refl).
      rewrite <- map_app. f_equal.
      unfold to_close. simpl. now rewrite app_nil_r.
Qed.

Lemma check_position_world h pos (w : W) h' w' t :
  convertible current_symbol [pos] = true ->
  check_position rt ctx current_symbol h pos w = (inr h', w', t) ->
  w' = after_orders rt ctx
         (map (close_order current_symbol) (to_close current_symbol [pos])) w.
Proof.
  unfold convertible, to_close, check_position, quantity, after_orders. simpl.
  destruct (symbol_is pos current_symbol); simpl.
  2:{ intros _ [= _ <- _]. reflexivity. }
  destruct (get (qty pos) (Number 0)) as [q|raw]; [intros _ | discriminate].
  unfold bind at 1. simpl.
  destruct (q =? 0)%float; simpl.
  { intros [= _ <- _]. reflexivity. }
  unfold bind, log, emit, try_except, place_call, invoke. simpl.
  destruct (place_order rt (token ctx) (close_order current_symbol q)
              (auth ctx) w) as [[[m| |m]|[]] w1]; simpl;
    intros E; try discriminate E; now injection E as _ <- _.
Qed.

Lemma check_positions_world ps : forall h (w : W) h' w' t,
  convertible current_symbol ps = true ->
  check_positions rt ctx current_symbol h ps w = (inr h', w', t) ->
  w' = after_orders rt ctx
         (map (close_order current_symbol) (to_close current_symbol ps)) w.
Proof.
  induction ps as [|pos ps IH]; intros h w h' w' t Hc H; simpl in H.
  - now injection H as _ <- _.
  - assert (Hp' : convertible current_symbol [pos] = true
                   /\ convertible current_symbol ps = true).
    { unfold convertible in *. simpl in *.
      apply andb_true_iff in Hc as [Hp Hps]. now rewrite Hp, Hps. }
    destruct Hp' as [Hp' Hps].
    apply bind_inv in H.
    destruct H as [(e & _ & E)|(a & w1 & t1 & t2 & H1 & H2 & ->)];
      [discriminate E|].
    rewrite (IH _ _ _ _ _ Hps H2), (check_position_world _ _ _ _ _ _ Hp' H1).
    unfold after_orders. rewrite <- fold_left_app, <- map_app. f_equal.
    f_equal. unfold to_close. simpl. now rewrite app_nil_r.
Qed.

(** C5. When the positions listing is processed, the reduce-only
    immediate-or-cancel market orders sent are exactly those for the
    entries of the symbol whose quantity is not zero, in order; each has
    size [abs qty], and sells a positive quantity and buys a negative one.
    Sent means handed to [place_order]: the world the step leaves is the
    one reached by these calls, made one after the other, after the
    positions query. *)
Theorem flatten_orders (w : W) ps w1 w' t :
  query_positions rt (token ctx) current_symbol w = (inr ps, w1) ->
  convertible current_symbol ps = true ->
  flatten_positions rt ctx current_symbol w = (inr tt, w', t) ->
  placed t = map (close_order current_symbol) (to_close current_symbol ps)
  /\ w' = after_orders rt ctx
            (map (close_order current_symbol) (to_close current_symbol ps))
            w1
  /\ (forall q,
        In q (to_close current_symbol ps) <->
        exists pos,
          In pos ps /\ symbol_is pos current_symbol = true
          /\ quantity pos = Some q /\ (q =? 0)%float = false)
  /\ (forall q,
        let o := close_order current_symbol q in
        o_type o = market /\ o_tif o = ioc /\ o_reduce_only o = true
        /\ o_price o = None /\ o_qty o = QtyFloat (abs q)
        /\ ((0 <? q)%float = true -> o_side o = sell)
        /\ ((q <? 0)%float = true -> o_side o = buy)).
Proof.
  intros Hq Hc H.
  assert (R : placed t = map (close_order current_symbol)
                             (to_close current_symbol ps)
              /\ w' = after_orders rt ctx
                        (map (close_order current_symbol)
                             (to_close current_symbol ps)) w1).
  { revert H. unfold flatten_positions, try_except.
    unfold bind at 1. unfold invoke at 1. rewrite Hq.
    unfold bind at 1.
    destruct (check_positions rt ctx current_symbol false ps w1)
      as [[r2 w2] t2] eqn:E.
    destruct (check_positions_placed _ _ _ _ _ _ Hc E) as [Hn Hpl].
    destruct r2 as [[m| |m]|h']; simpl; intros E'; try discriminate E'.
    + now destruct (Hn m).
    + injection E' as <- <-. split.
      * simpl. rewrite placed_app, app_nil_r. exact (Hpl h' eq_refl).
      * exact (check_positions_world _ _ _ _ _ _ Hc E). }
  split; [exact (proj1 R)|]. split; [exact (proj2 R)|]. split.
  - intros q. unfold to_close. rewrite in_flat_map. split.
    + intros (pos & Hin & Hq'). exists pos. split; [exact Hin|].
      destruct (symbol_is pos current_symbol); [|destruct Hq'].
      destruct (quantity pos) as [q'|]; [|destruct Hq'].
      destruct (q' =? 0)%float eqn:Z; [destruct Hq'|].
      destruct Hq' as [->|[]]. now rewrite Z.
    + intros (pos & Hin & Hs & Hqty & Z). exists pos. split; [exact Hin|].
      rewrite Hs, Hqty, Z. now left.
  - intros q. simpl. repeat (split; [reflexivity|]). split.
    + intros Hpos. now rewrite Hpos.
    + intros Hneg. now rewrite (QuoteFacts.ltb_not_gt _ _ Hneg).
Qed.

(** *** Quotes and placement (steps 1, 2 and 5) *)

(** C3, as the code has it. The quote computation has no failure mode and
    does no I/O, whatever the mark price is, positive or not: once the
    price query has answered with a number, the two quotes are returned
    after one log line, in the world the query left. *)
Theorem quotes_for_any_mark_price (w : W) pd w1 mark :
  query_symbol_price rt current_symbol w = (inr pd, w1) ->
  mark_price pd = Some (Number mark) ->
  fetch_quotes rt current_symbol w
  = (inr (Quote.quote_strings Quote.SPREAD_BPS mark), w1,
     [ECall (QuerySymbolPrice current_symbol) None;
      ELog INFO (MarkLine mark
                   (fst (Quote.quote_strings Quote.SPREAD_BPS mark))
                   (snd (Quote.quote_strings Quote.SPREAD_BPS mark)))]).
Proof.
  intros Hq Hm. unfold fetch_quotes.
  unfold bind at 1. unfold invoke. rewrite Hq.
  unfold bind at 1. rewrite Hm. simpl.
  unfold bind at 1. simpl.
  destruct (Quote.quote_strings Quote.SPREAD_BPS mark) as [b a].
  reflexivity.
Qed.

(** C1, as the code has it. The two placements of step 5 are in sequence
    under the handler of the whole tick: when the buy placement fails, the
    error is logged as a loop error, the loop sleeps 5 seconds, and the
    sell order is not placed in that tick; the sell placement is tried
    once the buy placement has succeeded. *)
Theorem placement_under_loop_handler (w : W) bid ask w1 t1 :
  prepare rt ctx current_symbol w = (inr (bid, ask), w1, t1) ->
  let buy_order := quote_order current_symbol current_order_size buy bid in
  let sell_order := quote_order current_symbol current_order_size sell ask in
  let run := iteration rt ctx current_symbol current_order_size w in
  (forall msg w2,
      place_order rt (token ctx) buy_order (auth ctx) w1
        = (inl (Exception msg), w2) ->
      snd run
      = t1 ++ [ECall (PlaceOrder (token ctx) buy_order (auth ctx))
                     (Some (Exception msg));
               ELog ERROR (LoopError msg);
               ECall (Sleep 5) (raised_by (fst (time_sleep rt 5 w2)))]
      /\ placed (snd run) = placed t1 ++ [buy_order])
  /\ (forall w2,
        place_order rt (token ctx) buy_order (auth ctx) w1 = (inr tt, w2) ->
        exists t3,
          snd run
          = t1 ++ ECall (PlaceOrder (token ctx) buy_order (auth ctx)) None
               :: ECall (PlaceOrder (token ctx) sell_order (auth ctx))
                    (raised_by
                       (fst (place_order rt (token ctx) sell_order
                               (auth ctx) w2)))
               :: t3).
Proof.
  intros Hp buy_order sell_order run. split.
  - intros msg w2 Hb.
    assert (E : snd run
                = t1 ++ [ECall (PlaceOrder (token ctx) buy_order (auth ctx))
                               (Some (Exception msg));
                         ELog ERROR (LoopError msg);
                         ECall (Sleep 5)
                               (raised_by (fst (time_sleep rt 5 w2)))]).
    { subst run. unfold iteration, try_except, tick.
      unfold bind at 1. rewrite Hp.
      unfold place_new_orders, place_call. simpl fst. simpl snd.
      fold buy_order sell_order.
      unfold bind at 1. unfold bind at 1. unfold invoke at 1. rewrite Hb.
      unfold bind, log, emit, sleep, invoke.
      destruct (time_sleep rt 5 w2) as [r5 w5]. simpl.
      now rewrite <- app_assoc. }
    split; [exact E|]. rewrite E, placed_app. reflexivity.
  - intros w2 Hb. subst run. unfold iteration, try_except, tick.
    unfold bind at 1. rewrite Hp.
    unfold place_new_orders, place_call. simpl fst. simpl snd.
    fold buy_order sell_order.
    unfold bind at 1. unfold bind at 1. unfold invoke at 1. rewrite Hb.
    unfold bind at 1. unfold invoke at 1.
    destruct (place_order rt (token ctx) sell_order (auth ctx) w2)
      as [rs ws]. simpl raised_by.
    destruct rs as [[m| |m]|[]].
    + unfold bind, log, emit, sleep, invoke.
      destruct (time_sleep rt 5 ws) as [r5 w5]. simpl.
      eexists. rewrite <- !app_assoc. simpl. reflexivity.
    + eexists. simpl. reflexivity.
    + eexists. simpl. reflexivity.
    + unfold bind, log, emit, sleep, invoke.
      destruct (time_sleep rt REFRESH_RATE ws) as [[[m| |m]|[]] w5]; simpl.
      * destruct (time_sleep rt 5 w5) as [r5 w6]. simpl.
        eexists. rewrite <- !app_assoc. simpl. reflexivity.
      * eexists. simpl. reflexivity.
      * eexists. simpl. reflexivity.
      * eexists. simpl. reflexivity.
Qed.

(** *** The loop and the shutdown *)

Lemma only_iteration :
  only not_shutdown (iteration rt ctx current_symbol current_order_size).
Proof.
  unfold iteration, tick, prepare, fetch_quotes, cancel_open_orders,
    flatten_positions, place_new_orders, cancel_batch, cancel_one, sleep,
    open_orders_call, order_ids, cancel_call, place_call.
  assert (P : forall ps h,
             only not_shutdown (check_positions rt ctx current_symbol h ps)).
  { induction ps as [|pos ps IH]; intros h; simpl; [apply only_ret|].
    unfold check_position, place_call. repeat only_step; apply IH. }
  repeat only_step; apply P.
Qed.

Lemma only_trading_loop fuel :
  only not_shutdown
       (trading_loop rt ctx current_symbol current_order_size fuel).
Proof.
  induction fuel as [|n IH]; simpl.
  - apply only_ret.
  - apply only_bind; [apply only_iteration | intros _; exact IH].
Qed.

Lemma only_on_exit e : only (W := W) not_shutdown (on_exit e).
Proof.
  destruct e as [msg| |msg]; simpl; repeat only_step. intros w. reflexivity.
Qed.

Lemma sweeps_app (t1 t2 : trace) : sweeps (t1 ++ t2) = (sweeps t1 + sweeps t2)%nat.
Proof.
  unfold sweeps. now rewrite filter_app, length_app.
Qed.

Lemma sweeps_none (t : trace) : forallb not_shutdown t = true -> sweeps t = 0%nat.
Proof.
  unfold sweeps, not_shutdown. induction t as [|ev t IH]; simpl; [reflexivity|].
  intros H. apply andb_true_iff in H as [Hev Ht].
  destruct (is_shutdown_start ev); [discriminate | exact (IH Ht)].
Qed.

Lemma only_shutdown_cancel_one oid :
  only not_shutdown (shutdown_cancel_one rt ctx oid).
Proof.
  unfold shutdown_cancel_one, try_except_any, cancel_call, invoke. intros w.
  destruct (cancel_orders rt (token ctx) [oid] (auth ctx) w)
    as [[e|[]] w2]; reflexivity.
Qed.

(** The sweep logs its start, asks for the open orders, and never logs a
    second start. *)
Lemma shutdown_sweep_shape (w : W) :
  exists rest,
    snd (shutdown_sweep rt ctx current_symbol w)
    = ELog INFO ShutdownStart
      :: ECall (QueryOpenOrders (token ctx) current_symbol)
               (raised_by (fst (query_open_orders rt (token ctx)
                                  current_symbol w)))
      :: rest
    /\ forallb not_shutdown rest = true.
Proof.
  unfold shutdown_sweep, try_except.
  unfold bind at 1. unfold log at 1, emit at 1.
  unfold bind at 1. unfold open_orders_call, invoke at 1.
  destruct (query_open_orders rt (token ctx) current_symbol w) as [ro w1].
  destruct ro as [[m| |m]|oo]; simpl.
  - eexists. split; reflexivity.
  - eexists. split; reflexivity.
  - eexists. split; reflexivity.
  - match goal with
    | |- context [ match ?k w1 with _ => _ end ] =>
        assert (K : only not_shutdown k); [|specialize (K w1); destruct (k w1) as [[rk wk] tk]]
    end.
    { unfold order_ids, cancel_call. repeat only_step.
      apply only_shutdown_cancel_one. }
    simpl in K. destruct rk as [[m| |m]|[]]; simpl.
    + eexists. split; [reflexivity|]. rewrite forallb_app, K. reflexivity.
    + eexists. split; [reflexivity | exact K].
    + eexists. split; [reflexivity | exact K].
    + eexists. split; [reflexivity | exact K].
Qed.

Lemma sweeps_shutdown_sweep (w : W) :
  sweeps (snd (shutdown_sweep rt ctx current_symbol w)) = 1%nat.
Proof.
  destruct (shutdown_sweep_shape w) as (rest & -> & H).
  change (sweeps (ELog INFO ShutdownStart :: ?a :: rest))
    with (S (sweeps rest)).
  now rewrite (sweeps_none _ H).
Qed.

Lemma trading_loop_more fuel : forall more (w : W) e w1 t1,
  trading_loop rt ctx current_symbol current_order_size fuel w
    = (inl e, w1, t1) ->
  trading_loop rt ctx current_symbol current_order_size (fuel + more) w
    = (inl e, w1, t1).
Proof.
  induction fuel as [|n IH]; intros more w e w1 t1 H; simpl in *.
  - discriminate H.
  - apply bind_inv in H.
    destruct H as [(e' & H1 & [= ->])|(a & w2 & t2 & t3 & H1 & H2 & ->)];
      unfold bind; rewrite H1; [reflexivity|].
    now rewrite (IH more _ _ _ _ H2).
Qed.

Lemma shutdown_fallback_exact ids : forall w : W,
  for_each (shutdown_cancel_one rt ctx) ids w
  = (inr tt, snd (single_cancels rt ctx ids w),
     fst (single_cancels rt ctx ids w)).
Proof.
  induction ids as [|oid ids IH]; intros w; simpl; [reflexivity|].
  unfold bind. unfold shutdown_cancel_one at 1.
  unfold try_except_any, cancel_call, invoke.
  destruct (cancel_orders rt (token ctx) [oid] (auth ctx) w)
    as [[e|[]] w1]; simpl; rewrite IH;
    destruct (single_cancels rt ctx ids w1) as [ts ws]; reflexivity.
Qed.

Lemma shutdown_sweep_no_orders (w : W) oo wq :
  query_open_orders rt (token ctx) current_symbol w = (inr oo, wq) ->
  get (result oo) [] = [] ->
  shutdown_sweep rt ctx current_symbol w
  = (inr tt, wq,
     [ELog INFO ShutdownStart;
      ECall (QueryOpenOrders (token ctx) current_symbol) None;
      ELog INFO ShutdownNoOrders]).
Proof.
  intros Hq Hres. unfold shutdown_sweep, try_except.
  unfold bind at 1. unfold log at 1, emit at 1.
  unfold bind at 1. unfold open_orders_call, invoke at 1.
  rewrite Hq, Hres. reflexivity.
Qed.

Lemma shutdown_sweep_orders (w : W) oo wq rl ids rc wc :
  query_open_orders rt (token ctx) current_symbol w = (inr oo, wq) ->
  result oo = Some rl -> map id rl = map Some ids -> ids <> [] ->
  cancel_orders rt (token ctx) ids (auth ctx) wq = (rc, wc) ->
  let opening :=
    [ELog INFO ShutdownStart;
     ECall (QueryOpenOrders (token ctx) current_symbol) None;
     ELog INFO (Retrieved (List.length ids));
     ECall (CancelOrders (token ctx) ids (auth ctx)) (raised_by rc)] in
  shutdown_sweep rt ctx current_symbol w
  = match rc with
    | inr _ =>
        (inr tt, wc,
         opening ++ [ELog INFO (ShutdownCancelled (List.length ids))])
    | inl (Exception _) =>
        (inr tt, snd (single_cancels rt ctx ids wc),
         opening ++ fst (single_cancels rt ctx ids wc)
                 ++ [ELog INFO ShutdownFallback])
    | inl e => (inl e, wc, opening)
    end.
Proof.
  intros Hq Hres Hids Hne Hc opening. subst opening.
  assert (Hn : nonempty rl = true).
  { destruct rl; [destruct ids; [easy | discriminate]|reflexivity]. }
  unfold shutdown_sweep, try_except.
  unfold bind at 1. unfold log at 1, emit at 1.
  unfold bind at 1. unfold open_orders_call, invoke at 1.
  rewrite Hq, Hres. cbn [get]. rewrite Hn.
  unfold bind at 1. rewrite (order_ids_all rl ids wq Hids).
  unfold bind at 1. unfold log at 1, emit at 1.
  unfold cancel_call. unfold bind at 1. unfold invoke at 1. rewrite Hc.
  destruct rc as [[msg| |msg]|[]]; cbn [raised_by]; try reflexivity.
  unfold bind at 1. rewrite shutdown_fallback_exact. unfold log, emit.
  reflexivity.
Qed.

(** C2, as the code has it. Once the trading loop has been entered with
    a non-empty token, whenever the loop is left, by interrupt or by an
    error that escapes it, the run ends and has performed the shutdown
    sweep exactly once, after everything else, however many turns the loop
    made; more fuel gives the same run. The sweep starts in the world the
    loop left: it asks the exchange for the open orders; when none is
    listed it cancels nothing; otherwise it sends one batch cancel with all
    the ids and, when that raises an [Exception], one cancel for each id. *)
Theorem shutdown_sweep_exactly_once fuel (w : W) e w1 t1 :
  established ctx = true ->
  trading_loop rt ctx current_symbol current_order_size fuel w
    = (inl e, w1, t1) ->
  exists r w' t,
    trading_session rt ctx current_symbol current_order_size fuel w
      = Some (r, w', t)
    /\ (forall more,
          trading_session rt ctx current_symbol current_order_size
                          (fuel + more) w
          = Some (r, w', t))
    /\ sweeps t = 1%nat
    /\ exists w_stop,
         t = before_cleanup rt ctx current_symbol current_order_size fuel w
             ++ snd (shutdown_sweep rt ctx current_symbol w_stop)
         /\ snd (fst (shutdown_sweep rt ctx current_symbol w_stop)) = w'
         /\ sweeps (before_cleanup rt ctx current_symbol current_order_size
                      fuel w) = 0%nat
         /\ w_stop = w1
         /\ (exists rest,
               snd (shutdown_sweep rt ctx current_symbol w_stop)
               = ELog INFO ShutdownStart
                 :: ECall (QueryOpenOrders (token ctx) current_symbol)
                      (raised_by
                         (fst (query_open_orders rt (token ctx)
                                 current_symbol w_stop)))
                 :: rest)
         /\ (forall oo wq,
               query_open_orders rt (token ctx) current_symbol w_stop
                 = (inr oo, wq) ->
               get (result oo) [] = [] ->
               shutdown_sweep rt ctx current_symbol w_stop
               = (inr tt, wq,
                  [ELog INFO ShutdownStart;
                   ECall (QueryOpenOrders (token ctx) current_symbol) None;
                   ELog INFO ShutdownNoOrders]))
         /\ (forall oo wq rl ids rc wc,
               query_open_orders rt (token ctx) current_symbol w_stop
                 = (inr oo, wq) ->
               result oo = Some rl -> map id rl = map Some ids ->
               ids <> [] ->
               cancel_orders rt (token ctx) ids (auth ctx) wq = (rc, wc) ->
               let opening :=
                 [ELog INFO ShutdownStart;
                  ECall (QueryOpenOrders (token ctx) current_symbol) None;
                  ELog INFO (Retrieved (List.length ids));
                  ECall (CancelOrders (token ctx) ids (auth ctx))
                        (raised_by rc)] in
               shutdown_sweep rt ctx current_symbol w_stop
               = match rc with
                 | inr _ =>
                     (inr tt, wc,
                      opening
                      ++ [ELog INFO (ShutdownCancelled (List.length ids))])
                 | inl (Exception _) =>
                     (inr tt, snd (single_cancels rt ctx ids wc),
                      opening ++ fst (single_cancels rt ctx ids wc)
                              ++ [ELog INFO ShutdownFallback])
                 | inl e => (inl e, wc, opening)
                 end).
Proof.
  intros Hest EL.
  assert (L := only_trading_loop fuel w). rewrite EL in L. simpl in L.
  assert (X := only_on_exit e w1).
  assert (XW : snd (fst (on_exit e w1)) = w1).
  { destruct e as [m| |m]; reflexivity. }
  destruct (on_exit e w1) as [[r2 w2] t2] eqn:EX. simpl in X, XW. subst w2.
  assert (S1 := sweeps_shutdown_sweep w1).
  destruct (shutdown_sweep_shape w1) as (rest & Shape & _).
  destruct (shutdown_sweep rt ctx current_symbol w1) as [[r3 w3] t3] eqn:ES.
  simpl in S1, Shape.
  assert (S0 : sweeps (t1 ++ t2) = 0%nat).
  { rewrite sweeps_app, (sweeps_none _ L), (sweeps_none _ X). reflexivity. }
  assert (TS : forall f,
             trading_loop rt ctx current_symbol current_order_size f w
               = (inl e, w1, t1) ->
             trading_session rt ctx current_symbol current_order_size f w
             = Some (match r3 with inl e3 => inl e3 | inr _ => r2 end,
                     w3, (t1 ++ t2) ++ t3)).
  { intros f Hf. unfold trading_session. rewrite Hf, EX.
    unfold finally, cleanup. rewrite Hest, ES.
    rewrite <- app_assoc. now destruct r3. }
  eexists _, w3, ((t1 ++ t2) ++ t3). split; [exact (TS fuel EL)|].
  split; [intros more; apply TS, trading_loop_more, EL|].
  split; [rewrite sweeps_app, S0, S1; reflexivity|].
  exists w1. unfold before_cleanup. rewrite EL, EX, ES. cbn [fst snd].
  split; [reflexivity|]. split; [reflexivity|]. split; [exact S0|].
  split; [reflexivity|]. split; [now exists rest|]. split.
  - intros oo wq Hq Hres. rewrite <- ES.
    now apply shutdown_sweep_no_orders with (oo := oo).
  - intros oo wq rl ids rc wc Hq Hres Hids Hne Hc. rewrite <- ES.
    now apply shutdown_sweep_orders with (oo := oo) (wq := wq) (rl := rl).
Qed.

(** *** Which handler reports which error *)

Lemma last_event_app (t1 t2 : trace) : forall prev,
  last_event prev (t1 ++ t2) = last_event (last_event prev t1) t2.
Proof.
  induction t1 as [|ev t1 IH]; intros prev; simpl; [reflexivity | apply IH].
Qed.

Lemma errors_named_app (t1 t2 : trace) : forall prev,
  errors_named prev t1 -> errors_named (last_event prev t1) t2 ->
  errors_named prev (t1 ++ t2).
Proof.
  induction t1 as [|ev t1 IH]; intros prev H1 H2; simpl in *; [exact H2|].
  destruct H1 as [Hev Ht1]. split; [|now apply IH].
  destruct (error_of ev); [|exact I].
  destruct t1 as [|next t1]; [destruct Hev | exact Hev].
Qed.

Lemma errors_named_handled (t0 : trace) ev msg next rest prev :
  errors_named prev t0 -> error_of ev = Some msg ->
  handler_line (last_event prev t0) ev msg = Some next ->
  error_of next = None -> errors_named (Some next) rest ->
  errors_named prev ((t0 ++ [ev]) ++ next :: rest).
Proof.
  intros H0 Hev Hline Hnext Hrest. rewrite <- app_assoc.
  apply errors_named_app; [exact H0|]. simpl.
  rewrite Hev, Hnext. auto.
Qed.

Lemma accounted_app {A} line prev (r : outcome A) (t1 t2 : trace) :
  errors_named prev t1 -> accounted line (last_event prev t1) r t2 ->
  accounted line prev r (t1 ++ t2).
Proof.
  intros H1 H2. destruct r as [[msg| |msg]|a]; simpl in *;
    try (now apply errors_named_app).
  destruct H2 as (t0 & ev & -> & Hev & H0 & Hline).
  exists (t1 ++ t0), ev. rewrite app_assoc, last_event_app.
  repeat split; try assumption. now apply errors_named_app.
Qed.

Lemma accounted_handled {A} line prev (r : outcome A) t0 ev msg next rest :
  errors_named prev t0 -> error_of ev = Some msg ->
  handler_line (last_event prev t0) ev msg = Some next ->
  error_of next = None -> accounted line (Some next) r rest ->
  accounted line prev r ((t0 ++ [ev]) ++ next :: rest).
Proof.
  intros H0 Hev Hline Hnext Hr.
  destruct r as [[msg'| |msg']|a]; simpl in *;
    try (now apply (errors_named_handled t0 ev msg)).
  destruct Hr as (t0' & ev' & -> & Hev' & H0' & Hline').
  exists ((t0 ++ [ev]) ++ next :: t0'), ev'.
  split; [now rewrite <- !app_assoc|]. split; [exact Hev'|]. split.
  - now apply (errors_named_handled t0 ev msg).
  - rewrite last_event_app. exact Hline'.
Qed.

Lemma named_ret {A} (pre post : option event -> Prop) line (a : A) :
  (forall p, pre p -> post p) -> reports_to (W := W) pre (ret a) line post.
Proof.
  intros H w prev Hp. simpl. split; [exact I | intros _ _; now apply H].
Qed.

Lemma named_emit (pre post : option event -> Prop) line ev :
  error_of ev = None -> post (Some ev) ->
  reports_to (W := W) pre (emit ev) line post.
Proof.
  intros Hev H w prev Hp. simpl. rewrite Hev. auto.
Qed.

Lemma named_log (pre post : option event -> Prop) line l m :
  post (Some (ELog l m)) -> reports_to (W := W) pre (log l m) line post.
Proof. now apply named_emit. Qed.

Lemma named_raise {A} (pre post : option event -> Prop) line msg :
  (forall p, pre p ->
             handler_line p (ERaise (Exception msg)) msg = Some (line msg)) ->
  reports_to (W := W) pre (raise (A := A) (Exception msg)) line post.
Proof.
  intros H w prev Hp. simpl. split; [|discriminate].
  exists [], (ERaise (Exception msg)). simpl. repeat split. now apply H.
Qed.

Lemma named_invoke {A} (pre post : option event -> Prop) line c
  (f : W -> outcome A * W) :
  (forall p msg, pre p ->
                 handler_line p (ECall c (Some (Exception msg))) msg
                 = Some (line msg)) ->
  post (Some (ECall c None)) ->
  reports_to pre (invoke c f) line post.
Proof.
  intros H Hpost w prev Hp. unfold invoke.
  destruct (f w) as [[[msg| |msg]|a] w1]; simpl.
  - split; [|discriminate].
    exists [], (ECall c (Some (Exception msg))). simpl. repeat split.
    now apply H.
  - split; [auto | discriminate].
  - split; [auto | discriminate].
  - auto.
Qed.

Lemma named_bind {A B} (mid pre post : option event -> Prop) line
  (m : M (W := W) A) (f : A -> M (W := W) B) :
  reports_to pre m line mid -> (forall a, reports_to mid (f a) line post) ->
  reports_to pre (bind m f) line post.
Proof.
  intros Hm Hf w prev Hp. unfold bind. destruct (Hm w prev Hp) as [Ha Hq].
  destruct (m w) as [[[e|a] w1] t1]; simpl in *.
  - split; [exact Ha | discriminate].
  - specialize (Hq a eq_refl). destruct (Hf a w1 _ Hq) as [Ha2 Hq2].
    destruct (f a w1) as [[r2 w2] t2]; simpl in *. split.
    + now apply accounted_app.
    + intros b Hb. rewrite last_event_app. exact (Hq2 b Hb).
Qed.

Lemma named_try_except {A} (pre post : option event -> Prop) caught line
  (body : M (W := W) A) (h : string -> M (W := W) A) :
  reports_to pre body caught post ->
  (forall msg, exists l m k,
      caught msg = ELog l m
      /\ (forall w, h msg w = (log l m ;; k) w)
      /\ reports_to (fun p => p = Some (ELog l m)) k line post) ->
  reports_to pre (try_except body h) line post.
Proof.
  intros Hb Hh w prev Hp. unfold try_except.
  destruct (Hb w prev Hp) as [Ha Hq].
  destruct (body w) as [[[[msg| |msg]|a] w1] t1]; simpl in *;
    try (split; [exact Ha | exact Hq]).
  destruct Ha as (t0 & ev & -> & Hev & H0 & Hline).
  destruct (Hh msg) as (l & m & k & Hc & Hk & Hrest).
  rewrite Hk. unfold bind, log, emit.
  destruct (Hrest w1 (Some (ELog l m)) eq_refl) as [Ha2 Hq2].
  destruct (k w1) as [[r2 w2] t2]; simpl in *. rewrite Hc in Hline. split.
  - now apply (accounted_handled line prev r2 t0 ev msg).
  - intros b Hb'. rewrite last_event_app. simpl. exact (Hq2 b Hb').
Qed.

Lemma named_for_each {A} (inv : option event -> Prop) line
  (f : A -> M (W := W) unit) (l : list A) :
  (forall x, reports_to inv (f x) line inv) ->
  reports_to inv (for_each f l) line inv.
Proof.
  intros H. induction l as [|x l IH]; simpl.
  - now apply named_ret.
  - apply (named_bind inv); [apply H | intros _; exact IH].
Qed.

Lemma named_comprehension {A B} (inv : option event -> Prop) line
  (f : A -> M (W := W) B) (l : list A) :
  (forall x, reports_to inv (f x) line inv) ->
  reports_to inv (comprehension f l) line inv.
Proof.
  intros H. induction l as [|x l IH]; simpl.
  - now apply named_ret.
  - apply (named_bind inv); [apply H | intros y].
    apply (named_bind inv); [exact IH | intros ys; now apply named_ret].
Qed.

Lemma named_post {A} (pre post post' : option event -> Prop) line
  (m : M (W := W) A) :
  reports_to pre m line post -> (forall p, post p -> post' p) ->
  reports_to pre m line post'.
Proof.
  intros H Hp w prev Hpre. destruct (H w prev Hpre) as [Ha Hq].
  split; [exact Ha | intros a Ea; apply Hp, (Hq a Ea)].
Qed.

Lemma named_pre {A} (pre pre' post : option event -> Prop) line
  (m : M (W := W) A) :
  reports_to pre m line post -> (forall p, pre' p -> pre p) ->
  reports_to pre' m line post.
Proof.
  intros H Hp w prev Hpre. exact (H w prev (Hp prev Hpre)).
Qed.

Lemma past_count_line oid e :
  past_count (Some (ELog ERROR (FailedCancel oid e))).
Proof. intros n. discriminate. Qed.

Lemma named_cancel_one line oid :
  reports_to past_count (cancel_one rt ctx oid) line past_count.
Proof.
  unfold cancel_one, cancel_call.
  apply (named_try_except past_count past_count
           (fun msg => ELog ERROR (FailedCancel oid msg))).
  - apply (named_bind past_count).
    + apply named_invoke.
      * intros p msg Hp.
        destruct p as [[c r|e|[] []| |]|]; try reflexivity.
        now destruct (Hp n).
      * intros n. discriminate.
    + intros _. apply named_log. intros n. discriminate.
  - intros msg. exists ERROR, (FailedCancel oid msg), (ret tt).
    split; [reflexivity|]. split; [reflexivity|].
    apply named_ret. intros p ->. apply past_count_line.
Qed.

Lemma named_cancel_batch line ids :
  reports_to after_count (cancel_batch rt ctx ids) line past_count.
Proof.
  unfold cancel_batch, cancel_call.
  apply (named_try_except after_count past_count
           (fun msg => ELog WARNING (BatchFailed msg))).
  - apply (named_bind past_count).
    + apply named_invoke.
      * intros p msg [n ->]. reflexivity.
      * intros n. discriminate.
    + intros _. apply named_log. intros n. discriminate.
  - intros msg.
    exists WARNING, (BatchFailed msg), (for_each (cancel_one rt ctx) ids).
    split; [reflexivity|]. split; [reflexivity|].
    apply (named_pre past_count).
    + apply named_for_each. intros oid. apply named_cancel_one.
    + intros p -> n. discriminate.
Qed.

Lemma named_cancel_open_orders line :
  reports_to anywhere (cancel_open_orders rt ctx current_symbol) line
             anywhere.
Proof.
  unfold cancel_open_orders, open_orders_call, order_ids.
  apply (named_try_except anywhere anywhere
           (fun msg => ELog ERROR (CancelStepError msg))).
  - apply (named_bind anywhere).
    + apply named_invoke; [reflexivity | exact I].
    + intros oo. destruct (0 <? _)%nat; [|now apply named_ret].
      apply (named_bind after_count).
      * apply named_log. now eexists.
      * intros _. apply (named_bind after_count).
        -- apply named_comprehension. intros o.
           destruct (id o); simpl; [now apply named_ret|].
           apply named_raise. intros p [n ->]. reflexivity.
        -- intros ids. destruct (nonempty ids).
           ++ apply (named_post _ past_count); [|intros p _; exact I].
              apply named_cancel_batch.
           ++ apply named_ret. intros p _. exact I.
  - intros msg. exists ERROR, (CancelStepError msg), (ret tt).
    split; [reflexivity|]. split; [reflexivity|].
    apply named_ret. intros p _. exact I.
Qed.

Lemma named_check_position h pos :
  reports_to in_positions (check_position rt ctx current_symbol h pos)
             (fun msg => ELog ERROR (PositionStepError msg)) in_positions.
Proof.
  unfold check_position, place_call.
  destruct (symbol_is pos current_symbol); [|now apply named_ret].
  apply (named_bind in_positions).
  - destruct (get (qty pos) (Number 0)) as [q|raw]; simpl;
      [now apply named_ret|].
    apply named_raise.
    intros p [(tok & sym & r & ->)|[->|(e & ->)]]; reflexivity.
  - intros q. destruct (negb (q =? 0)%float); [|now apply named_ret].
    apply (named_bind anywhere); [now apply named_log | intros _].
    apply (named_bind anywhere); [now apply named_log | intros _].
    apply (named_bind in_positions); [|intros _; now apply named_ret].
    apply (named_try_except anywhere in_positions
             (fun msg => ELog ERROR (CloseFailed msg))).
    + apply (named_bind anywhere).
      * apply named_invoke; [reflexivity | exact I].
      * intros _. apply named_log. right. now left.
    + intros msg. exists ERROR, (CloseFailed msg), (ret tt).
      split; [reflexivity|]. split; [reflexivity|].
      apply named_ret. intros p ->. right. right. now eexists.
Qed.

Lemma named_check_positions ps : forall h,
  reports_to in_positions (check_positions rt ctx current_symbol h ps)
             (fun msg => ELog ERROR (PositionStepError msg)) in_positions.
Proof.
  induction ps as [|pos ps IH]; intros h; simpl; [now apply named_ret|].
  apply (named_bind in_positions); [apply named_check_position|].
  intros a. apply IH.
Qed.

Lemma named_flatten_positions line :
  reports_to anywhere (flatten_positions rt ctx current_symbol) line
             anywhere.
Proof.
  unfold flatten_positions.
  apply (named_try_except anywhere anywhere
           (fun msg => ELog ERROR (PositionStepError msg))).
  - apply (named_bind in_positions).
    + apply named_invoke; [reflexivity|]. left. now eexists _, _, _.
    + intros ps. apply (named_bind in_positions).
      * apply named_check_positions.
      * intros _. apply named_ret. intros p _. exact I.
  - intros msg. exists ERROR, (PositionStepError msg), (ret tt).
    split; [reflexivity|]. split; [reflexivity|].
    apply named_ret. intros p _. exact I.
Qed.

Lemma named_fetch_quotes :
  reports_to anywhere (fetch_quotes rt current_symbol)
             (fun msg => ELog ERROR (LoopError msg)) anywhere.
Proof.
  unfold fetch_quotes.
  apply (named_bind after_price).
  - apply named_invoke; [reflexivity|]. now eexists _, _.
  - intros pd. apply (named_bind after_price).
    + destruct (mark_price pd); simpl; [now apply named_ret|].
      apply named_raise. intros p (sym & r & ->). reflexivity.
    + intros v. apply (named_bind after_price).
      * destruct v; simpl; [now apply named_ret|].
        apply named_raise. intros p (sym & r & ->). reflexivity.
      * intros mark.
        destruct (Quote.quote_strings Quote.SPREAD_BPS mark) as [b a].
        apply (named_bind anywhere); [now apply named_log|].
        intros _. now apply named_ret.
Qed.

Lemma named_tick :
  reports_to anywhere (tick rt ctx current_symbol current_order_size)
             (fun msg => ELog ERROR (LoopError msg)) anywhere.
Proof.
  unfold tick, prepare, place_new_orders, place_call, sleep.
  apply (named_bind anywhere).
  - apply (named_bind anywhere); [apply named_fetch_quotes | intros q].
    apply (named_bind anywhere); [apply named_cancel_open_orders|].
    intros _.
    apply (named_bind anywhere); [apply named_flatten_positions|].
    intros _. now apply named_ret.
  - intros q. apply (named_bind anywhere).
    + apply (named_bind anywhere).
      * apply named_invoke; [reflexivity | exact I].
      * intros _. apply (named_bind anywhere).
        -- apply named_invoke; [reflexivity | exact I].
        -- intros _. now apply named_log.
    + intros _. apply named_invoke; [reflexivity | exact I].
Qed.

Lemma named_iteration :
  reports_to anywhere (iteration rt ctx current_symbol current_order_size)
             (fun msg => ELog CRITICAL (FatalError msg)) anywhere.
Proof.
  unfold iteration.
  apply (named_try_except anywhere anywhere
           (fun msg => ELog ERROR (LoopError msg))).
  - apply named_tick.
  - intros msg. exists ERROR, (LoopError msg), (sleep rt 5).
    split; [reflexivity|]. split; [reflexivity|].
    unfold sleep. apply named_invoke; [reflexivity | exact I].
Qed.

Lemma named_trading_loop fuel :
  reports_to anywhere
             (trading_loop rt ctx current_symbol current_order_size fuel)
             (fun msg => ELog CRITICAL (FatalError msg)) anywhere.
Proof.
  induction fuel as [|n IH]; simpl; [now apply named_ret|].
  apply (named_bind anywhere); [apply named_iteration | intros _; exact IH].
Qed.

Lemma errors_named_before_cleanup fuel (w : W) :
  errors_named None
    (before_cleanup rt ctx current_symbol current_order_size fuel w).
Proof.
  unfold before_cleanup.
  destruct (named_trading_loop fuel w None I) as [T _].
  destruct (trading_loop rt ctx current_symbol current_order_size fuel w)
    as [[[[msg| |msg]|[]] w1] t1]; simpl in *.
  - destruct T as (t0 & ev & -> & Hev & H0 & Hline).
    apply (errors_named_handled t0 ev msg); try assumption; try reflexivity.
    simpl. auto.
  - apply errors_named_app; [exact T | simpl; auto].
  - now rewrite app_nil_r.
  - exact T.
Qed.

Lemma order_ids_missing (rl : list order_rec) : forall w : W,
  In None (map id rl) ->
  order_ids rl w
  = (inl (Exception "'id'"), w, [ERaise (Exception "'id'")]).
Proof.
  unfold order_ids.
  induction rl as [|o rl IH]; intros w H; simpl in H; [destruct H|].
  simpl. unfold bind at 1. destruct (id o) as [i|] eqn:Ho; simpl.
  - destruct H as [H|H]; [discriminate H|].
    unfold bind at 1. now rewrite (IH w H).
  - reflexivity.
Qed.


End Steps.

Lemma flatten_example :
  placed (snd (flatten_positions (Scripted.runtime Scripted.short_position)
                 Scripted.alice "BTC-USD" 0))
  = [ {| o_symbol := "BTC-USD"; o_side := buy; o_type := market;
         o_qty := QtyFloat 0.01; o_price := None; o_tif := ioc;
         o_reduce_only := true |} ]
  /\ snd (fst (flatten_positions (Scripted.runtime Scripted.short_position)
                  Scripted.alice "BTC-USD" 0))
     = 2%nat.
Proof.
  pose proof (flatten_orders (Scripted.runtime Scripted.short_position)
                Scripted.alice "BTC-USD" 0%nat _ 1%nat _ _
                eq_refl eq_refl eq_refl) as (A & B & _).
  split; [exact A | exact B].
Defined.

Lemma cancel_pass_example :
  cancel_open_orders (Scripted.runtime Scripted.batch_refused) Scripted.alice
    "BTC-USD" 0
  = (inr tt, 5%nat,
     [ECall (QueryOpenOrders "tok" "BTC-USD") None;
      ELog INFO (FoundOpen 3);
      ECall (CancelOrders "tok" [11; 12; 13]%Z (Ed25519 "k1"))
            (Some (Exception "batch rejected"));
      ELog WARNING (BatchFailed "batch rejected");
      ECall (CancelOrders "tok" [11%Z] (Ed25519 "k1")) None;
      ELog INFO (CancelledOrder 11%Z);
      ECall (CancelOrders "tok" [12%Z] (Ed25519 "k1"))
            (Some (Exception "order 12 not found"));
      ELog ERROR (FailedCancel 12%Z "order 12 not found");
      ECall (CancelOrders "tok" [13%Z] (Ed25519 "k1")) None;
      ELog INFO (CancelledOrder 13%Z)])
  /\ cancelled
       (snd (cancel_open_orders (Scripted.runtime Scripted.batch_refused)
               Scripted.alice "BTC-USD" 0))
     = [[11; 12; 13]; [11]; [12]; [13]]%Z.
Proof.
  split; [reflexivity|].
  refine (proj2 (proj2 (cancel_pass_never_raises
            (Scripted.runtime Scripted.batch_refused) Scripted.alice "BTC-USD"
            0%nat _ _ _ eq_refl))
          (Scripted.orders [11; 12; 13]%Z) 1%nat _ [11; 12; 13]%Z
          "batch rejected" 2%nat eq_refl eq_refl eq_refl _ eq_refl eq_refl).
  discriminate.
Defined.


(** *** Runs on scripted worlds *)

Section Examples.
Import Scripted.

(** C1 fails as stated: the buy placement is refused, the tick ends in the
    loop's handler, and the sell order is never sent. *)
Lemma buy_failure_skips_sell :
  iteration (runtime buy_refused) alice "BTC-USD" "0.0015" 0
  = (inr tt, 5%nat,
     [ECall (QuerySymbolPrice "BTC-USD") None;
      ELog INFO (MarkLine 30000 "29976.00" "30024.00");
      ECall (QueryOpenOrders "tok" "BTC-USD") None;
      ECall (QueryPositions "tok" "BTC-USD") None;
      ECall (PlaceOrder "tok" (buy_at "29976.00") (Ed25519 "k1"))
            (Some (Exception "insufficient margin"));
      ELog ERROR (LoopError "insufficient margin");
      ECall (Sleep 5) None])
  /\ ~ In (sell_at "30024.00")
         (placed (snd (iteration (runtime buy_refused) alice "BTC-USD"
                         "0.0015" 0))).
Proof.
  split; [reflexivity|]. vm_compute. intros [H|[]]. discriminate H.
Qed.

Lemma placement_example :
  placed (snd (iteration (runtime buy_refused) alice "BTC-USD" "0.0015" 0))
  = [buy_at "29976.00"].
Proof.
  exact (proj2 (proj1 (placement_under_loop_handler
                         (runtime buy_refused) alice "BTC-USD" "0.0015"
                         0%nat "29976.00" "30024.00" 3%nat _ eq_refl)
                 "insufficient margin" 4%nat eq_refl)).
Defined.

(** C2 fails as stated: the context and the symbol are there, the user
    interrupts the order-size prompt, and the run ends with no sweep. *)
Lemma interrupt_at_size_prompt :
  run_trading_bot (runtime (interrupted_at 2)) 3 0
  = Some (inl KeyboardInterrupt, 3%nat,
          [EPrint banner;
           EPrint "Select Authentication Mode:";
           EPrint mode_1;
           EPrint mode_2;
           ECall (Input "Enter choice (1 or 2): ") None;
           ECall GetAuthContextPrivateKey None;
           ECall (Input "Enter Order Size for BTC-USD [Default: 0.0015]: ")
                 (Some KeyboardInterrupt)])
  /\ option_map (fun x => sweeps (snd x))
                (run_trading_bot (runtime (interrupted_at 2)) 3 0)
     = Some 0%nat.
Proof.
  split; reflexivity.
Qed.

(** Sessions interrupted before the first tick did anything, in the first
    sleep, and in the third sleep: the two resting orders are cancelled by
    one batch; and a session whose batch cancel is refused: each of the two
    is then cancelled on its own. *)
Lemma session_examples :
  (exists r w t,
      trading_session (runtime (interrupted_at 0)) alice "BTC-USD" "0.0015"
                      1 0 = Some (r, w, t)
      /\ sweeps t = 1%nat /\ cancelled t = [[21; 22]]%Z)
  /\ (exists r w t,
      trading_session (runtime (interrupted_at 5)) alice "BTC-USD" "0.0015"
                      1 0 = Some (r, w, t)
      /\ sweeps t = 1%nat /\ cancelled t = [[21; 22]]%Z)
  /\ (exists r w t,
      trading_session (runtime (interrupted_at 17)) alice "BTC-USD" "0.0015"
                      3 0 = Some (r, w, t)
      /\ sweeps t = 1%nat /\ cancelled t = [[21; 22]]%Z)
  /\ (exists r w t,
      trading_session (runtime MoreScripts.interrupted_refused) alice
                      "BTC-USD" "0.0015" 1 0 = Some (r, w, t)
      /\ sweeps t = 1%nat /\ cancelled t = [[21; 22]; [21]; [22]]%Z).
Proof.
  split; [|split; [|split]].
  - destruct (shutdown_sweep_exactly_once
                (runtime (interrupted_at 0)) alice "BTC-USD" "0.0015"
                1 0%nat KeyboardInterrupt _ _ eq_refl eq_refl)
      as (r & w & t & A & _ & B & _).
    exists r, w, t. split; [exact A|]. split; [exact B|].
    vm_compute in A. injection A as _ _ <-. reflexivity.
  - destruct (shutdown_sweep_exactly_once
                (runtime (interrupted_at 5)) alice "BTC-USD" "0.0015"
                1 0%nat KeyboardInterrupt _ _ eq_refl eq_refl)
      as (r & w & t & A & _ & B & _).
    exists r, w, t. split; [exact A|]. split; [exact B|].
    vm_compute in A. injection A as _ _ <-. reflexivity.
  - destruct (shutdown_sweep_exactly_once
                (runtime (interrupted_at 17)) alice "BTC-USD" "0.0015"
                3 0%nat KeyboardInterrupt _ _ eq_refl eq_refl)
      as (r & w & t & A & _ & B & _).
    exists r, w, t. split; [exact A|]. split; [exact B|].
    vm_compute in A. injection A as _ _ <-. reflexivity.
  - destruct (shutdown_sweep_exactly_once
                (runtime MoreScripts.interrupted_refused) alice "BTC-USD"
                "0.0015" 1 0%nat KeyboardInterrupt _ _ eq_refl eq_refl)
      as (r & w & t & A & _ & B & _).
    exists r, w, t. split; [exact A|]. split; [exact B|].
    vm_compute in A. injection A as _ _ <-. reflexivity.
Defined.

(** C3 fails as stated: a negative and a zero mark price are quoted like
    any other, and the orders go out at those prices. *)
Lemma nonpositive_mark_price_is_quoted :
  (-5 <=? 0)%float = true
  /\ fetch_quotes (runtime (priced (-5))) "BTC-USD" 0
     = (inr ("-4.9960", "-5.0040"), 1%nat,
        [ECall (QuerySymbolPrice "BTC-USD") None;
         ELog INFO (MarkLine (-5) "-4.9960" "-5.0040")])
  /\ placed (snd (iteration (runtime (priced (-5))) alice "BTC-USD"
                    "0.0015" 0))
     = [buy_at "-4.9960"; sell_at "-5.0040"]
  /\ fst (fst (fetch_quotes (runtime (priced 0)) "BTC-USD" 0))
     = inr ("0.0000", "0.0000").
Proof.
  repeat split; vm_compute; reflexivity.
Qed.

Lemma quotes_example :
  fetch_quotes (runtime (priced 30000)) "BTC-USD" 0
  = (inr ("29976.00", "30024.00"), 1%nat,
     [ECall (QuerySymbolPrice "BTC-USD") None;
      ELog INFO (MarkLine 30000 "29976.00" "30024.00")]).
Proof.
  exact (quotes_for_any_mark_price (runtime (priced 30000)) "BTC-USD"
           0%nat _ 1%nat 30000%float eq_refl eq_refl).
Defined.



End Examples.

End BotFacts.

(** ** The authentication helpers *)

Module AuthFacts.
Import Bot Auth.
Local Open Scope list_scope.

Lemma unusable_some (b : string) :
  unusable (Some b) = negb (String.length b =? 32)%nat.
Proof.
  unfold unusable. destruct b; reflexivity.
Qed.

Lemma strip_0x_prefixed (k : string) : strip_0x ("0x" ++ k) = k.
Proof.
  unfold strip_0x, startswith. cbn. rewrite Nat.sub_0_r.
  replace (String.prefix "" k) with true by (destruct k; reflexivity).
  apply SymbolFacts.substring_whole.
Qed.

Section ApiToken.
Variables fromhex b64decode b58decode : string -> option string.
Variable standx_auth : string -> outcome signer.
Variables API_TOKEN API_KEY : option string.
Variable new_client : outcome unit.

Lemma decode_key_cases (raw_key : string) :
  match first_32 [fromhex (strip_0x raw_key); b64decode raw_key;
                  b58decode raw_key] with
  | Some key =>
      decode_key fromhex b64decode b58decode raw_key = Some key
      /\ String.length key = 32%nat
  | None =>
      unusable (decode_key fromhex b64decode b58decode raw_key) = true
  end.
Proof.
  unfold decode_key, retry. cbn [first_32].
  change (unusable None) with true.
  destruct (fromhex (strip_0x raw_key)) as [h|];
    destruct (b64decode raw_key) as [b|];
    destruct (b58decode raw_key) as [c|];
    rewrite ?unusable_some;
    try destruct (String.length h =? 32)%nat eqn:Hh;
    try destruct (String.length b =? 32)%nat eqn:Hb;
    try destruct (String.length c =? 32)%nat eqn:Hc;
    repeat first
      [ rewrite unusable_some
      | rewrite Hh | rewrite Hb | rewrite Hc
      | progress change (unusable None) with true
      | progress cbn [negb] ];
    rewrite ?Nat.eqb_eq in *; auto.
Qed.

(** X1. The signing key that is loaded is the answer of the first decoder,
    in the order hexadecimal (after dropping one [0x]), base 64, base 58,
    that has exactly 32 bytes; when no decoder gives 32 bytes no key is
    loaded. *)
Theorem decode_key_first_of_32_bytes (raw_key key : string) :
  (decode_key fromhex b64decode b58decode raw_key = Some key
   /\ unusable (Some key) = false)
  <-> first_32 [fromhex (strip_0x raw_key); b64decode raw_key;
                b58decode raw_key] = Some key.
Proof.
  pose proof (decode_key_cases raw_key) as D.
  destruct (first_32 _) as [k|].
  - destruct D as [D L]. split.
    + intros [E _]. congruence.
    + intros [= <-]. split; [exact D|].
      rewrite unusable_some, L. reflexivity.
  - split; [|discriminate]. intros [E U]. rewrite E in D. congruence.
Qed.

(** X2. A context that the token mode returns carries the configured
    token, which is not empty, so the guard of the shutdown sweep holds for
    it; its address is the fixed label, and its signer was built from the
    first 32-byte decoding of the stripped key. *)
Theorem api_token_context (ctx : context) (said : log_lines) :
  get_auth_context_api_token fromhex b64decode b58decode standx_auth
                             API_TOKEN API_KEY new_client
    = (inr (Some ctx), said) ->
  established ctx = true
  /\ API_TOKEN = Some (token ctx)
  /\ address ctx = "API_TOKEN_USER"
  /\ exists raw key,
       API_KEY = Some raw
       /\ first_32 [fromhex (strip_0x (PyStr.strip raw));
                    b64decode (PyStr.strip raw);
                    b58decode (PyStr.strip raw)] = Some key
       /\ String.length key = 32%nat
       /\ standx_auth key = inr (auth ctx).
Proof.
  unfold get_auth_context_api_token, set_value.
  destruct API_TOKEN as [tok|]; [|discriminate].
  destruct (PyStr.truthy tok) eqn:Ht; [|discriminate].
  destruct API_KEY as [raw|]; [|discriminate].
  destruct (PyStr.truthy raw); [|discriminate].
  destruct new_client as [e|[]]; [discriminate|].
  pose proof (decode_key_cases (PyStr.strip raw)) as D.
  destruct (unusable (decode_key fromhex b64decode b58decode
                                 (PyStr.strip raw))) eqn:U; [discriminate|].
  destruct (first_32 _) as [key|] eqn:F; [|congruence].
  destruct D as [D L]. rewrite D. cbn [Bot.get].
  destruct (standx_auth key) as [[e| |e]|a] eqn:E; try discriminate.
  intros [= <- _]. unfold established. cbn [token address auth].
  split; [assumption|]. split; [reflexivity|]. split; [reflexivity|].
  exists raw, key. auto.
Qed.

End ApiToken.

Section PrivateKey.
Variable from_key : string -> outcome string.
Variable session_auth : signer.
Variable authenticate :
  signer -> string -> string -> sign_func -> outcome string.

(** X3. A wallet key gives the same outcome and the same log with and
    without the [0x] in front, as long as the key itself is not empty and
    does not start with [0x]: one prefix is dropped, not two. *)
Theorem private_key_prefix (k : string) :
  PyStr.truthy k = true -> startswith k "0x" = false ->
  get_auth_context_private_key from_key session_auth authenticate
                               (Some ("0x" ++ k)%string)
  = get_auth_context_private_key from_key session_auth authenticate
                                 (Some k).
Proof.
  intros Hk Hp. unfold get_auth_context_private_key, set_value, get_signer.
  rewrite Hk. cbn [append PyStr.truthy].
  change (String "0" (String "x" k)) with ("0x" ++ k)%string.
  rewrite strip_0x_prefixed. unfold strip_0x at 1 2. now rewrite Hp.
Qed.

End PrivateKey.

(** X4. The token mode returns no context exactly when it has logged a
    line at [ERROR]. The only [Exception] that can leave it is one raised
    by the client constructor of line 152, which stands before the [try]:
    then only the mode line has been logged. Every failure to decode the
    key or to build the signer from it is caught and logged. *)
Theorem token_mode_failures_are_logged
  (fromhex b64decode b58decode : string -> option string)
  (standx_auth : string -> outcome signer)
  (API_TOKEN API_KEY : option string) (new_client : outcome unit) :
  let run := get_auth_context_api_token fromhex b64decode b58decode
               standx_auth API_TOKEN API_KEY new_client in
  (fst run = inr None <-> error_logged (snd run) = true)
  /\ (forall msg,
        fst run = inl (Exception msg) ->
        new_client = inl (Exception msg)
        /\ set_value API_TOKEN <> None /\ set_value API_KEY <> None
        /\ snd run = [(INFO, Mode2)])
  /\ ((forall msg, new_client <> inl (Exception msg)) ->
      forall msg, fst run <> inl (Exception msg)).
Proof.
  intros run.
  assert (E : forall msg,
             fst run = inl (Exception msg) ->
             new_client = inl (Exception msg)
             /\ set_value API_TOKEN <> None /\ set_value API_KEY <> None
             /\ snd run = [(INFO, Mode2)]).
  { subst run. unfold get_auth_context_api_token. intros msg.
    destruct (set_value API_TOKEN) as [tok|]; [|discriminate].
    destruct (set_value API_KEY) as [key|]; [|discriminate].
    destruct new_client as [e|[]].
    - intros [= ->]. now repeat split.
    - destruct (unusable _); [discriminate|].
      destruct (standx_auth _) as [[e| |e]|a]; discriminate. }
  split; [|split].
  - subst run. unfold get_auth_context_api_token.
    destruct (set_value API_TOKEN) as [tok|]; [|now split].
    destruct (set_value API_KEY) as [key|]; [|now split].
    destruct new_client as [e|[]]; [now split|].
    destruct (unusable _); [now split|].
    destruct (standx_auth _) as [[e| |e]|a]; now split.
  - exact E.
  - intros H msg R. destruct (E msg R) as [C _]. now destruct (H msg).
Qed.

Section Examples.
Import MoreScripts.

Lemma decode_key_example :
  decode_key hex_decode no_decoder no_decoder ("0x" ++ key_hex)%string
  = hex_decode key_hex
  /\ option_map String.length (hex_decode key_hex) = Some 32%nat.
Proof.
  split; [|reflexivity].
  exact (proj1 (proj2 (decode_key_first_of_32_bytes
                         hex_decode no_decoder no_decoder
                         ("0x" ++ key_hex)%string
                         (Bot.get (hex_decode key_hex) ""%string))
                  eq_refl)).
Defined.

Lemma api_token_example :
  exists ctx said,
    get_auth_context_api_token hex_decode no_decoder no_decoder accept_key
                               (Some "tok")
                               (Some (" 0x" ++ key_hex ++ " ")%string)
                               (inr tt)
      = (inr (Some ctx), said)
    /\ established ctx = true /\ address ctx = "API_TOKEN_USER".
Proof.
  eexists _, _. split; [vm_compute; reflexivity|].
  match goal with
  | |- established ?c = true /\ _ =>
      destruct (api_token_context hex_decode no_decoder no_decoder
                  accept_key (Some "tok")
                  (Some (" 0x" ++ key_hex ++ " ")%string) (inr tt)
                  c _ eq_refl) as (A & _ & B & _)
  end.
  split; [exact A | exact B].
Defined.

Lemma private_key_prefix_example :
  get_auth_context_private_key one_wallet (Ed25519 "session") login_ok
                               (Some "0xab12")
  = get_auth_context_private_key one_wallet (Ed25519 "session") login_ok
                                 (Some "ab12").
Proof.
  exact (private_key_prefix one_wallet (Ed25519 "session") login_ok "ab12"
           eq_refl eq_refl).
Defined.

Lemma token_mode_example :
  get_auth_context_api_token hex_decode no_decoder no_decoder accept_key
    (Some "tok") (Some "abcd") (inl (Exception "invalid URL"))
  = (inl (Exception "invalid URL"), [(INFO, Mode2)])
  /\ forall msg,
       fst (get_auth_context_api_token hex_decode no_decoder no_decoder
              accept_key (Some "tok") (Some "abcd") (inr tt))
       <> inl (Exception msg).
Proof.
  split; [reflexivity|].
  refine (proj2 (proj2 (token_mode_failures_are_logged hex_decode no_decoder
                          no_decoder accept_key (Some "tok") (Some "abcd")
                          (inr tt))) _).
  intros msg. discriminate.
Defined.

End Examples.

End AuthFacts.

(** ** The run as a whole *)

Module RunFacts.
Import Bot Watch BotFacts.
Local Open Scope list_scope.
Local Open Scope bot_scope.

(** *** Computations that nobody interrupts *)

Section Mild.
Context {W : Type}.
Implicit Types w : W.
Local Abbreviation Mw := (M (W := W)).

Lemma mild_ret {A} (a : A) : mild (W := W) (ret a).
Proof. intros w. exact I. Qed.

Lemma mild_log l m : mild (W := W) (log l m).
Proof. intros w. exact I. Qed.

Lemma mild_raise {A} msg : mild (W := W) (raise (A := A) (Exception msg)).
Proof. intros w. exact I. Qed.

Lemma mild_invoke {A} c (f : W -> outcome A * W) :
  (forall w, exception_only (fst (f w))) -> mild (invoke c f).
Proof.
  intros H w. unfold invoke. specialize (H w).
  destruct (f w) as [r w1]. exact H.
Qed.

Lemma mild_bind {A B} (m : Mw A) (f : A -> Mw B) :
  mild m -> (forall a, mild (f a)) -> mild (bind m f).
Proof.
  intros Hm Hf w. unfold bind. specialize (Hm w).
  destruct (m w) as [[[e|a] w1] t1]; simpl in *; [exact Hm|].
  specialize (Hf a w1). destruct (f a w1) as [[r2 w2] t2]. exact Hf.
Qed.

Lemma mild_try_except {A} (body : Mw A) (h : string -> Mw A) :
  mild body -> (forall msg, mild (h msg)) -> mild (try_except body h).
Proof.
  intros Hb Hh w. unfold try_except. specialize (Hb w).
  destruct (body w) as [[[[m| |m]|a] w1] t1]; simpl in *; try exact Hb.
  specialize (Hh m w1). destruct (h m w1) as [[r2 w2] t2]. exact Hh.
Qed.

Lemma mild_for_each {A} (f : A -> Mw unit) (l : list A) :
  (forall x, mild (f x)) -> mild (for_each f l).
Proof.
  intros H. induction l as [|x l IH]; simpl.
  - apply mild_ret.
  - apply mild_bind; [apply H | intros _; exact IH].
Qed.

Lemma mild_comprehension {A B} (f : A -> Mw B) (l : list A) :
  (forall x, mild (f x)) -> mild (comprehension f l).
Proof.
  intros H. induction l as [|x l IH]; simpl.
  - apply mild_ret.
  - apply mild_bind; [apply H | intros y].
    apply mild_bind; [exact IH | intros ys; apply mild_ret].
Qed.

Lemma mild_subscript {A} key (v : option A) : mild (W := W) (subscript key v).
Proof. destruct v; simpl; [apply mild_ret | apply mild_raise]. Qed.

Lemma mild_to_float v : mild (W := W) (to_float v).
Proof. destruct v; simpl; [apply mild_ret | apply mild_raise]. Qed.

End Mild.

Ltac mild_step :=
  first
    [ apply mild_ret | apply mild_log | apply mild_raise
    | apply mild_subscript | apply mild_to_float
    | apply mild_invoke; solve [auto]
    | apply mild_bind; [|intros ?]
    | apply mild_try_except; [|intros ?]
    | apply mild_for_each; intros ?
    | apply mild_comprehension; intros ?
    | match goal with
      | |- mild (if ?b then _ else _) => destruct b
      | |- mild (let (_, _) := ?p in _) => destruct p
      end ].

Section Loop.
Context {W : Type} (rt : Runtime W).
Variable ctx : context.
Variable current_symbol current_order_size : string.

Lemma mild_tick :
  uninterrupted rt -> mild (tick rt ctx current_symbol current_order_size).
Proof.
  intros (Hprice & Hopen & Hcancel & Hpos & Hplace & Hsleep).
  assert (Hsl : forall secs (w : W), exception_only (fst (time_sleep rt secs w))).
  { intros secs w. now rewrite Hsleep. }
  assert (P : forall ps h,
             mild (check_positions rt ctx current_symbol h ps)).
  { induction ps as [|pos ps IH]; intros h; simpl; [apply mild_ret|].
    unfold check_position, place_call. repeat mild_step; apply IH. }
  unfold tick, prepare, fetch_quotes, cancel_open_orders,
    flatten_positions, place_new_orders, cancel_batch, cancel_one, sleep,
    open_orders_call, order_ids, cancel_call, place_call.
  repeat mild_step; apply P.
Qed.

Lemma iteration_returns (w : W) :
  uninterrupted rt ->
  fst (fst (iteration rt ctx current_symbol current_order_size w)) = inr tt.
Proof.
  intros U. pose proof (mild_tick U w) as T.
  destruct U as (_ & _ & _ & _ & _ & Hsleep).
  unfold iteration, try_except.
  destruct (tick rt ctx current_symbol current_order_size w)
    as [[[[m| |m]|[]] w1] t1]; simpl in T; try contradiction.
  - unfold bind, log, emit, sleep, invoke. specialize (Hsleep 5%Z w1).
    destruct (time_sleep rt 5 w1) as [r5 w5]. simpl in *. exact Hsleep.
  - reflexivity.
Qed.

(** X5. An [Exception] never stops the bot: as long as nobody interrupts, the
    loop is still turning after any number of turns, whatever the exchange
    answers, and the session has not ended. *)
Theorem only_an_interrupt_stops_the_loop :
  uninterrupted rt ->
  forall fuel (w : W),
    fst (fst (trading_loop rt ctx current_symbol current_order_size fuel w))
    = inr tt
    /\ trading_session rt ctx current_symbol current_order_size fuel w = None.
Proof.
  intros U fuel.
  assert (L : forall w : W,
             fst (fst (trading_loop rt ctx current_symbol current_order_size
                         fuel w)) = inr tt).
  { induction fuel as [|n IH]; intros w; simpl; [reflexivity|].
    unfold bind. pose proof (iteration_returns w U) as I.
    destruct (iteration rt ctx current_symbol current_order_size w)
      as [[r1 w1] t1]. simpl in I. subst r1.
    specialize (IH w1).
    destruct (trading_loop rt ctx current_symbol current_order_size n w1)
      as [[r2 w2] t2]. exact IH. }
  intros w. split; [apply L|].
  unfold trading_session. specialize (L w).
  destruct (trading_loop rt ctx current_symbol current_order_size fuel w)
    as [[r1 w1] t1]. simpl in L. now subst r1.
Qed.

(** *** Reading the calls of a trace *)

Lemma calls_app (t1 t2 : trace) : calls (t1 ++ t2) = calls t1 ++ calls t2.
Proof.
  induction t1 as [|ev t1 IH]; simpl; [reflexivity|].
  destruct ev; simpl; now rewrite IH.
Qed.

Lemma placed_calls (t : trace) :
  placed t
  = flat_map (fun c => match c with PlaceOrder _ o _ => [o] | _ => [] end)
             (calls t).
Proof.
  induction t as [|ev t IH]; simpl; [reflexivity|].
  destruct ev as [[] ?| | | |]; simpl; now rewrite IH.
Qed.

Lemma cancelled_calls (t : trace) :
  cancelled t
  = flat_map (fun c => match c with CancelOrders _ ids _ => [ids] | _ => [] end)
             (calls t).
Proof.
  induction t as [|ev t IH]; simpl; [reflexivity|].
  destruct ev as [[] ?| | | |]; simpl; now rewrite IH.
Qed.

Lemma invoke_inr {A} c (f : W -> outcome A * W) (w : W) a w' t :
  invoke c f w = (inr a, w', t) -> f w = (inr a, w') /\ t = [ECall c None].
Proof.
  unfold invoke. destruct (f w) as [[e|a'] w1]; intros [= <- <- <-]; auto.
  all: discriminate.
Qed.

(** *** A turn in which the price cannot be had *)

Lemma fetch_quotes_calls (w : W) :
  calls (snd (fetch_quotes rt current_symbol w))
  = [QuerySymbolPrice current_symbol].
Proof.
  unfold fetch_quotes. unfold bind at 1. unfold invoke.
  destruct (query_symbol_price rt current_symbol w) as [[e|pd] w1];
    [reflexivity|].
  unfold bind at 1. destruct (mark_price pd) as [[f|raw]|]; simpl;
    try reflexivity.
  unfold bind at 1. simpl.
  destruct (Quote.quote_strings Quote.SPREAD_BPS f) as [b a]. reflexivity.
Qed.

(** X6. When the mark price cannot be had (the query raises, the answer has
    no [mark_price], or it is no number), the turn ends there: the error is
    logged as a loop error, the loop sleeps 5 seconds, and nothing else is
    asked of the exchange; the orders resting from earlier turns are
    neither cancelled nor replaced. *)
Theorem price_failure_skips_the_turn (w : W) msg w1 t1 :
  fetch_quotes rt current_symbol w = (inl (Exception msg), w1, t1) ->
  let run := iteration rt ctx current_symbol current_order_size w in
  snd run
  = t1 ++ [ELog ERROR (LoopError msg);
           ECall (Sleep 5) (raised_by (fst (time_sleep rt 5 w1)))]
  /\ calls (snd run) = [QuerySymbolPrice current_symbol; Sleep 5]
  /\ cancelled (snd run) = [] /\ placed (snd run) = [].
Proof.
  intros F run.
  assert (E : snd run
              = t1 ++ [ELog ERROR (LoopError msg);
                       ECall (Sleep 5)
                             (raised_by (fst (time_sleep rt 5 w1)))]).
  { subst run. unfold iteration, try_except, tick, prepare.
    unfold bind at 1. unfold bind at 1. rewrite F.
    unfold bind, log, emit, sleep, invoke.
    destruct (time_sleep rt 5 w1) as [r5 w5]. reflexivity. }
  assert (C : calls (snd run) = [QuerySymbolPrice current_symbol; Sleep 5]).
  { rewrite E, calls_app. pose proof (fetch_quotes_calls w) as Q.
    rewrite F in Q. simpl in Q. rewrite Q. reflexivity. }
  split; [exact E|]. split; [exact C|].
  rewrite cancelled_calls, placed_calls, C. split; reflexivity.
Qed.

(** *** The shape of a turn that returns *)

Lemma fetch_quotes_inr (w : W) q w1 t1 :
  fetch_quotes rt current_symbol w = (inr q, w1, t1) ->
  exists pd mark,
    query_symbol_price rt current_symbol w = (inr pd, w1)
    /\ mark_price pd = Some (Number mark)
    /\ q = Quote.quote_strings Quote.SPREAD_BPS mark
    /\ t1 = [ECall (QuerySymbolPrice current_symbol) None;
             ELog INFO (MarkLine mark (fst q) (snd q))].
Proof.
  unfold fetch_quotes. unfold bind at 1. unfold invoke.
  destruct (query_symbol_price rt current_symbol w) as [[e|pd] w0] eqn:Q0;
    [discriminate|].
  unfold bind at 1. destruct (mark_price pd) as [[f|raw]|] eqn:M; simpl;
    try discriminate.
  unfold bind at 1. simpl.
  destruct (Quote.quote_strings Quote.SPREAD_BPS f) as [b a] eqn:Q.
  unfold bind, log, emit, ret. intros [= <- <- <-].
  exists pd, f. now rewrite Q.
Qed.

Lemma only_check_positions P :
  (forall q r,
      P (ECall (PlaceOrder (token ctx) (close_order current_symbol q)
                           (auth ctx)) r) = true) ->
  (forall e, P (ERaise e) = true) -> (forall l m, P (ELog l m) = true) ->
  forall ps h, only P (check_positions rt ctx current_symbol h ps).
Proof.
  intros Hc Hr Hl.
  induction ps as [|pos ps IH]; intros h; simpl; [apply only_ret|].
  apply only_bind; [|intros a; apply IH].
  unfold check_position, place_call.
  destruct (symbol_is pos current_symbol); [|apply only_ret].
  apply only_bind; [apply only_to_float, Hr | intros q].
  destruct (negb (q =? 0)%float); [|apply only_ret].
  apply only_bind; [apply only_log, Hl | intros _].
  apply only_bind; [apply only_log, Hl | intros _].
  apply only_bind; [|intros _; apply only_ret].
  apply only_try_except; [|intros m; apply only_log, Hl].
  apply only_bind; [|intros _; apply only_log, Hl].
  apply only_invoke. intros r. apply Hc.
Qed.

Lemma no_limit_cancel_open_orders :
  only no_limit (cancel_open_orders rt ctx current_symbol).
Proof.
  unfold cancel_open_orders, cancel_batch, cancel_one, open_orders_call,
    order_ids, cancel_call.
  repeat only_step.
Qed.

Lemma no_limit_flatten_positions :
  only no_limit (flatten_positions rt ctx current_symbol).
Proof.
  unfold flatten_positions. repeat only_step.
  apply only_check_positions; reflexivity.
Qed.

Ltac split_bind H a w ta tb H1 H2 :=
  apply bind_inv in H;
  destruct H as [(? & _ & H1)|(a & w & ta & tb & H1 & H2 & ->)];
  [discriminate H1|].

Lemma tick_inr (w : W) w' t :
  tick rt ctx current_symbol current_order_size w = (inr tt, w', t) ->
  exists pd w1 mark t_mid w2 w3 w4,
    let quotes := Quote.quote_strings Quote.SPREAD_BPS mark in
    let buy_order :=
      quote_order current_symbol current_order_size buy (fst quotes) in
    let sell_order :=
      quote_order current_symbol current_order_size sell (snd quotes) in
    query_symbol_price rt current_symbol w = (inr pd, w1)
    /\ mark_price pd = Some (Number mark)
    /\ t = ECall (QuerySymbolPrice current_symbol) None
           :: ELog INFO (MarkLine mark (fst quotes) (snd quotes))
           :: t_mid
           ++ [ECall (PlaceOrder (token ctx) buy_order (auth ctx)) None;
               ECall (PlaceOrder (token ctx) sell_order (auth ctx)) None;
               ELog INFO OrdersPlaced;
               ECall (Sleep REFRESH_RATE) None]
    /\ forallb no_limit t_mid = true
    /\ place_order rt (token ctx) buy_order (auth ctx) w2 = (inr tt, w3)
    /\ place_order rt (token ctx) sell_order (auth ctx) w3 = (inr tt, w4)
    /\ time_sleep rt REFRESH_RATE w4 = (inr tt, w').
Proof.
  intros H. unfold tick in H.
  split_bind H q w1 t1 t2 Hprep Hrest.
  unfold prepare in Hprep.
  split_bind Hprep q' w2 t3 t4 Hfetch Hprep.
  split_bind Hprep u1 w3 t5 t6 Hcancel Hprep.
  split_bind Hprep u2 w4 t7 t8 Hflat Hret.
  injection Hret as <- <- <-.
  apply fetch_quotes_inr in Hfetch as (pd & mark & Hq & Hm & -> & ->).
  pose proof (no_limit_cancel_open_orders w2) as C. rewrite Hcancel in C.
  pose proof (no_limit_flatten_positions w3) as F. rewrite Hflat in F.
  simpl in C, F.
  split_bind Hrest u3 w5 t9 t10 Hplace Hsleep.
  unfold place_new_orders in Hplace.
  split_bind Hplace u4 w6 t11 t12 Hbuy Hplace.
  split_bind Hplace u5 w7 t13 t14 Hsell Hlog.
  apply invoke_inr in Hbuy as [Hbuy ->].
  apply invoke_inr in Hsell as [Hsell ->].
  apply invoke_inr in Hsleep as [Hsleep ->].
  injection Hlog as _ <- <-.
  destruct u3, u4, u5.
  exists pd, w2, mark, (t5 ++ t7), w4, w6, w7. cbn zeta.
  split; [exact Hq|]. split; [exact Hm|]. split.
  - simpl. rewrite <- !app_assoc. simpl. reflexivity.
  - split; [rewrite forallb_app, C, F; reflexivity|].
    split; [exact Hbuy|]. split; [exact Hsell|].
    exact Hsleep.
Qed.

(** X7. A turn of the loop that returns has ended in one of two ways.
    Either it placed the buy and the sell limit order, in this order and
    as its only limit orders, at the two prices computed from the mark
    price that [query_symbol_price] answered in this turn, both accepted by
    [place_order], logged the success and slept the refresh interval; or
    it logged a loop error and slept 5 seconds. *)
Theorem completed_turn (w : W) w' t :
  iteration rt ctx current_symbol current_order_size w = (inr tt, w', t) ->
  (exists pd w1 mark t_mid w2 w3 w4,
      let quotes := Quote.quote_strings Quote.SPREAD_BPS mark in
      let buy_order :=
        quote_order current_symbol current_order_size buy (fst quotes) in
      let sell_order :=
        quote_order current_symbol current_order_size sell (snd quotes) in
      query_symbol_price rt current_symbol w = (inr pd, w1)
      /\ mark_price pd = Some (Number mark)
      /\ t = ECall (QuerySymbolPrice current_symbol) None
             :: ELog INFO (MarkLine mark (fst quotes) (snd quotes))
             :: t_mid
             ++ [ECall (PlaceOrder (token ctx) buy_order (auth ctx)) None;
                 ECall (PlaceOrder (token ctx) sell_order (auth ctx)) None;
                 ELog INFO OrdersPlaced;
                 ECall (Sleep REFRESH_RATE) None]
      /\ forallb no_limit t_mid = true
      /\ place_order rt (token ctx) buy_order (auth ctx) w2 = (inr tt, w3)
      /\ place_order rt (token ctx) sell_order (auth ctx) w3 = (inr tt, w4)
      /\ time_sleep rt REFRESH_RATE w4 = (inr tt, w'))
  \/ (exists t0 msg,
        t = t0 ++ [ELog ERROR (LoopError msg); ECall (Sleep 5) None]).
Proof.
  unfold iteration, try_except.
  destruct (tick rt ctx current_symbol current_order_size w)
    as [[[[m| |m]|[]] w1] t1] eqn:T; try discriminate.
  - unfold bind, log, emit, sleep, invoke.
    destruct (time_sleep rt 5 w1) as [[e|[]] w5]; [discriminate|].
    intros [= <- <-]. right. now exists t1, m.
  - intros [= <- <-]. left. exact (tick_inr _ _ _ T).
Qed.

(** *** The orders of a session *)

Lemma only_try_except_any {A} P (body h : M (W := W) A) :
  only P body -> only P h -> only P (try_except_any body h).
Proof.
  intros Hb Hh w. unfold try_except_any. specialize (Hb w).
  destruct (body w) as [[[e|a] w1] t1]; simpl in *; [|exact Hb].
  specialize (Hh w1). destruct (h w1) as [[r2 w2] t2]; simpl in *.
  rewrite forallb_app, Hb, Hh. reflexivity.
Qed.

Lemma well_formed_iteration :
  only (well_formed current_symbol current_order_size)
       (iteration rt ctx current_symbol current_order_size).
Proof.
  unfold iteration, tick, prepare, fetch_quotes, cancel_open_orders,
    flatten_positions, place_new_orders, cancel_batch, cancel_one, sleep,
    open_orders_call, order_ids, cancel_call.
  assert (Q : forall s price,
             only (well_formed current_symbol current_order_size)
                  (place_call rt ctx
                     (quote_order current_symbol current_order_size s price))).
  { intros s price. apply only_invoke. intros r.
    unfold well_formed, order_ok. simpl. now rewrite !String.eqb_refl. }
  assert (P : forall ps h,
             only (well_formed current_symbol current_order_size)
                  (check_positions rt ctx current_symbol h ps)).
  { apply only_check_positions; try reflexivity.
    intros q r. unfold well_formed, order_ok. simpl.
    now rewrite String.eqb_refl. }
  repeat only_step; first [apply P | apply Q].
Qed.

Lemma well_formed_trading_loop fuel :
  only (well_formed current_symbol current_order_size)
       (trading_loop rt ctx current_symbol current_order_size fuel).
Proof.
  induction fuel as [|n IH]; simpl.
  - apply only_ret.
  - apply only_bind; [apply well_formed_iteration | intros _; exact IH].
Qed.

Lemma places_nothing_on_exit e : only (W := W) places_nothing (on_exit e).
Proof.
  destruct e as [msg| |msg]; simpl; repeat only_step. intros w. reflexivity.
Qed.

Lemma places_nothing_cleanup :
  only places_nothing (cleanup rt ctx current_symbol).
Proof.
  unfold cleanup, shutdown_sweep, shutdown_cancel_one, open_orders_call,
    order_ids, cancel_call.
  repeat only_step. apply only_try_except_any; repeat only_step.
Qed.

Lemma placed_well_formed (t : trace) :
  forallb (well_formed current_symbol current_order_size) t = true ->
  forallb (order_ok current_symbol current_order_size) (placed t) = true.
Proof.
  induction t as [|ev t IH]; simpl; [reflexivity|].
  intros H. apply andb_true_iff in H as [Hev Ht].
  destruct ev as [[] ?| | | |]; simpl; auto.
  simpl in Hev. now rewrite Hev, IH.
Qed.

Lemma placed_nothing (t : trace) :
  forallb places_nothing t = true -> placed t = [].
Proof.
  induction t as [|ev t IH]; simpl; [reflexivity|].
  intros H. apply andb_true_iff in H as [Hev Ht].
  destruct ev as [[] ?| | | |]; simpl; auto. discriminate Hev.
Qed.

(** X8. Every order that a session hands to the exchange has one of two
    shapes, both on the configured symbol: a limit order of the configured
    size with a price, good till cancelled and not reduce-only; or a market
    order without a price, immediate-or-cancel and reduce-only. The
    handlers of the outer [try] and the shutdown sweep place no order. *)
Theorem orders_have_two_shapes fuel (w : W) :
  forallb (order_ok current_symbol current_order_size)
          (placed (snd (trading_loop rt ctx current_symbol current_order_size
                          fuel w))) = true
  /\ placed (before_cleanup rt ctx current_symbol current_order_size fuel w)
     = placed (snd (trading_loop rt ctx current_symbol current_order_size
                      fuel w))
  /\ placed (snd (cleanup rt ctx current_symbol w)) = [].
Proof.
  split; [|split].
  - apply placed_well_formed, well_formed_trading_loop.
  - unfold before_cleanup.
    destruct (trading_loop rt ctx current_symbol current_order_size fuel w)
      as [[[e|[]] w1] t1]; [|reflexivity].
    simpl. rewrite placed_app, (placed_nothing _ (places_nothing_on_exit e w1)).
    apply app_nil_r.
  - apply placed_nothing, places_nothing_cleanup.
Qed.

(** *** The fallback of the shutdown sweep *)

Lemma shutdown_cancel_one_run oid (w : W) :
  exists w' r,
    shutdown_cancel_one rt ctx oid w
    = (inr tt, w', [ECall (CancelOrders (token ctx) [oid] (auth ctx)) r]).
Proof.
  unfold shutdown_cancel_one, try_except_any, cancel_call, invoke.
  destruct (cancel_orders rt (token ctx) [oid] (auth ctx) w)
    as [[e|[]] w1]; simpl; eauto.
Qed.

Lemma shutdown_fallback_run ids : forall w : W,
  exists w' t,
    for_each (shutdown_cancel_one rt ctx) ids w = (inr tt, w', t)
    /\ cancelled t = map (fun oid => [oid]) ids
    /\ forallb quiet t = true.
Proof.
  induction ids as [|oid ids IH]; intros w; simpl.
  - exists w, []. auto.
  - destruct (shutdown_cancel_one_run oid w) as (w1 & r & E).
    destruct (IH w1) as (w2 & t2 & E2 & C2 & Q2).
    unfold bind. rewrite E, E2. eexists _, _. split; [reflexivity|].
    simpl. now rewrite C2, Q2.
Qed.

(** X9. When the batch cancel of the shutdown sweep raises an [Exception],
    the sweep tries every id on its own and then returns normally,
    whatever the single cancels do, even when they are interrupted; and it
    logs nothing above [INFO] about any of these failures. *)
Theorem shutdown_fallback_swallows (w : W) oo w1 rl ids msg w2 :
  query_open_orders rt (token ctx) current_symbol w = (inr oo, w1) ->
  result oo = Some rl -> map id rl = map Some ids -> ids <> [] ->
  cancel_orders rt (token ctx) ids (auth ctx) w1
    = (inl (Exception msg), w2) ->
  exists w' t,
    shutdown_sweep rt ctx current_symbol w = (inr tt, w', t)
    /\ cancelled t = ids :: map (fun oid => [oid]) ids
    /\ forallb quiet t = true
    /\ last t (ELog INFO ShutdownStart) = ELog INFO ShutdownFallback.
Proof.
  intros Hq Hres Hids Hne Hbatch.
  destruct (shutdown_fallback_run ids w2) as (w3 & t3 & E & C & Q).
  assert (Hn : nonempty rl = true).
  { destruct rl; [destruct ids; [easy | discriminate]|reflexivity]. }
  unfold shutdown_sweep, try_except.
  unfold bind at 1. unfold log at 1, emit at 1.
  unfold bind at 1. unfold open_orders_call, invoke at 1.
  rewrite Hq, Hres. cbn [get]. rewrite Hn.
  unfold bind at 1. rewrite (order_ids_all rl ids w1 Hids).
  unfold bind at 1. unfold log at 1, emit at 1.
  unfold cancel_call. unfold bind at 1. unfold invoke at 1. rewrite Hbatch.
  unfold bind at 1. rewrite E. unfold log, emit.
  eexists _, _. split; [reflexivity|]. cbn [app]. split; [|split].
  - cbn [cancelled]. rewrite cancelled_app, C. cbn [cancelled].
    now rewrite app_nil_r.
  - cbn [forallb quiet andb]. rewrite forallb_app, Q. reflexivity.
  - rewrite !app_comm_cons. apply last_last.
Qed.

(** *** An open order without an id *)

(** X10. When an entry of the open-orders listing has no [id], neither pass
    cancels anything, not even the orders that do have one: building the
    id list raises, the cancel step of the tick logs it as its error and
    the shutdown sweep as a failed cleanup, and both return. *)
Theorem missing_id_cancels_nothing (w : W) oo w1 rl :
  query_open_orders rt (token ctx) current_symbol w = (inr oo, w1) ->
  result oo = Some rl -> In None (map id rl) ->
  cancel_open_orders rt ctx current_symbol w
  = (inr tt, w1,
     [ECall (QueryOpenOrders (token ctx) current_symbol) None;
      ELog INFO (FoundOpen (List.length rl));
      ERaise (Exception "'id'");
      ELog ERROR (CancelStepError "'id'")])
  /\ shutdown_sweep rt ctx current_symbol w
     = (inr tt, w1,
        [ELog INFO ShutdownStart;
         ECall (QueryOpenOrders (token ctx) current_symbol) None;
         ERaise (Exception "'id'");
         ELog ERROR (CleanupFailed "'id'")]).
Proof.
  intros Hq Hres Hin.
  assert (Hlen : (0 <? List.length rl)%nat = true /\ nonempty rl = true).
  { destruct rl; [destruct Hin | split; reflexivity]. }
  destruct Hlen as [Hlen Hn]. split.
  - unfold cancel_open_orders, try_except, open_orders_call.
    unfold bind at 1. unfold invoke at 1. rewrite Hq, Hres. cbn [get].
    rewrite Hlen. unfold bind at 1. unfold log at 1, emit at 1.
    unfold bind at 1. rewrite (order_ids_missing rl w1 Hin). reflexivity.
  - unfold shutdown_sweep, try_except, open_orders_call.
    unfold bind at 1. unfold log at 1, emit at 1.
    unfold bind at 1. unfold invoke at 1. rewrite Hq, Hres. cbn [get].
    rewrite Hn. unfold bind at 1. rewrite (order_ids_missing rl w1 Hin).
    reflexivity.
Qed.

(** *** A quantity that is no number *)

Lemma check_positions_stops before bad after raw :
  convertible current_symbol before = true ->
  symbol_is bad current_symbol = true ->
  get (qty bad) (Number 0) = NotNumber raw ->
  forall h (w : W) r w' t,
    check_positions rt ctx current_symbol h (before ++ bad :: after) w
      = (r, w', t) ->
    (forall h', r <> inr h')
    /\ (forall msg,
          r = inl (Exception msg) ->
          placed t = map (close_order current_symbol)
                         (to_close current_symbol before)
          /\ exists t0,
               t = t0 ++ [ERaise (Exception msg)]
               /\ msg = ("could not convert string to float: '" ++ raw ++ "'")%string).
Proof.
  intros Hc Hs Hq. induction before as [|pos before IH];
    intros h w r w' t H; simpl in H.
  - unfold bind at 1 in H. unfold check_position in H.
    rewrite Hs in H. unfold bind at 1 in H. rewrite Hq in H. simpl in H.
    injection H as <- _ <-. split; [discriminate|].
    intros msg [= <-]. split; [reflexivity|]. now exists [].
  - assert (Hp' : convertible current_symbol [pos] = true
                   /\ convertible current_symbol before = true).
    { unfold convertible in *. simpl in *.
      apply andb_true_iff in Hc as [Hp Hps]. now rewrite Hp, Hps. }
    destruct Hp' as [Hp' Hps].
    apply bind_inv in H.
    destruct H as [(e & H1 & ->)|(a & w1 & t1 & t2 & H1 & H2 & ->)].
    + destruct (check_position_placed _ _ _ _ _ _ _ _ _ Hp' H1) as [Hn _].
      split; [discriminate|]. intros msg [= ->]. now destruct (Hn msg).
    + destruct (check_position_placed _ _ _ _ _ _ _ _ _ Hp' H1) as [_ Hpl].
      destruct (IH Hps _ _ _ _ _ H2) as [Hn Hrest].
      split; [exact Hn|]. intros msg ->.
      destruct (Hrest msg eq_refl) as (Hplaced & t0 & -> & Hmsg).
      split.
      * rewrite placed_app, (Hpl a eq_refl), Hplaced.
        rewrite <- map_app. f_equal.
        unfold to_close. simpl. now rewrite app_nil_r.
      * exists (t1 ++ t0). now rewrite app_assoc.
Qed.

(** X11. The position step stops at the first entry for the symbol whose
    quantity [float()] rejects: the positions listed before it have been
    closed, those listed after it are not looked at in this tick, and the
    step logs the conversion error and returns. *)
Theorem flatten_stops_at_bad_quantity (w : W) before bad after raw w1 w' t :
  query_positions rt (token ctx) current_symbol w
    = (inr (before ++ bad :: after), w1) ->
  convertible current_symbol before = true ->
  symbol_is bad current_symbol = true ->
  get (qty bad) (Number 0) = NotNumber raw ->
  flatten_positions rt ctx current_symbol w = (inr tt, w', t) ->
  let msg := ("could not convert string to float: '" ++ raw ++ "'")%string in
  placed t
  = map (close_order current_symbol) (to_close current_symbol before)
  /\ exists t0,
       t = t0 ++ [ERaise (Exception msg); ELog ERROR (PositionStepError msg)].
Proof.
  intros Hq Hc Hs Hbad. unfold flatten_positions, try_except.
  unfold bind at 1. unfold invoke at 1. rewrite Hq.
  unfold bind at 1.
  destruct (check_positions rt ctx current_symbol false
              (before ++ bad :: after) w1) as [[r2 w2] t2] eqn:E.
  destruct (check_positions_stops before bad after raw Hc Hs Hbad _ _ _ _ _ E)
    as [Hn Hex].
  destruct r2 as [[m| |m]|h']; simpl; intros E'; try discriminate E'.
  - destruct (Hex m eq_refl) as (Hpl & t0 & -> & ->).
    injection E' as _ <-. simpl. split.
    + rewrite placed_app. simpl. rewrite app_nil_r. exact Hpl.
    + exists (ECall (QueryPositions (token ctx) current_symbol) None :: t0).
      simpl. now rewrite <- app_assoc.
  - now destruct (Hn h').
Qed.


(** *** How a session can end *)

Lemma contained_cleanup : contained (cleanup rt ctx current_symbol).
Proof.
  unfold cleanup. destruct (established ctx); [|apply contained_ret].
  apply contained_try_except. intros msg. apply contained_log.
Qed.

Lemma trading_session_no_exception fuel (w : W) r w' t :
  trading_session rt ctx current_symbol current_order_size fuel w
    = Some (r, w', t) ->
  forall msg, r <> inl (Exception msg).
Proof.
  unfold trading_session.
  destruct (trading_loop rt ctx current_symbol current_order_size fuel w)
    as [[[e|[]] w1] t1]; [|discriminate].
  assert (X : forall msg, fst (fst (on_exit e w1)) <> inl (Exception msg)).
  { destruct e as [m| |m]; intros msg; discriminate. }
  destruct (on_exit e w1) as [[r2 w2] t2]. simpl in X.
  unfold finally. pose proof (contained_cleanup w2) as C.
  destruct (cleanup rt ctx current_symbol w2) as [[[e3|[]] w3] t3];
    simpl in C; intros [= <- _ _]; [exact C | exact X].
Qed.


(** *** Failed steps do not hold back the quotes *)

Lemma bind_prefix {A B} (m : M (W := W) A) (f : A -> M (W := W) B) (w : W) :
  exists rest, snd (bind m f w) = snd (m w) ++ rest.
Proof.
  unfold bind. destruct (m w) as [[[e|a] w1] t1].
  - exists []. now rewrite app_nil_r.
  - destruct (f a w1) as [[r2 w2] t2]. now exists t2.
Qed.

Lemma try_except_prefix {A} (body : M (W := W) A) h (w : W) :
  exists rest, snd (try_except body h w) = snd (body w) ++ rest.
Proof.
  unfold try_except. destruct (body w) as [[[[m| |m]|a] w1] t1];
    try (exists []; now rewrite app_nil_r).
  destruct (h m w1) as [[r2 w2] t2]. now exists t2.
Qed.

Lemma step_returns (m : M (W := W) unit) (w : W) :
  mild m -> contained m -> fst (fst (m w)) = inr tt.
Proof.
  intros Hm Hc. specialize (Hm w). specialize (Hc w).
  destruct (m w) as [[[[msg| |msg]|[]] w1] t1]; simpl in *;
    try contradiction; [now destruct (Hc msg) | reflexivity].
Qed.

Lemma cancel_open_orders_returns (w : W) :
  uninterrupted rt ->
  fst (fst (cancel_open_orders rt ctx current_symbol w)) = inr tt.
Proof.
  intros (_ & Hopen & Hcancel & _). apply step_returns.
  - unfold cancel_open_orders, cancel_batch, cancel_one, open_orders_call,
      order_ids, cancel_call.
    repeat mild_step.
  - apply contained_cancel_open_orders.
Qed.

Lemma flatten_positions_returns (w : W) :
  uninterrupted rt ->
  fst (fst (flatten_positions rt ctx current_symbol w)) = inr tt.
Proof.
  intros (_ & _ & _ & Hpos & Hplace & _). apply step_returns.
  - assert (P : forall ps h,
               mild (check_positions rt ctx current_symbol h ps)).
    { induction ps as [|pos ps IH]; intros h; simpl; [apply mild_ret|].
      unfold check_position, place_call. repeat mild_step; apply IH. }
    unfold flatten_positions. repeat mild_step; apply P.
  - apply contained_flatten_positions.
Qed.

(** X12. As long as nobody interrupts, a turn that has its mark price goes on
    to place the buy quote whatever happens in the cancel step and in the
    position step: their failures are logged and passed over, so new
    quotes are sent even when the old ones could not be cancelled. *)
Theorem step_failures_do_not_stop_quotes (w : W) bid ask w1 t1 :
  uninterrupted rt ->
  fetch_quotes rt current_symbol w = (inr (bid, ask), w1, t1) ->
  exists t_steps r rest,
    snd (iteration rt ctx current_symbol current_order_size w)
    = t1 ++ t_steps
         ++ ECall (PlaceOrder (token ctx)
                     (quote_order current_symbol current_order_size buy bid)
                     (auth ctx)) r
         :: rest
    /\ forallb no_limit t_steps = true.
Proof.
  intros U F.
  pose proof (cancel_open_orders_returns w1 U) as C.
  pose proof (no_limit_cancel_open_orders w1) as NC.
  destruct (cancel_open_orders rt ctx current_symbol w1)
    as [[rc w2] tc] eqn:EC. simpl in C, NC. subst rc.
  pose proof (flatten_positions_returns w2 U) as P.
  pose proof (no_limit_flatten_positions w2) as NP.
  destruct (flatten_positions rt ctx current_symbol w2)
    as [[rp w3] tp] eqn:EP. simpl in P, NP. subst rp.
  assert (Hprep : prepare rt ctx current_symbol w
                  = (inr (bid, ask), w3, t1 ++ tc ++ tp)).
  { unfold prepare. unfold bind at 1. rewrite F.
    unfold bind at 1. rewrite EC. unfold bind at 1. rewrite EP.
    simpl. now rewrite app_nil_r. }
  assert (N : forallb no_limit (tc ++ tp) = true)
    by (rewrite forallb_app, NC, NP; reflexivity).
  destruct (try_except_prefix
              (tick rt ctx current_symbol current_order_size)
              (fun loop_error =>
                 log ERROR (LoopError loop_error) ;; sleep rt 5) w)
    as [rest1 E1].
  destruct (bind_prefix
              (place_new_orders rt ctx current_symbol current_order_size
                                bid ask)
              (fun _ => sleep rt REFRESH_RATE) w3) as [rest2 E2].
  destruct (bind_prefix
              (place_call rt ctx
                 (quote_order current_symbol current_order_size buy bid))
              (fun _ =>
                 place_call rt ctx
                   (quote_order current_symbol current_order_size sell ask) ;;
                 log INFO OrdersPlaced) w3) as [rest3 E3].
  exists (tc ++ tp),
    (raised_by
       (fst (place_order rt (token ctx)
               (quote_order current_symbol current_order_size buy bid)
               (auth ctx) w3))),
    (rest3 ++ rest2 ++ rest1).
  split; [|exact N].
  unfold iteration. rewrite E1. unfold tick at 1. unfold bind at 1.
  rewrite Hprep. cbn [fst snd].
  match goal with
  | |- context [ match ?k w3 with _ => _ end ] =>
      change k with (place_new_orders rt ctx current_symbol current_order_size
                       bid ask ;; sleep rt REFRESH_RATE);
      destruct (k w3) as [[rk wk] tk] eqn:EK
  end.
  cbn [snd] in *. rewrite E2. unfold place_new_orders at 1. rewrite E3.
  unfold place_call at 1, invoke.
  destruct (place_order rt (token ctx)
              (quote_order current_symbol current_order_size buy bid)
              (auth ctx) w3) as [rb w4].
  cbn [fst snd]. rewrite <- !app_assoc. reflexivity.
Qed.


End Loop.

(** *** Start-up *)

Section Startup.
Context {W : Type} (rt : Runtime W).

Lemma offline_configure c : only offline (configure rt c).
Proof.
  destruct c as [ctx|]; unfold configure; repeat only_step.
Qed.

Lemma offline_startup : only offline (startup rt).
Proof.
  unfold startup. repeat only_step; apply offline_configure.
Qed.

Lemma configure_some c (w : W) ctx sym size w' t :
  configure rt c w = (inr (Some (ctx, sym, size)), w', t) ->
  sym = Symbol.current_symbol (environ rt)
  /\ exists raw,
       input rt (size_prompt sym) w = (inr raw, w')
       /\ size = if PyStr.truthy (PyStr.strip raw) then PyStr.strip raw
                 else ORDER_SIZE.
Proof.
  unfold configure. destruct c as [c|]; [|discriminate].
  unfold bind at 1. unfold invoke.
  destruct (input rt (size_prompt (Symbol.current_symbol (environ rt))) w)
    as [[e|raw] w1] eqn:I; [discriminate|].
  unfold bind, log, emit, ret. intros [= <- <- <- <- _].
  split; [reflexivity|]. exists raw. split; [exact I|].
  now destruct (PyStr.truthy (PyStr.strip raw)).
Qed.

(** X14. When the trading loop is entered, the symbol is the normalised
    [SYMBOL] of the environment and ends in [-USD], and the order size is
    never empty: it is the stripped answer to the size prompt, or the
    default when that answer is blank. *)
Theorem loop_entry (w : W) ctx sym size w' t :
  startup rt w = (inr (Some (ctx, sym, size)), w', t) ->
  sym = Symbol.current_symbol (environ rt)
  /\ PyStr.endswith sym "-USD" = true
  /\ PyStr.truthy size = true
  /\ exists w0 raw,
       input rt (size_prompt sym) w0 = (inr raw, w')
       /\ size = if PyStr.truthy (PyStr.strip raw) then PyStr.strip raw
                 else ORDER_SIZE.
Proof.
  intros H.
  assert (C : exists c w0 t0,
             configure rt c w0 = (inr (Some (ctx, sym, size)), w', t0)).
  { revert H. unfold startup.
    unfold bind at 1. unfold emit at 1.
    unfold bind at 1. unfold emit at 1.
    unfold bind at 1. unfold emit at 1.
    unfold bind at 1. unfold emit at 1.
    unfold bind at 1. unfold invoke at 1.
    destruct (input rt "Enter choice (1 or 2): " w) as [[e|raw] w1];
      [discriminate|].
    destruct (PyStr.strip raw =? "1")%string.
    - unfold bind at 1. unfold invoke at 1.
      destruct (get_auth_context_private_key rt w1) as [[e|c] w2];
        [discriminate|].
      destruct (configure rt c w2) as [[r3 w3] t3] eqn:E.
      intros [= -> -> _]. now exists c, w2, t3.
    - destruct (PyStr.strip raw =? "2")%string; [|discriminate].
      unfold bind at 1. unfold invoke at 1.
      destruct (get_auth_context_api_token rt w1) as [[e|c] w2];
        [discriminate|].
      destruct (configure rt c w2) as [[r3 w3] t3] eqn:E.
      intros [= -> -> _]. now exists c, w2, t3. }
  destruct C as (c & w0 & t0 & C).
  apply configure_some in C as (-> & raw & I & ->).
  split; [reflexivity|]. split; [apply SymbolFacts.normalize_ends|].
  split; [|now exists w0, raw].
  destruct (PyStr.truthy (PyStr.strip raw)) eqn:T; [exact T | reflexivity].
Qed.



End Startup.

(** *** The symbol *)

Lemma upper_ascii_idempotent (c : ascii) :
  PyStr.upper_ascii (PyStr.upper_ascii c) = PyStr.upper_ascii c.
Proof.
  destruct c as [[] [] [] [] [] [] [] []]; reflexivity.
Qed.

Lemma upper_idempotent (s : string) : PyStr.upper (PyStr.upper s) = PyStr.upper s.
Proof.
  induction s as [|c s IH]; simpl; [reflexivity|].
  now rewrite upper_ascii_idempotent, IH.
Qed.

Lemma upper_app (s t : string) :
  PyStr.upper (s ++ t) = (PyStr.upper s ++ PyStr.upper t)%string.
Proof.
  induction s as [|c s IH]; simpl; [reflexivity | now rewrite IH].
Qed.

Lemma before_dash_suffix (s : string) :
  before_dash (s ++ "-USD") = before_dash s.
Proof.
  induction s as [|c s IH]; simpl; [reflexivity|].
  destruct (Ascii.eqb c "-"); [reflexivity | now rewrite IH].
Qed.

(** X17. The symbol is a fixed point of its own computation: set as [SYMBOL],
    it comes back unchanged. And the unit shown beside the order size, the
    symbol up to its first dash, is the upper-cased [SYMBOL] up to its
    first dash, whether or not [-USD] was appended. *)
Theorem symbol_is_stable (env : Symbol.environ) :
  let sym := Symbol.current_symbol env in
  Symbol.current_symbol (fun _ => Some sym) = sym
  /\ before_dash sym
     = before_dash (PyStr.upper (Symbol.getenv env "SYMBOL" "BTC")).
Proof.
  intros sym. subst sym. unfold Symbol.current_symbol.
  set (u := PyStr.upper (Symbol.getenv env "SYMBOL" "BTC")).
  assert (U : PyStr.upper u = u) by apply upper_idempotent.
  split.
  - unfold Symbol.getenv.
    assert (N : PyStr.upper (Symbol.normalize u) = Symbol.normalize u).
    { unfold Symbol.normalize. destruct (negb (PyStr.endswith u "-USD")).
      - now rewrite upper_app, U.
      - exact U. }
    rewrite N. unfold Symbol.normalize at 1.
    now rewrite SymbolFacts.normalize_ends.
  - unfold Symbol.normalize. destruct (negb (PyStr.endswith u "-USD")).
    + apply before_dash_suffix.
    + reflexivity.
Qed.


Section Examples.
Import Scripted MoreScripts.

Lemma all_failing_uninterrupted : uninterrupted (runtime all_failing).
Proof.
  repeat split; intros; exact I.
Defined.

Lemma failing_exchange_example :
  trading_session (runtime all_failing) alice "BTC-USD" "0.0015" 3 0 = None.
Proof.
  exact (proj2 (only_an_interrupt_stops_the_loop (runtime all_failing) alice
                  "BTC-USD" "0.0015" all_failing_uninterrupted 3%nat 0%nat)).
Defined.

Lemma price_failure_example :
  calls (snd (iteration (runtime price_unavailable) alice "BTC-USD" "0.0015"
                0))
  = [QuerySymbolPrice "BTC-USD"; Sleep 5]
  /\ cancelled (snd (iteration (runtime price_unavailable) alice "BTC-USD"
                       "0.0015" 0)) = [].
Proof.
  pose proof (price_failure_skips_the_turn (runtime price_unavailable) alice
                "BTC-USD" "0.0015" 0%nat "timeout" 1%nat
                [ECall (QuerySymbolPrice "BTC-USD")
                       (Some (Exception "timeout"))]
                eq_refl) as (_ & A & B & _).
  split; [exact A | exact B].
Defined.

Lemma completed_turn_example :
  exists w' t,
    iteration (runtime (priced 0.95)) alice "BTC-USD" "0.0015" 0
    = (inr tt, w', t)
    /\ ((exists pd w1 mark t_mid w2 w3 w4,
            let quotes := Quote.quote_strings Quote.SPREAD_BPS mark in
            let buy_order := quote_order "BTC-USD" "0.0015" buy (fst quotes) in
            let sell_order :=
              quote_order "BTC-USD" "0.0015" sell (snd quotes) in
            query_symbol_price (runtime (priced 0.95)) "BTC-USD" 0
            = (inr pd, w1)
            /\ mark_price pd = Some (Number mark)
            /\ t = ECall (QuerySymbolPrice "BTC-USD") None
                   :: ELog INFO (MarkLine mark (fst quotes) (snd quotes))
                   :: t_mid
                   ++ [ECall (PlaceOrder "tok" buy_order (Ed25519 "k1")) None;
                       ECall (PlaceOrder "tok" sell_order (Ed25519 "k1")) None;
                       ELog INFO OrdersPlaced;
                       ECall (Sleep REFRESH_RATE) None]
            /\ forallb no_limit t_mid = true
            /\ place_order (runtime (priced 0.95)) "tok" buy_order
                           (Ed25519 "k1") w2 = (inr tt, w3)
            /\ place_order (runtime (priced 0.95)) "tok" sell_order
                           (Ed25519 "k1") w3 = (inr tt, w4)
            /\ time_sleep (runtime (priced 0.95)) REFRESH_RATE w4
               = (inr tt, w'))
        \/ (exists t0 msg,
              t = t0 ++ [ELog ERROR (LoopError msg); ECall (Sleep 5) None]))
    /\ limit_orders (placed t) = [buy_at "0.9492"; sell_at "0.9508"].
Proof.
  eexists _, _. split; [reflexivity|]. split.
  - exact (completed_turn (runtime (priced 0.95)) alice "BTC-USD" "0.0015"
             0%nat _ _ eq_refl).
  - reflexivity.
Defined.

Lemma shutdown_fallback_example :
  exists w' t,
    shutdown_sweep (runtime cancel_interrupted) alice "BTC-USD" 0
    = (inr tt, w', t)
    /\ cancelled t = [[11; 12]; [11]; [12]]%Z.
Proof.
  destruct (shutdown_fallback_swallows (runtime cancel_interrupted) alice
              "BTC-USD" 0%nat (orders [11; 12]%Z) 1%nat
              [ {| id := Some 11%Z |}; {| id := Some 12%Z |} ] [11; 12]%Z
              "batch rejected" 2%nat eq_refl eq_refl eq_refl
              (fun H => eq_ind [11; 12]%Z
                          (fun l => match l with [] => False | _ => True end)
                          I [] H)
              eq_refl)
    as (w' & t & A & B & _).
  now exists w', t.
Defined.

Lemma missing_id_example :
  cancelled (snd (cancel_open_orders (runtime id_missing) alice "BTC-USD" 0))
  = []
  /\ cancelled (snd (shutdown_sweep (runtime id_missing) alice "BTC-USD" 0))
     = [].
Proof.
  destruct (missing_id_cancels_nothing (runtime id_missing) alice "BTC-USD"
              0%nat
              {| result := Some [ {| id := Some 11%Z |}; {| id := None |};
                                  {| id := Some 13%Z |} ] |}
              1%nat
              [ {| id := Some 11%Z |}; {| id := None |};
                {| id := Some 13%Z |} ]
              eq_refl eq_refl (or_intror (or_introl eq_refl))) as [A B].
  rewrite A, B. split; reflexivity.
Defined.

Lemma bad_quantity_example :
  placed (snd (flatten_positions (runtime bad_quantity) alice "BTC-USD" 0))
  = [ {| o_symbol := "BTC-USD"; o_side := sell; o_type := market;
         o_qty := QtyFloat 0.5; o_price := None; o_tif := ioc;
         o_reduce_only := true |} ].
Proof.
  exact (proj1 (flatten_stops_at_bad_quantity (runtime bad_quantity) alice
                  "BTC-USD" 0%nat
                  [ {| symbol := Some "BTC-USD"; qty := Some (Number 0.5) |} ]
                  {| symbol := Some "BTC-USD";
                     qty := Some (NotNumber "n/a") |}
                  [ {| symbol := Some "BTC-USD";
                       qty := Some (Number (-2)) |} ]
                  "n/a" 1%nat _ _ eq_refl eq_refl eq_refl eq_refl eq_refl)).
Defined.

Lemma loop_entry_example :
  exists ctx sym size w' t,
    startup (runtime calm) 0 = (inr (Some (ctx, sym, size)), w', t)
    /\ sym = "BTC-USD" /\ size = "0.0015".
Proof.
  eexists _, _, _, _, _. split; [reflexivity|].
  destruct (loop_entry (runtime calm) 0%nat alice "BTC-USD" "0.0015" 3%nat _
              eq_refl) as (A & _).
  split; reflexivity.
Defined.




Lemma orders_unavailable_uninterrupted :
  uninterrupted (runtime orders_unavailable).
Proof.
  repeat split; intros; exact I.
Defined.

Lemma step_failure_example :
  In (buy_at "29976.00")
     (placed (snd (iteration (runtime orders_unavailable) alice "BTC-USD"
                     "0.0015" 0))).
Proof.
  destruct (step_failures_do_not_stop_quotes (runtime orders_unavailable)
              alice "BTC-USD" "0.0015" 0%nat "29976.00" "30024.00" 1%nat
              [ECall (QuerySymbolPrice "BTC-USD") None;
               ELog INFO (MarkLine 30000 "29976.00" "30024.00")]
              orders_unavailable_uninterrupted eq_refl)
    as (t_steps & r & rest & E & _).
  rewrite E, !placed_app. apply in_or_app. right. apply in_or_app. right.
  left. reflexivity.
Defined.


End Examples.

End RunFacts.
